(** * marble: listeners and the multipart field parser

    A shallow embedding of three source files of the repository:

    - [packages/middleware-multipart/src/multipart.parser.field.ts]
      ([parseField]),
    - [packages/core/src/listener/http.listener.ts] ([httpListener] and its
      per-request handler [httpServer]),
    - the WebSocket listener ([webSocketListener], with [handleMessage],
      [onMessage], [onClose], [handleConnection] and [verifyClient]): one
      connection as its own closures see it, and the connections of a
      server as objects of one heap.

    The code is written against RxJS.  Observables are modelled by what a
    subscriber sees: the notifications delivered synchronously at
    subscription and in reaction to every value pushed into the subject the
    observable is derived from.  Mutable JavaScript objects live in explicit
    stores, calls into the outside world are recorded in traces. *)

From Stdlib Require Import ZArith.
From stdpp Require Import base option list strings gmap fin_maps.

(* ===================================================================== *)
(** ** JavaScript values and errors *)
(* ===================================================================== *)

Module Js.

(** The values that flow through the untyped ([any]) positions of the
    code.  Objects are references. *)
Inductive JsValue : Type :=
| JUndefined
| JNull
| JBool (b : bool)
| JNumber (z : Z)
| JNaN
| JString (s : string)
| JObject (ref : positive).

(** [Boolean(v)]: ToBoolean of ECMAScript. *)
Definition Boolean (v : JsValue) : bool :=
  match v with
  | JUndefined | JNull | JNaN => false
  | JBool b => b
  | JNumber z => negb (Z.eqb z 0)
  | JString s => negb (String.eqb s EmptyString)
  | JObject _ => true
  end.

(** Thrown values.  [WebSocketConnectionError] is the error class of
    [error/websocket.error.model]: it carries a [message] and a [status].
    Any other error has a [message] and no [status] property. *)
Inductive JsError : Type :=
| WebSocketConnectionError (message : string) (status : Z)
| OtherError (message : string).

(** [error.status]; [None] is [undefined]. *)
Definition error_status (e : JsError) : option Z :=
  match e with
  | WebSocketConnectionError _ st => Some st
  | OtherError _ => None
  end.

(** [error.message]. *)
Definition error_message (e : JsError) : option string :=
  match e with
  | WebSocketConnectionError m _ => Some m
  | OtherError m => Some m
  end.

End Js.

(* ===================================================================== *)
(** ** RxJS: notifications, observables, operators, subscribers *)
(* ===================================================================== *)

Module Rx.
Import Js.

(** What an observer can be told. *)
Inductive Notification (A : Type) : Type :=
| Next (a : A)
| Error (e : JsError)
| Complete.
Arguments Next {A} a.
Arguments Error {A} e.
Arguments Complete {A}.

(** The notifications delivered in one synchronous burst.  Whatever
    follows the first [Error] or [Complete] is never seen. *)
Definition Batch (A : Type) : Type := list (Notification A).

(** An observable derived from a [Subject<I>] (or from no subject at all,
    when it never reacts): [on_subscribe] is delivered when an observer
    subscribes, [on_next h i] when the subject is handed [i] after the
    values [h] it was handed since that subscription. *)
Record Observable (I A : Type) : Type := {
  on_subscribe : Batch A;
  on_next : list I -> I -> Batch A;
}.
Arguments on_subscribe {I A} _.
Arguments on_next {I A} _ _ _.

(** [of(a)]; [of] is a keyword of Rocq. *)
Definition rx_of {I A} (a : A) : Observable I A :=
  {| on_subscribe := [Next a; Complete]; on_next := fun _ _ => [] |}.

(** A [Subject<I>] seen as an observable: it replays nothing and hands on
    every value pushed into it. *)
Definition asObservable {I} : Observable I I :=
  {| on_subscribe := []; on_next := fun _ i => [Next i] |}.

(** [map(project)] where [project] may throw: the exception becomes the
    error notification and upstream is unsubscribed. *)
Fixpoint map_batch {A B} (project : A -> JsError + B) (b : Batch A) : Batch B :=
  match b with
  | [] => []
  | Next a :: b' =>
      match project a with
      | inr v => Next v :: map_batch project b'
      | inl e => [Error e]
      end
  | Error e :: _ => [Error e]
  | Complete :: _ => [Complete]
  end.

Definition map {I A B} (project : A -> JsError + B) (o : Observable I A)
  : Observable I B :=
  {| on_subscribe := map_batch project (on_subscribe o);
     on_next := fun h i => map_batch project (on_next o h i) |}.

(** A projection that cannot throw, such as [Boolean]. *)
Definition total {A B} (f : A -> B) : A -> JsError + B := fun a => inr (f a).

(** [observable.subscribe(next, error)] on one burst: [next] runs for each
    value up to the first terminal notification, [error] runs when that
    notification is an error.  The flag tells whether the subscription is
    [closed] afterwards. *)
Fixpoint notify {A S} (next : A -> S -> S) (error : JsError -> S -> S)
    (b : Batch A) (s : S) : S * bool :=
  match b with
  | [] => (s, false)
  | Next a :: b' => notify next error b' (next a s)
  | Error e :: _ => (error e s, true)
  | Complete :: _ => (s, true)
  end.

(** A burst seen as the values that come first and what follows them:
    [ends tail] holds when nothing follows or a terminal notification
    does. *)
Definition ends {A} (tail : Batch A) : bool :=
  match tail with Next _ :: _ => false | _ => true end.

(** *** The operators [parseField] pipes together

    They are driven tick by tick: each operator turns the burst it
    receives into the burst it passes on, and keeps its own flag. *)

(** What reaches [takeUntil(notifier)]: a notification of its source or
    one of the notifier. *)
Inductive Tick (A B : Type) : Type :=
| FromSource (n : Notification A)
| FromNotifier (n : Notification B).
Arguments FromSource {A B} n.
Arguments FromNotifier {A B} n.

(** [takeUntil(notifier)], with the flag "already terminated".  A value of
    the notifier completes the result, an error of the notifier is passed
    on, the completion of the notifier is ignored. *)
Definition takeUntil {A B} (stopped : bool) (t : Tick A B) : bool * Batch A :=
  if stopped then (true, [])
  else match t with
       | FromSource (Next a) => (false, [Next a])
       | FromSource (Error e) => (true, [Error e])
       | FromSource Complete => (true, [Complete])
       | FromNotifier (Next _) => (true, [Complete])
       | FromNotifier (Error e) => (true, [Error e])
       | FromNotifier Complete => (false, [])
       end.

(** [tap(f)]: [f] runs on the store for every value, values pass. *)
Fixpoint tap {A H} (f : A -> H -> H) (b : Batch A) (h : H) : Batch A * H :=
  match b with
  | [] => ([], h)
  | Next a :: b' =>
      let '(out, h') := tap f b' (f a h) in (Next a :: out, h')
  | Error e :: _ => ([Error e], h)
  | Complete :: _ => ([Complete], h)
  end.

(** [mapTo(v)] *)
Fixpoint mapTo {A B} (v : B) (b : Batch A) : Batch B :=
  match b with
  | [] => []
  | Next _ :: b' => Next v :: mapTo v b'
  | Error e :: _ => [Error e]
  | Complete :: _ => [Complete]
  end.

(** [defaultIfEmpty(d)], with the flag "nothing seen so far". *)
Fixpoint defaultIfEmpty {A} (d : A) (isEmpty : bool) (b : Batch A)
  : bool * Batch A :=
  match b with
  | [] => (isEmpty, [])
  | Next a :: b' =>
      let '(e, out) := defaultIfEmpty d false b' in (e, Next a :: out)
  | Error e :: _ => (isEmpty, [Error e])
  | Complete :: _ =>
      (isEmpty, if isEmpty then [Next d; Complete] else [Complete])
  end.

(** *** What an observer sees of a burst *)

(** The values before the first terminal notification. *)
Fixpoint values {A} (b : Batch A) : list A :=
  match b with
  | Next a :: b' => a :: values b'
  | _ => []
  end.

(** The error, when the first terminal notification is one. *)
Fixpoint failure {A} (b : Batch A) : option JsError :=
  match b with
  | Next _ :: b' => failure b'
  | Error e :: _ => Some e
  | _ => None
  end.

(** Whether the burst holds a terminal notification. *)
Fixpoint terminates {A} (b : Batch A) : bool :=
  match b with
  | Next _ :: b' => terminates b'
  | [] => false
  | _ => true
  end.

End Rx.

(* ===================================================================== *)
(** ** multipart.parser.field.ts *)
(* ===================================================================== *)

Module Multipart.
Import Js Rx.

(** [req.body] is typed [any]: it is absent, or an object whose own
    enumerable properties are the fields collected so far.  The properties
    are kept by name: the order in which the keys of the object are
    enumerated is not represented, and the statements below are about what
    reading a property gives. *)
Inductive Body : Type :=
| BUndefined
| BNull
| BObject (props : gmap string JsValue).

(** The part of [HttpRequest] the parser touches. *)
Record HttpRequest : Type := { body : Body }.

(** Request objects are shared: the store maps references to objects. *)
Abbreviation ReqRef := positive.
Abbreviation Store := (gmap positive HttpRequest).

(** [type FieldEvent = [string, any, boolean, boolean, string, string]] *)
Definition FieldEvent : Type :=
  (string * JsValue * bool * bool * string * string)%type.

(** [req.body ?? {}], spread into a fresh object literal. *)
Definition spread_body (b : Body) : gmap string JsValue :=
  match b with
  | BUndefined | BNull => ∅
  | BObject props => props
  end.

(** The callback of [tap]:
    [req.body = { ...req.body ?? {}, [fieldname]: value }]. *)
Definition assignField (req : ReqRef) (ev : FieldEvent) (h : Store) : Store :=
  let '(fieldname, value, _, _, _, _) := ev in
  alter (fun r =>
           {| body := BObject (<[fieldname := value]> (spread_body (body r))) |})
        req h.

(** The two flags of the pipe, those of [takeUntil] and [defaultIfEmpty]. *)
Record PipeState : Type := { stopped : bool; isEmpty : bool }.

Definition initial : PipeState := {| stopped := false; isEmpty := true |}.

(** One tick of
    [event$.pipe(takeUntil(finish$), tap(...), mapTo(req), defaultIfEmpty(req))]. *)
Definition parseField_step (req : ReqRef) (st : PipeState)
    (t : Tick FieldEvent JsValue) (h : Store)
  : PipeState * Batch ReqRef * Store :=
  let '(stopped', taken) := takeUntil (stopped st) t in
  let '(tapped, h') := tap (assignField req) taken h in
  let mapped := mapTo req tapped in
  let '(isEmpty', out) := defaultIfEmpty req (isEmpty st) mapped in
  ({| stopped := stopped'; isEmpty := isEmpty' |}, out, h').

(** The pipe run over what [event$] and [finish$] deliver, in the order of
    delivery: the burst emitted at each tick, and the store at the end. *)
Fixpoint parseField_run (req : ReqRef) (st : PipeState)
    (ts : list (Tick FieldEvent JsValue)) (h : Store)
  : list (Batch ReqRef) * Store :=
  match ts with
  | [] => ([], h)
  | t :: ts' =>
      let '(st', out, h') := parseField_step req st t h in
      let '(outs, h'') := parseField_run req st' ts' h' in
      (out :: outs, h'')
  end.

Definition parseField (req : ReqRef)
    (ts : list (Tick FieldEvent JsValue)) (h : Store)
  : list (Batch ReqRef) * Store :=
  parseField_run req initial ts h.

(** *** Vocabulary for the statements about [parseField] *)

Definition fieldname (ev : FieldEvent) : string := ev.1.1.1.1.1.
Definition fieldvalue (ev : FieldEvent) : JsValue := ev.1.1.1.1.2.

(** The ticks that leave the pipe running: a field event, or the
    completion of [finish$]. *)
Definition keeps_running (t : Tick FieldEvent JsValue) : bool :=
  match t with
  | FromSource (Next _) | FromNotifier Complete => true
  | _ => false
  end.

(** The ticks that complete the pipe: the completion signal fires, or the
    field stream completes. *)
Definition completes (t : Tick FieldEvent JsValue) : bool :=
  match t with
  | FromNotifier (Next _) | FromSource Complete => true
  | _ => false
  end.

(** The field events among some ticks. *)
Definition received (ts : list (Tick FieldEvent JsValue)) : list FieldEvent :=
  ts ≫= (fun t => match t with FromSource (Next ev) => [ev] | _ => [] end).

(** The fields of some events written into an object in order. *)
Definition accumulate (evs : list FieldEvent) (props : gmap string JsValue)
  : gmap string JsValue :=
  foldl (fun m ev => <[fieldname ev := fieldvalue ev]> m) props evs.

(** The value of the last event named [name]. *)
Definition latest (name : string) (evs : list FieldEvent) : option JsValue :=
  foldl (fun acc ev =>
           if decide (fieldname ev = name) then Some (fieldvalue ev) else acc)
        None evs.

(** The own properties of [req.body] in a store. *)
Definition body_props (req : ReqRef) (h : Store) : option (gmap string JsValue) :=
  match h !! req with
  | Some {| body := BObject props |} => Some props
  | _ => None
  end.

(** What the pipe emits at a tick that leaves it running. *)
Definition emitted_while_running (req : ReqRef) (t : Tick FieldEvent JsValue)
  : Batch ReqRef :=
  match t with FromSource (Next _) => [Next req] | _ => [] end.

(** The reading of the interface description: over the whole run the
    request is produced one time, in the burst that ends the run. *)
Definition produced_on_completion (req : ReqRef) (outs : list (Batch ReqRef))
  : Prop :=
  ∃ before, outs = before ++ [[Next req; Complete]] ∧ concat before = [].

(** *** A sample upload: the request [1] without a body, the fields
    [name] and [age], the completion signal. *)

Definition sample_store : Store := {[ 1%positive := {| body := BUndefined |} ]}.
Definition field_name : FieldEvent :=
  ("name"%string, JString "marble", false, false, "7bit"%string, "text/plain"%string).
Definition field_age : FieldEvent :=
  ("age"%string, JNumber 3, false, false, "7bit"%string, "text/plain"%string).
Definition finish : Tick FieldEvent JsValue := FromNotifier (Next JUndefined).

(** *** Any run of the pipe *)

(** The field events the pipe lets through: those that arrive before the
    first tick that ends it. *)
Fixpoint accepted (ts : list (Tick FieldEvent JsValue)) : list FieldEvent :=
  match ts with
  | [] => []
  | FromSource (Next ev) :: ts' => ev :: accepted ts'
  | FromNotifier Complete :: ts' => accepted ts'
  | _ :: _ => []
  end.

(** How a run ends, if it does: [Some None] by completion, [Some (Some e)]
    by the error [e] of the field stream or of the completion signal. *)
Fixpoint outcome (ts : list (Tick FieldEvent JsValue)) : option (option JsError) :=
  match ts with
  | [] => None
  | FromSource (Next _) :: ts' | FromNotifier Complete :: ts' => outcome ts'
  | FromSource Complete :: _ | FromNotifier (Next _) :: _ => Some None
  | FromSource (Error e) :: _ | FromNotifier (Error e) :: _ => Some (Some e)
  end.

(** The field events as ticks. *)
Definition fields (evs : list FieldEvent) : list (Tick FieldEvent JsValue) :=
  (fun ev => FromSource (Next ev)) <$> evs.

(** What [req.body[name]] reads in a store: nothing when the request has
    no body object or the body has no such property. *)
Definition property (req : ReqRef) (name : string) (h : Store) : option JsValue :=
  body_props req h ≫= (fun props => props !! name).

End Multipart.

(* ===================================================================== *)
(** ** http.listener.ts *)
(* ===================================================================== *)

Module Http.

(** The member of the enumeration [HttpStatus] ([http.interface]) the
    listener names, among the others. *)
Inductive HttpStatus : Type :=
| OK
| BAD_REQUEST
| NOT_FOUND
| INTERNAL_SERVER_ERROR.

Abbreviation ReqRef := positive.
Abbreviation ResRef := positive.

(** A route's [Subject<HttpRequest>], as [resolve] returns it. *)
Abbreviation SubjectId := positive.

(** The value of [handleResponse(marbleRes)(marbleReq)]: the capability to
    write to that response on behalf of that request. *)
Inductive Send : Type :=
| handleResponse (res : ResRef) (req : ReqRef).

(** [HttpRequest]: the incoming message with its [response] property,
    unset until the listener has seen the request. *)
Record HttpRequest : Type := {
  method : string;
  url : string;
  response : option ResRef;
}.

(** [HttpResponse]: the outgoing message with its [send] property. *)
Record HttpResponse : Type := { send : option Send }.

(** The objects the transport hands to the listener.  What the handler
    makes itself, the function [handleResponse] returns and the literal of
    the not-found event, are values here, recorded in the trace. *)
Record Heap : Type := {
  requests : gmap ReqRef HttpRequest;
  responses : gmap ResRef HttpResponse;
}.

(** [{ status }], the effect response of the not-found event. *)
Record HttpEffectResponse : Type := { status : HttpStatus }.

(** What the handler does, in order. *)
Inductive Action : Type :=
| AssignSend (res : ResRef) (s : Send)
| AssignResponse (req : ReqRef) (res : ResRef)
| Resolve (req : ReqRef)
| SubjectNext (subject : SubjectId) (req : ReqRef)
| OutputSubjectNext (req : ReqRef) (res : HttpEffectResponse).

Record World : Type := { heap : Heap; trace : list Action }.

Definition log (a : Action) (w : World) : World :=
  {| heap := heap w; trace := trace w ++ [a] |}.

(** [marbleRes.send = s] *)
Definition set_send (res : ResRef) (s : Send) (w : World) : World :=
  log (AssignSend res s)
    {| heap := {| requests := requests (heap w);
                  responses := alter (fun _ => {| send := Some s |}) res
                                 (responses (heap w)) |};
       trace := trace w |}.

(** [marbleReq.response = res] *)
Definition set_response (req : ReqRef) (res : ResRef) (w : World) : World :=
  log (AssignResponse req res)
    {| heap := {| requests :=
                    alter (fun r => {| method := method r; url := url r;
                                       response := Some res |}) req
                      (requests (heap w));
                  responses := responses (heap w) |};
       trace := trace w |}.

Section Listener.

(** [resolve], one of the two results of [resolveRouting(routing,
    effectContext)(middleware$, output$, error$)]; the other one,
    [outputSubject], is the target of [OutputSubjectNext].  It reads the
    request object it is given and answers with the subject of the
    matching route, or with [undefined]. *)
Variable resolve : Heap -> ReqRef -> option SubjectId.

(** [const httpServer = (req, res) => { ... }] *)
Definition httpServer (req : ReqRef) (res : ResRef) (w : World) : World :=
  let marbleReq := req in
  let marbleRes := res in
  let w := set_send marbleRes (handleResponse marbleRes marbleReq) w in
  let w := set_response marbleReq marbleRes w in
  let subject := resolve (heap w) marbleReq in
  let w := log (Resolve marbleReq) w in
  match subject with
  | Some subject => log (SubjectNext subject marbleReq) w
  | None =>
      log (OutputSubjectNext marbleReq {| status := NOT_FOUND |}) w
  end.

End Listener.

(** The stages a value pushed into a subject runs through. *)
Inductive Stage : Type :=
| MiddlewareChain
| RouteEffect (subject : SubjectId)
| OutputStage.

(** Modelled from the spec: the subscribers that [resolveRouting]
    ([router/router.resolver.v2], not among the sources) attaches to the
    subjects.  A request pushed into a route's subject runs through the
    combined middleware chain, then the matched effect, then the output
    stage; an event pushed into the output subject runs through the output
    stage alone. *)
Definition invokes (a : Action) : list Stage :=
  match a with
  | SubjectNext subject _ => [MiddlewareChain; RouteEffect subject; OutputStage]
  | OutputSubjectNext _ _ => [OutputStage]
  | AssignSend _ _ | AssignResponse _ _ | Resolve _ => []
  end.

Definition invoked (t : list Action) : list Stage := t ≫= invokes.

(** The pushes into the output subject recorded in a trace. *)
Definition output_events (t : list Action) : list (ReqRef * HttpEffectResponse) :=
  t ≫= (fun a => match a with
                 | OutputSubjectNext req res => [(req, res)]
                 | _ => []
                 end).

(** The pushes into route subjects recorded in a trace. *)
Definition route_events (t : list Action) : list (SubjectId * ReqRef) :=
  t ≫= (fun a => match a with
                 | SubjectNext subject req => [(subject, req)]
                 | _ => []
                 end).

(** The heap once [send] and [response] are attached. *)
Definition attached (req : ReqRef) (res : ResRef) (h : Heap) : Heap :=
  {| requests :=
       alter (fun r => {| method := method r; url := url r;
                          response := Some res |}) req (requests h);
     responses :=
       alter (fun _ => {| send := Some (handleResponse res req) |}) res
         (responses h) |}.

(** *** A sample server: one route, [GET /], with the subject [7]; a
    request for [/nowhere] with its response. *)

Definition sample_resolve (h : Heap) (req : ReqRef) : option SubjectId :=
  match requests h !! req with
  | Some r =>
      if (String.eqb (method r) "GET" && String.eqb (url r) "/")%bool
      then Some 7%positive else None
  | None => None
  end.

Definition sample_world : World :=
  {| heap :=
       {| requests :=
            {[ 1%positive := {| method := "GET"; url := "/nowhere";
                                response := None |} ]};
          responses := {[ 2%positive := {| send := None |} ]} |};
     trace := [] |}.

(** *** One request after the other *)

(** The transport calls the handler once for each request it receives. *)
Definition serve (resolve : Heap -> ReqRef -> option SubjectId)
    (calls : list (ReqRef * ResRef)) (w : World) : World :=
  foldl (fun w call => httpServer resolve call.1 call.2 w) w calls.

(** The requests pushed into a subject, a route's or the output one. *)
Definition pushed_requests (t : list Action) : list ReqRef :=
  t ≫= (fun a => match a with
                 | SubjectNext _ req | OutputSubjectNext req _ => [req]
                 | _ => []
                 end).

(** A request for the route of the sample server, with its response. *)
Definition sample_root_world : World :=
  {| heap :=
       {| requests :=
            {[ 3%positive := {| method := "GET"; url := "/";
                                response := None |} ]};
          responses := {[ 4%positive := {| send := None |} ]} |};
     trace := [] |}.

End Http.

(* ===================================================================== *)
(** ** The WebSocket listener *)
(* ===================================================================== *)

Module WebSocket.
Import Js Rx.

(** [Event] of the core package: a type tag and a payload. *)
Record Event : Type := { type : string; payload : JsValue }.

(** [WS.WebSocketData], a frame as the socket delivers it. *)
Definition WebSocketData : Type := string.

(** A connected socket ([WS.MarbleWebSocketClient]), by reference. *)
Abbreviation ClientRef := positive.

(** The reader of the context, handed to the listener by [createListener]. *)
Definition ContextProvider : Type := string -> option JsValue.

(** [createEffectContext({ ask, client })] *)
Record EffectContext : Type := createEffectContext {
  ask : ContextProvider;
  client : option ClientRef;
}.

(** [EventTransformer]: [decode] may throw. *)
Record EventTransformer : Type := {
  decode : WebSocketData -> JsError + Event;
  encode : Event -> WebSocketData;
}.

(** The effect interfaces.  A middleware is applied to an observable
    derived from the subject of incoming frames, an effect to one derived
    from the subject of events; the admission effect is applied to a
    stream that depends on no subject. *)
Definition WsMiddlewareEffect : Type :=
  Observable WebSocketData Event -> EffectContext -> Observable WebSocketData Event.
Definition WsEffect : Type :=
  Observable Event Event -> EffectContext -> Observable Event Event.
Definition WsOutputEffect : Type :=
  Observable Event Event -> EffectContext -> Observable Event Event.
Definition WsConnectionEffect : Type :=
  Observable Empty_set JsValue -> EffectContext -> Observable Empty_set JsValue.

Record WebSocketListenerConfig (WsErrorEffect : Type) : Type := {
  cfg_effects : option (list WsEffect);
  cfg_middlewares : option (list WsMiddlewareEffect);
  cfg_error_ : option WsErrorEffect;
  cfg_eventTransformer : option EventTransformer;
  cfg_connection_ : option WsConnectionEffect;
  cfg_output_ : option WsOutputEffect;
}.
Arguments cfg_effects {_} _.
Arguments cfg_middlewares {_} _.
Arguments cfg_error_ {_} _.
Arguments cfg_eventTransformer {_} _.
Arguments cfg_connection_ {_} _.
Arguments cfg_output_ {_} _.

(** [info] of [verifyClient]: the upgrade request, an object. *)
Record VerifyInfo : Type := { origin : string; secure : bool; req : positive }.

(** One call of the callback of [verifyClient]:
    [callback(res, code?, message?)]; [None] is an argument left out or
    [undefined]. *)
Record VerifyCall : Type := callback {
  accepted : bool;
  code : option Z;
  reason : option string;
}.

(** The two pipelines of a connection. *)
Inductive Pipeline : Type := Inbound | Outbound.

(** The observables [handleMessage] builds and subscribes to. *)
Inductive Source : Type := Src_middlewares | Src_effectsOutput | Src_effects.

(** A [Subscription] to an observable derived from a [Subject<I>]: what it
    is subscribed to, the values the subject handed to it so far, and its
    [closed] flag.  [subscribed_to] names [source]. *)
Record Subscription (I : Type) : Type := {
  subscribed_to : Source;
  source : Observable I Event;
  history : list I;
  closed : bool;
}.
Arguments subscribed_to {I} _.
Arguments source {I} _.
Arguments history {I} _.
Arguments closed {I} _.

(** What a connection does, in order. *)
Inductive Action : Type :=
| Subscribe (p : Pipeline) (src : Source)
| IncomingEventSubjectNext (event : WebSocketData)
| EventSubjectNext (event : Event)
| SendResponse (event : Event)
| HandleEffectsError (p : Pipeline) (ctx : EffectContext) (error : JsError)
| RemoveMessageListener
| Unsubscribe (p : Pipeline).

(** The variables [handleMessage] closes over for one client, the
    listeners it registered on the client, and the trace. *)
Record Connection : Type := {
  middlewaresSub : Subscription WebSocketData;
  effectsSub : Subscription Event;
  message_listener : bool;
  close_listener : bool;
  trace : list Action;
}.

Definition log (a : Action) (c : Connection) : Connection :=
  {| middlewaresSub := middlewaresSub c; effectsSub := effectsSub c;
     message_listener := message_listener c;
     close_listener := close_listener c; trace := trace c ++ [a] |}.

Definition set_middlewaresSub (s : Subscription WebSocketData)
    (c : Connection) : Connection :=
  {| middlewaresSub := s; effectsSub := effectsSub c;
     message_listener := message_listener c;
     close_listener := close_listener c; trace := trace c |}.

Definition set_effectsSub (s : Subscription Event) (c : Connection)
  : Connection :=
  {| middlewaresSub := middlewaresSub c; effectsSub := s;
     message_listener := message_listener c;
     close_listener := close_listener c; trace := trace c |}.

Definition set_message_listener (b : bool) (c : Connection) : Connection :=
  {| middlewaresSub := middlewaresSub c; effectsSub := effectsSub c;
     message_listener := b;
     close_listener := close_listener c; trace := trace c |}.

Definition set_close_listener (b : bool) (c : Connection) : Connection :=
  {| middlewaresSub := middlewaresSub c; effectsSub := effectsSub c;
     message_listener := message_listener c;
     close_listener := b; trace := trace c |}.

(** A subscription after one more value of its subject. *)
Definition record_input {I} (i : I) (s : Subscription I) : Subscription I :=
  {| subscribed_to := subscribed_to s; source := source s;
     history := history s ++ [i]; closed := closed s |}.

(** [subscription.unsubscribe()], and what an error or a completion does
    to the subscription. *)
Definition close {I} (s : Subscription I) : Subscription I :=
  {| subscribed_to := subscribed_to s; source := source s;
     history := history s; closed := true |}.

(** No observer yet: the state of a subject before the first
    [subscribe]. *)
Definition unsubscribed {I} (src : Source) (o : Observable I Event)
  : Subscription I :=
  {| subscribed_to := src; source := o; history := []; closed := true |}.

Section Listener.

Variable WsErrorEffect : Type.

(** The arguments of [createListener]'s callback. *)
Variable config : option (WebSocketListenerConfig WsErrorEffect).
Variable ask : ContextProvider.

(** [combineMiddlewares], [combineEffects] of the core package and the
    default transformer, [jsonTransformer]. *)
Variable combineMiddlewares : list WsMiddlewareEffect -> WsMiddlewareEffect.
Variable combineEffects : list WsEffect -> WsEffect.
Variable jsonTransformer : EventTransformer.

(** The destructuring of [config ?? {}] with its defaults. *)
Definition error_ : option WsErrorEffect := config ≫= cfg_error_.
Definition effects : list WsEffect := default [] (config ≫= cfg_effects).
Definition middlewares : list WsMiddlewareEffect :=
  default [] (config ≫= cfg_middlewares).
Definition eventTransformer : option EventTransformer :=
  config ≫= cfg_eventTransformer.
Definition connection_ : WsConnectionEffect :=
  default (fun req_ _ => req_) (config ≫= cfg_connection_).
Definition output_ : WsOutputEffect :=
  default (fun out_ _ => out_) (config ≫= cfg_output_).

Definition combinedMiddlewares : WsMiddlewareEffect :=
  combineMiddlewares middlewares.
Definition combinedEffects : WsEffect := combineEffects effects.

(** [eventTransformer || jsonTransformer] *)
Definition providedTransformer : EventTransformer :=
  default jsonTransformer eventTransformer.

Section Client.

(** The client [handleMessage] is called with. *)
Variable client : ClientRef.

(** [eventSubject$] and [incomingEventSubject$] are the subjects the
    observables below are derived from. *)
Definition ctx : EffectContext := createEffectContext ask (Some client).
Definition decodedEvent_ : Observable WebSocketData Event :=
  map (decode providedTransformer) asObservable.
Definition middlewares_ : Observable WebSocketData Event :=
  combinedMiddlewares decodedEvent_ ctx.
Definition effects_ : Observable Event Event :=
  combinedEffects asObservable ctx.
Definition effectsOutput_ : Observable Event Event :=
  output_ effects_ ctx.

(** [handleEffectsError(ctx, providedError$)(error)], the error
    callback of both subscribers.  [providedError$] is the same for
    every call; the pipeline is recorded for the proofs only. *)
Definition handleEffectsError (p : Pipeline) (error : JsError)
    (c : Connection) : Connection :=
  log (HandleEffectsError p ctx error) c.

(** [client.sendResponse(event)] *)
Definition sendResponse (event : Event) (c : Connection) : Connection :=
  log (SendResponse event) c.

(** [eventSubject$.next(event)]: the observer of the subject, if there
    is one, is the open subscription of the outbound pipeline. *)
Definition eventSubject_next (event : Event) (c : Connection) : Connection :=
  let c := log (EventSubjectNext event) c in
  let sub := effectsSub c in
  if closed sub then c
  else
    let burst := on_next (source sub) (history sub) event in
    let c := set_effectsSub (record_input event sub) c in
    let '(c, terminated) :=
      notify sendResponse (handleEffectsError Outbound) burst c in
    if terminated then set_effectsSub (close (effectsSub c)) c else c.

(** [incomingEventSubject$.next(event)], likewise for the inbound
    pipeline. *)
Definition incomingEventSubject_next (event : WebSocketData)
    (c : Connection) : Connection :=
  let c := log (IncomingEventSubjectNext event) c in
  let sub := middlewaresSub c in
  if closed sub then c
  else
    let burst := on_next (source sub) (history sub) event in
    let c := set_middlewaresSub (record_input event sub) c in
    let '(c, terminated) :=
      notify eventSubject_next (handleEffectsError Inbound) burst c in
    if terminated then set_middlewaresSub (close (middlewaresSub c)) c
    else c.

(** [const subscribeMiddlewares = input$ => input$.subscribe(
      event => eventSubject$.next(event),
      error => handleEffectsError(ctx, providedError$)(error))] *)
Definition subscribeMiddlewares (src : Source)
    (input_ : Observable WebSocketData Event) (c : Connection)
  : Connection * Subscription WebSocketData :=
  let c := log (Subscribe Inbound src) c in
  let '(c, terminated) :=
    notify eventSubject_next (handleEffectsError Inbound)
      (on_subscribe input_) c in
  (c, {| subscribed_to := src; source := input_; history := [];
         closed := terminated |}).

(** [const subscribeEffects = input$ => input$.subscribe(
      event => client.sendResponse(event),
      error => handleEffectsError(ctx, providedError$)(error))] *)
Definition subscribeEffects (src : Source)
    (input_ : Observable Event Event) (c : Connection)
  : Connection * Subscription Event :=
  let c := log (Subscribe Outbound src) c in
  let '(c, terminated) :=
    notify sendResponse (handleEffectsError Outbound)
      (on_subscribe input_) c in
  (c, {| subscribed_to := src; source := input_; history := [];
         closed := terminated |}).

(** [const onMessage = (event) => { ... }] *)
Definition onMessage (event : WebSocketData) (c : Connection) : Connection :=
  let c :=
    if closed (middlewaresSub c)
    then let '(c, sub) := subscribeMiddlewares Src_middlewares middlewares_ c in
         set_middlewaresSub sub c
    else c in
  let c :=
    if closed (effectsSub c)
    then let '(c, sub) := subscribeEffects Src_effects effects_ c in
         set_effectsSub sub c
    else c in
  incomingEventSubject_next event c.

(** [const onClose = () => { ... }] *)
Definition onClose (c : Connection) : Connection :=
  let c := set_message_listener false (log RemoveMessageListener c) in
  let c := set_middlewaresSub (close (middlewaresSub c))
             (log (Unsubscribe Inbound) c) in
  set_effectsSub (close (effectsSub c)) (log (Unsubscribe Outbound) c).

(** [const handleMessage = client => { ... }]: the connection as it
    stands when the function returns. *)
Definition handleMessage : Connection :=
  let c := {| middlewaresSub := unsubscribed Src_middlewares middlewares_;
              effectsSub := unsubscribed Src_effectsOutput effectsOutput_;
              message_listener := false; close_listener := false;
              trace := [] |} in
  let '(c, sub) := subscribeMiddlewares Src_middlewares middlewares_ c in
  let c := set_middlewaresSub sub c in
  let '(c, sub) := subscribeEffects Src_effectsOutput effectsOutput_ c in
  let c := set_effectsSub sub c in
  let c := set_message_listener true c in
  set_close_listener true c.

(** The socket emits ['message']: the listener runs if it is still
    registered. *)
Definition emit_message (event : WebSocketData) (c : Connection) : Connection :=
  if message_listener c then onMessage event c else c.

(** The socket emits ['close']: a listener registered with [once] is
    removed before it runs. *)
Definition emit_close (c : Connection) : Connection :=
  if close_listener c then onClose (set_close_listener false c) else c.

End Client.

(** [const verifyClient = (info, callback) => { ... }]: the calls of
    [callback], in order. *)
Definition verifyClient (info : VerifyInfo) : list VerifyCall :=
  let result_ :=
    map (total Boolean)
      (connection_ (rx_of (JObject (req info)))
         (createEffectContext ask None)) in
  fst (notify
         (fun isVerified calls => calls ++ [callback isVerified None None])
         (fun error calls =>
            calls ++ [callback false (error_status error) (error_message error)])
         (on_subscribe result_) []).

End Listener.

(** Modelled from the spec: [combineMiddlewares] and [combineEffects]
    (core package, not among the sources).  The stages are applied from
    left to right, the output of one being the input of the next; no stage
    at all is the identity. *)
Definition combine {I}
    (stages : list (Observable I Event → EffectContext → Observable I Event))
  : Observable I Event → EffectContext → Observable I Event :=
  fun input_ ctx => foldl (fun o stage => stage o ctx) input_ stages.

(** *** Vocabulary for the statements about connections *)

Definition is_error_report (p : Pipeline) (a : Action) : bool :=
  match a, p with
  | HandleEffectsError Inbound _ _, Inbound
  | HandleEffectsError Outbound _ _, Outbound => true
  | _, _ => false
  end.

Definition is_subscribe (p : Pipeline) (a : Action) : bool :=
  match a, p with
  | Subscribe Inbound _, Inbound | Subscribe Outbound _, Outbound => true
  | _, _ => false
  end.

(** The actions of [onClose]. *)
Definition is_closing (a : Action) : bool :=
  match a with
  | RemoveMessageListener | Unsubscribe _ => true
  | _ => false
  end.

Definition count (f : Action → bool) (t : list Action) : nat :=
  length (List.filter f t).

(** [1] for an open subscription of the pipeline, [0] for a closed one. *)
Definition open (p : Pipeline) (c : Connection) : nat :=
  match p with
  | Inbound => if closed (middlewaresSub c) then 0 else 1
  | Outbound => if closed (effectsSub c) then 0 else 1
  end.

(** The error reports and the subscriptions of a pipeline, and the
    actions of [onClose], in the trace of a connection. *)
Definition errors (p : Pipeline) (c : Connection) : nat :=
  count (is_error_report p) (trace c).
Definition subscriptions (p : Pipeline) (c : Connection) : nat :=
  count (is_subscribe p) (trace c).
Definition closings (c : Connection) : nat := count is_closing (trace c).

(** A step that leaves the connection up: the listeners stay as they
    are, the trace grows, by no action of [onClose]. *)
Definition quiet (c c' : Connection) : Prop :=
  message_listener c' = message_listener c
  ∧ close_listener c' = close_listener c
  ∧ (∃ t, trace c' = trace c ++ t)
  ∧ closings c' = closings c.

(** A step that only writes to the socket. *)
Definition writes_only (c c' : Connection) : Prop :=
  quiet c c'
  ∧ middlewaresSub c' = middlewaresSub c
  ∧ effectsSub c' = effectsSub c
  ∧ (∀ p, subscriptions p c' = subscriptions p c)
  ∧ (∀ p, errors p c' = errors p c).

(** A step of the outbound pipeline alone: it subscribes to nothing, and
    it reports an error only by giving up its open subscription. *)
Definition outbound_only (c c' : Connection) : Prop :=
  quiet c c'
  ∧ middlewaresSub c' = middlewaresSub c
  ∧ (∀ p, subscriptions p c' = subscriptions p c)
  ∧ errors Inbound c' = errors Inbound c
  ∧ errors Outbound c' + open Outbound c' ≤ errors Outbound c + open Outbound c
  ∧ open Outbound c' ≤ open Outbound c
  ∧ source (effectsSub c') = source (effectsSub c)
  ∧ subscribed_to (effectsSub c') = subscribed_to (effectsSub c).

(** A step that delivers to the subscriptions there are: either pipeline
    reports an error only by giving up its open subscription. *)
Definition delivers (c c' : Connection) : Prop :=
  quiet c c'
  ∧ (∀ p, subscriptions p c' = subscriptions p c)
  ∧ (∀ p, errors p c' + open p c' ≤ errors p c + open p c)
  ∧ (∀ p, open p c' ≤ open p c)
  ∧ source (effectsSub c') = source (effectsSub c)
  ∧ subscribed_to (effectsSub c') = subscribed_to (effectsSub c).

(** A step of [onMessage]: a pipeline reports an error only by giving up
    a subscription, the open one or one made in this step. *)
Definition serves (c c' : Connection) : Prop :=
  quiet c c'
  ∧ (∀ p, subscriptions p c ≤ subscriptions p c')
  ∧ (∀ p, errors p c' + open p c' + subscriptions p c
          ≤ errors p c + open p c + subscriptions p c').

(** The events written to the socket. *)
Definition sent (t : list Action) : list Event :=
  t ≫= (fun a => match a with SendResponse event => [event] | _ => [] end).

(** The frames pushed into [incomingEventSubject$]. *)
Definition forwarded (t : list Action) : list WebSocketData :=
  t ≫= (fun a => match a with
                 | IncomingEventSubjectNext event => [event]
                 | _ => []
                 end).

(** *** A sample listener: a transformer of plain text, one effect that
    echoes every event and fails on the event [boom], an output effect that
    stamps what it passes, the default admission. *)

Module Sample.

(** The transformer the sample listener is configured with, a protocol of
    plain text: a frame is the type of its event, and the empty frame is
    refused. *)
Definition plain : EventTransformer :=
  {| decode := fun data =>
       if String.eqb data ""
       then inl (OtherError "empty frame")
       else inr {| type := data; payload := JNull |};
     encode := type |}.

(** In the place of the default transformer, which parses JSON and is not
    among the sources: the frames of the samples are plain text, no JSON,
    and are refused.  The sample listener configures [plain], so that the
    default is not consulted by it. *)
Definition json : EventTransformer :=
  {| decode := fun _ => inl (OtherError "Unexpected token in JSON");
     encode := type |}.

Definition echo : WsEffect :=
  fun event_ _ =>
    map (fun e => if String.eqb (type e) "boom"
                  then inl (OtherError "boom") else inr e) event_.

Definition stamp : WsOutputEffect :=
  fun out_ _ =>
    map (total (fun e => {| type := String.append "out:" (type e);
                            payload := payload e |})) out_.

Definition config : WebSocketListenerConfig unit :=
  {| cfg_effects := Some [echo]; cfg_middlewares := None;
     cfg_error_ := None; cfg_eventTransformer := Some plain;
     cfg_connection_ := None; cfg_output_ := Some stamp |}.

Definition ask : ContextProvider := fun _ => None.

(** An effect and a middleware that fail as they are subscribed to, and a
    listener made of them. *)
Definition down : WsEffect :=
  fun _ _ => {| on_subscribe := [Error (OtherError "down")];
                on_next := fun _ _ => [] |}.

Definition barred : WsMiddlewareEffect :=
  fun _ _ => {| on_subscribe := [Error (OtherError "barred")];
                on_next := fun _ _ => [] |}.

Definition failing : WebSocketListenerConfig unit :=
  {| cfg_effects := Some [down]; cfg_middlewares := Some [barred];
     cfg_error_ := None; cfg_eventTransformer := Some plain;
     cfg_connection_ := None; cfg_output_ := None |}.

(** The connection of a client that has just been accepted. *)
Definition connect (client : ClientRef) : Connection :=
  handleMessage unit (Some config) ask combine combine json client.

Definition message (client : ClientRef) (event : WebSocketData)
    (c : Connection) : Connection :=
  emit_message unit (Some config) ask combine combine json client event c.

(** An admission effect that answers [false], one that throws. *)
Definition deny : WsConnectionEffect :=
  fun req_ _ => map (total (fun _ => JBool false)) req_.

Definition reject : WsConnectionEffect :=
  fun _ _ =>
    {| on_subscribe := [Error (WebSocketConnectionError "Unauthorized" 4001)];
       on_next := fun _ _ => [] |}.

Definition with_admission (connection_ : WsConnectionEffect)
  : WebSocketListenerConfig unit :=
  {| cfg_effects := None; cfg_middlewares := None;
     cfg_error_ := None; cfg_eventTransformer := None;
     cfg_connection_ := Some connection_; cfg_output_ := None |}.

Definition upgrade : VerifyInfo :=
  {| origin := "http://localhost"; secure := false; req := 5%positive |}.

Definition boom : Event := {| type := "boom"; payload := JNull |}.
Definition ping : Event := {| type := "ping"; payload := JNull |}.
Definition stamped_ping : Event := {| type := "out:ping"; payload := JNull |}.

End Sample.

(** *** More vocabulary: what a trace holds, what follows the close event,
    the options of the server *)

(** The events pushed into [eventSubject$]. *)
Definition pushed (t : list Action) : list Event :=
  t ≫= (fun a => match a with EventSubjectNext event => [event] | _ => [] end).

(** The report of the error that ended a burst, if one did. *)
Definition reports (p : Pipeline) (ctx : EffectContext) (error : option JsError)
  : list Action :=
  match error with
  | Some e => [HandleEffectsError p ctx e]
  | None => []
  end.

(** The actions of a delivery: pushes into [eventSubject$], writes to the
    socket, error reports. *)
Definition is_delivery_action (a : Action) : bool :=
  match a with
  | EventSubjectNext _ | SendResponse _ | HandleEffectsError _ _ _ => true
  | _ => false
  end.

(** The actions other than pushing a frame into [incomingEventSubject$]. *)
Definition is_not_forward (a : Action) : bool :=
  match a with
  | IncomingEventSubjectNext _ => false
  | _ => true
  end.

(** The trace grows by actions that satisfy [P]. *)
Definition grows (P : Action → bool) (c c' : Connection) : Prop :=
  ∃ t, trace c' = trace c ++ t ∧ forallb P t = true.

(** What a socket emits after the handshake. *)
Inductive Signal : Type :=
| MessageSignal (event : WebSocketData)
| CloseSignal.

(** The options of the server.  [OptVerifyClient] holds a function in the
    place of [verifyClient], by the calls it makes of its callback. *)
Inductive ServerOption : Type :=
| OptUndefined
| OptBool (b : bool)
| OptNumber (n : Z)
| OptString (s : string)
| OptVerifyClient (verify : VerifyInfo → list VerifyCall).

Section Server.

Variable WsErrorEffect : Type.
Variable config : option (WebSocketListenerConfig WsErrorEffect).
Variable ask : ContextProvider.
Variable combineMiddlewares : list WsMiddlewareEffect → WsMiddlewareEffect.
Variable combineEffects : list WsEffect → WsEffect.
Variable jsonTransformer : EventTransformer.

(** The client emits a signal. *)
Definition emit (client : ClientRef) (s : Signal) (c : Connection) : Connection :=
  match s with
  | MessageSignal event =>
      emit_message WsErrorEffect config ask combineMiddlewares combineEffects
        jsonTransformer client event c
  | CloseSignal => emit_close c
  end.

(** [(serverOptions = {}) => ... createWebSocketServer({ noServer: true,
    verifyClient, ...serverOptions })]: the object the server is created
    with, by own property. *)
Definition webSocketServerOptions (serverOptions : option (gmap string ServerOption))
  : gmap string ServerOption :=
  default ∅ serverOptions
    ∪ {[ "noServer"%string := OptBool true;
         "verifyClient"%string :=
           OptVerifyClient (verifyClient WsErrorEffect config ask) ]}.

End Server.

End WebSocket.

(* ===================================================================== *)
(** ** The WebSocket listener: the connections of one server *)
(* ===================================================================== *)

(** The listener is one closure, and every connection is an activation of
    its [handleMessage].  [WebSocket] above has the activation as its own
    closures see it.  Here the objects that the activations make, the
    subjects of [new Subject()], the subscriptions of [subscribe] and the
    variables of [let], live in one heap and are referred to by reference:
    a subject hands a value to whatever observes it, and a listener runs
    on whatever it closes over.  That no activation reaches the objects of
    another one is then a property of what [handleMessage] does, to be
    proved, and not of the shape of the state.

    What the activations share stays shared: [combinedMiddlewares],
    [combinedEffects], the transformer and [ask] are the values of the
    listener, the same for every activation.  Effects and middlewares are
    functions of their input stream and their context, as in [WebSocket]:
    an effect that keeps a state of its own across connections is outside
    this model, and so is [sendBroadcastResponse], which [handleConnection]
    attaches to the client and the listener never calls. *)

Module WebSocketServer.
Import Js Rx WebSocket.

Abbreviation Ref := positive.

(** What an activation of [handleMessage] binds with [const]: its client,
    [eventSubject$] and [incomingEventSubject$].  The context [ctx] is
    [createEffectContext({ ask, client })]. *)
Record Scope : Type := {
  client : ClientRef;
  eventSubject : Ref;
  incomingEventSubject : Ref;
}.

(** A subscription as a subject holds it among its observers: with the
    activation whose closures its callbacks are. *)
Record Subscriber (I : Type) : Type := {
  subscription : Subscription I;
  scope : Ref;
}.
Arguments subscription {I} _.
Arguments scope {I} _.

Definition over {I} (f : Subscription I -> Subscription I) (o : Subscriber I)
  : Subscriber I :=
  {| subscription := f (subscription o); scope := scope o |}.

(** The heap of a server.
    - [fresh]: the next reference [new] and [subscribe] hand out;
    - [scopes]: the activations of [handleMessage];
    - [observers]: the subjects, each with the subscriptions that observe
      it, in the order in which they subscribed (a closed subscription is
      kept and skipped, where RxJS removes it);
    - [inbound], [outbound]: the subscriptions made by
      [subscribeMiddlewares] and by [subscribeEffects];
    - [middlewaresSub], [effectsSub]: the variables of that name, one for
      each activation that has assigned it;
    - [message_listeners], [close_listeners]: the listeners registered on
      each client, by the activation they belong to;
    - [trace]: what has been done, with the activation that did it. *)
Record Server : Type := {
  fresh : Ref;
  scopes : gmap Ref Scope;
  observers : gmap Ref (list Ref);
  inbound : gmap Ref (Subscriber WebSocketData);
  outbound : gmap Ref (Subscriber Event);
  middlewaresSub : gmap Ref Ref;
  effectsSub : gmap Ref Ref;
  message_listeners : gmap ClientRef (list Ref);
  close_listeners : gmap ClientRef (list Ref);
  trace : list (Ref * Action);
}.

(** A server before the first connection. *)
Definition initial : Server :=
  {| fresh := 1%positive; scopes := ∅; observers := ∅; inbound := ∅;
     outbound := ∅; middlewaresSub := ∅; effectsSub := ∅;
     message_listeners := ∅; close_listeners := ∅; trace := [] |}.

Definition set_fresh (x : Ref) (s : Server) : Server :=
  {| fresh := x; scopes := scopes s; observers := observers s;
     inbound := inbound s; outbound := outbound s;
     middlewaresSub := middlewaresSub s; effectsSub := effectsSub s;
     message_listeners := message_listeners s;
     close_listeners := close_listeners s; trace := trace s |}.

Definition set_scopes (x : gmap Ref Scope) (s : Server) : Server :=
  {| fresh := fresh s; scopes := x; observers := observers s;
     inbound := inbound s; outbound := outbound s;
     middlewaresSub := middlewaresSub s; effectsSub := effectsSub s;
     message_listeners := message_listeners s;
     close_listeners := close_listeners s; trace := trace s |}.

Definition set_observers (x : gmap Ref (list Ref)) (s : Server) : Server :=
  {| fresh := fresh s; scopes := scopes s; observers := x;
     inbound := inbound s; outbound := outbound s;
     middlewaresSub := middlewaresSub s; effectsSub := effectsSub s;
     message_listeners := message_listeners s;
     close_listeners := close_listeners s; trace := trace s |}.

Definition set_inbound (x : gmap Ref (Subscriber WebSocketData)) (s : Server)
  : Server :=
  {| fresh := fresh s; scopes := scopes s; observers := observers s;
     inbound := x; outbound := outbound s;
     middlewaresSub := middlewaresSub s; effectsSub := effectsSub s;
     message_listeners := message_listeners s;
     close_listeners := close_listeners s; trace := trace s |}.

Definition set_outbound (x : gmap Ref (Subscriber Event)) (s : Server) : Server :=
  {| fresh := fresh s; scopes := scopes s; observers := observers s;
     inbound := inbound s; outbound := x;
     middlewaresSub := middlewaresSub s; effectsSub := effectsSub s;
     message_listeners := message_listeners s;
     close_listeners := close_listeners s; trace := trace s |}.

Definition set_middlewaresSub (x : gmap Ref Ref) (s : Server) : Server :=
  {| fresh := fresh s; scopes := scopes s; observers := observers s;
     inbound := inbound s; outbound := outbound s;
     middlewaresSub := x; effectsSub := effectsSub s;
     message_listeners := message_listeners s;
     close_listeners := close_listeners s; trace := trace s |}.

Definition set_effectsSub (x : gmap Ref Ref) (s : Server) : Server :=
  {| fresh := fresh s; scopes := scopes s; observers := observers s;
     inbound := inbound s; outbound := outbound s;
     middlewaresSub := middlewaresSub s; effectsSub := x;
     message_listeners := message_listeners s;
     close_listeners := close_listeners s; trace := trace s |}.

Definition set_message_listeners (x : gmap ClientRef (list Ref)) (s : Server)
  : Server :=
  {| fresh := fresh s; scopes := scopes s; observers := observers s;
     inbound := inbound s; outbound := outbound s;
     middlewaresSub := middlewaresSub s; effectsSub := effectsSub s;
     message_listeners := x;
     close_listeners := close_listeners s; trace := trace s |}.

Definition set_close_listeners (x : gmap ClientRef (list Ref)) (s : Server)
  : Server :=
  {| fresh := fresh s; scopes := scopes s; observers := observers s;
     inbound := inbound s; outbound := outbound s;
     middlewaresSub := middlewaresSub s; effectsSub := effectsSub s;
     message_listeners := message_listeners s;
     close_listeners := x; trace := trace s |}.

(** The activation [k] does [a]. *)
Definition log (k : Ref) (a : Action) (s : Server) : Server :=
  {| fresh := fresh s; scopes := scopes s; observers := observers s;
     inbound := inbound s; outbound := outbound s;
     middlewaresSub := middlewaresSub s; effectsSub := effectsSub s;
     message_listeners := message_listeners s;
     close_listeners := close_listeners s; trace := trace s ++ [(k, a)] |}.

(** [subject.observers.push(subscriber)] *)
Definition observe (subject r : Ref) (s : Server) : Server :=
  set_observers (<[subject := (observers s !!! subject) ++ [r]]> (observers s)) s.

(** [middlewaresSub.closed] and [effectsSub.closed], read by the
    activation [k]. *)
Definition middlewaresSub_closed (k : Ref) (s : Server) : bool :=
  match middlewaresSub s !! k ≫= (fun r => inbound s !! r) with
  | Some o => closed (subscription o)
  | None => false
  end.

Definition effectsSub_closed (k : Ref) (s : Server) : bool :=
  match effectsSub s !! k ≫= (fun r => outbound s !! r) with
  | Some o => closed (subscription o)
  | None => false
  end.

(** [middlewaresSub.unsubscribe()] and [effectsSub.unsubscribe()] *)
Definition middlewaresSub_unsubscribe (k : Ref) (s : Server) : Server :=
  match middlewaresSub s !! k with
  | Some r => set_inbound (alter (over close) r (inbound s)) s
  | None => s
  end.

Definition effectsSub_unsubscribe (k : Ref) (s : Server) : Server :=
  match effectsSub s !! k with
  | Some r => set_outbound (alter (over close) r (outbound s)) s
  | None => s
  end.

(** What the sockets of a server do. *)
Inductive SocketEvent : Type :=
| OnConnection (a : ClientRef)
| OnMessage (a : ClientRef) (event : WebSocketData)
| OnClose (a : ClientRef).

Section Listener.

Variable WsErrorEffect : Type.
Variable config : option (WebSocketListenerConfig WsErrorEffect).
Variable ask : ContextProvider.
Variable combineMiddlewares : list WsMiddlewareEffect -> WsMiddlewareEffect.
Variable combineEffects : list WsEffect -> WsEffect.
Variable jsonTransformer : EventTransformer.

(** [handleEffectsError(ctx, providedError$)(error)] in the activation
    [k]. *)
Definition handleEffectsError (k : Ref) (p : Pipeline) (error : JsError)
    (s : Server) : Server :=
  match scopes s !! k with
  | Some sc => log k (HandleEffectsError p (ctx ask (client sc)) error) s
  | None => s
  end.

(** [client.sendResponse(event)] in the activation [k]. *)
Definition sendResponse (k : Ref) (event : Event) (s : Server) : Server :=
  log k (SendResponse event) s.

(** An observer of an [eventSubject$] is handed an event: the callbacks
    [subscribeEffects] gave it run on what its observable makes of the
    event. *)
Definition deliver_outbound (event : Event) (s : Server) (r : Ref) : Server :=
  match outbound s !! r with
  | Some o =>
      let sub := subscription o in
      if closed sub then s
      else
        let burst := on_next (source sub) (history sub) event in
        let s := set_outbound (alter (over (record_input event)) r (outbound s)) s in
        let '(s, terminated) :=
          notify (sendResponse (scope o)) (handleEffectsError (scope o) Outbound)
            burst s in
        if terminated then set_outbound (alter (over close) r (outbound s)) s
        else s
  | None => s
  end.

(** [subject.next(event)] on an [eventSubject$], called by the activation
    [k]: every observer of the subject is handed the event, in order. *)
Definition eventSubject_next (k subject : Ref) (event : Event) (s : Server)
  : Server :=
  let s := log k (EventSubjectNext event) s in
  foldl (deliver_outbound event) s (observers s !!! subject).

(** [event => eventSubject$.next(event)] in the activation [k]. *)
Definition push (k : Ref) (event : Event) (s : Server) : Server :=
  match scopes s !! k with
  | Some sc => eventSubject_next k (eventSubject sc) event s
  | None => s
  end.

(** An observer of an [incomingEventSubject$] is handed a frame. *)
Definition deliver_inbound (event : WebSocketData) (s : Server) (r : Ref)
  : Server :=
  match inbound s !! r with
  | Some o =>
      let sub := subscription o in
      if closed sub then s
      else
        let burst := on_next (source sub) (history sub) event in
        let s := set_inbound (alter (over (record_input event)) r (inbound s)) s in
        let '(s, terminated) :=
          notify (push (scope o)) (handleEffectsError (scope o) Inbound) burst s in
        if terminated then set_inbound (alter (over close) r (inbound s)) s
        else s
  | None => s
  end.

(** [subject.next(event)] on an [incomingEventSubject$]. *)
Definition incomingEventSubject_next (k subject : Ref) (event : WebSocketData)
    (s : Server) : Server :=
  let s := log k (IncomingEventSubjectNext event) s in
  foldl (deliver_inbound event) s (observers s !!! subject).

(** [subscribeMiddlewares(input$)] in the activation [k], where [input$]
    is derived from [subject]: the callbacks run on what the observable
    delivers at once, and the new subscription observes the subject. *)
Definition subscribeMiddlewares (k subject : Ref) (src : Source)
    (input_ : Observable WebSocketData Event) (s : Server) : Server * Ref :=
  let s := log k (Subscribe Inbound src) s in
  let '(s, terminated) :=
    notify (push k) (handleEffectsError k Inbound) (on_subscribe input_) s in
  let r := fresh s in
  let sub := {| subscribed_to := src; source := input_; history := [];
                closed := terminated |} in
  let s := set_inbound (<[r := {| subscription := sub; scope := k |}]> (inbound s))
             (set_fresh (Pos.succ r) s) in
  (observe subject r s, r).

(** [subscribeEffects(input$)], likewise. *)
Definition subscribeEffects (k subject : Ref) (src : Source)
    (input_ : Observable Event Event) (s : Server) : Server * Ref :=
  let s := log k (Subscribe Outbound src) s in
  let '(s, terminated) :=
    notify (sendResponse k) (handleEffectsError k Outbound) (on_subscribe input_) s in
  let r := fresh s in
  let sub := {| subscribed_to := src; source := input_; history := [];
                closed := terminated |} in
  let s := set_outbound (<[r := {| subscription := sub; scope := k |}]> (outbound s))
             (set_fresh (Pos.succ r) s) in
  (observe subject r s, r).

(** [onMessage] of the activation [k]. *)
Definition onMessage (k : Ref) (event : WebSocketData) (s : Server) : Server :=
  match scopes s !! k with
  | Some sc =>
      let s :=
        if middlewaresSub_closed k s
        then let '(s, r) :=
               subscribeMiddlewares k (incomingEventSubject sc) Src_middlewares
                 (middlewares_ WsErrorEffect config ask combineMiddlewares
                    jsonTransformer (client sc)) s in
             set_middlewaresSub (<[k := r]> (middlewaresSub s)) s
        else s in
      let s :=
        if effectsSub_closed k s
        then let '(s, r) :=
               subscribeEffects k (eventSubject sc) Src_effects
                 (effects_ WsErrorEffect config ask combineEffects (client sc)) s in
             set_effectsSub (<[k := r]> (effectsSub s)) s
        else s in
      incomingEventSubject_next k (incomingEventSubject sc) event s
  | None => s
  end.

(** [onClose] of the activation [k]. *)
Definition onClose (k : Ref) (s : Server) : Server :=
  match scopes s !! k with
  | Some sc =>
      let s := log k RemoveMessageListener s in
      let s :=
        set_message_listeners
          (<[client sc := filter (fun k' => k' ≠ k)
                            (message_listeners s !!! client sc)]>
             (message_listeners s)) s in
      let s := middlewaresSub_unsubscribe k (log k (Unsubscribe Inbound) s) in
      effectsSub_unsubscribe k (log k (Unsubscribe Outbound) s)
  | None => s
  end.

(** [handleMessage(client)]: a new activation, with two new subjects. *)
Definition handleMessage (a : ClientRef) (s : Server) : Server :=
  let k := fresh s in
  let eventSubject_ := Pos.succ k in
  let incomingEventSubject_ := Pos.succ eventSubject_ in
  let sc := {| client := a; eventSubject := eventSubject_;
               incomingEventSubject := incomingEventSubject_ |} in
  let s := set_observers
             (<[incomingEventSubject_ := []]>
                (<[eventSubject_ := []]> (observers s)))
             (set_scopes (<[k := sc]> (scopes s))
                (set_fresh (Pos.succ incomingEventSubject_) s)) in
  let '(s, r) :=
    subscribeMiddlewares k incomingEventSubject_ Src_middlewares
      (middlewares_ WsErrorEffect config ask combineMiddlewares jsonTransformer a)
      s in
  let s := set_middlewaresSub (<[k := r]> (middlewaresSub s)) s in
  let '(s, r) :=
    subscribeEffects k eventSubject_ Src_effectsOutput
      (effectsOutput_ WsErrorEffect config ask combineEffects a) s in
  let s := set_effectsSub (<[k := r]> (effectsSub s)) s in
  let s := set_message_listeners
             (<[a := (message_listeners s !!! a) ++ [k]]> (message_listeners s))
             s in
  set_close_listeners
    (<[a := (close_listeners s !!! a) ++ [k]]> (close_listeners s)) s.

(** [handleConnection(server)(client)]: the client is extended with the
    two ways to respond and handed to [handleMessage]; the heartbeat it
    also starts is driven by timers and is left out. *)
Definition handleConnection (a : ClientRef) (s : Server) : Server :=
  handleMessage a s.

(** The client emits ['message']: its listeners run in the order in which
    they were registered. *)
Definition emit_message (a : ClientRef) (event : WebSocketData) (s : Server)
  : Server :=
  foldl (fun s k => onMessage k event s) s (message_listeners s !!! a).

(** The client emits ['close']: a listener registered with [once] is
    removed before it runs. *)
Definition emit_close (a : ClientRef) (s : Server) : Server :=
  foldl (fun s k =>
           onClose k
             (set_close_listeners
                (<[a := filter (fun k' => k' ≠ k) (close_listeners s !!! a)]>
                   (close_listeners s)) s))
        s (close_listeners s !!! a).

Definition socket_step (s : Server) (e : SocketEvent) : Server :=
  match e with
  | OnConnection a => handleConnection a s
  | OnMessage a event => emit_message a event s
  | OnClose a => emit_close a s
  end.

Definition socket_run (s : Server) (es : list SocketEvent) : Server :=
  foldl socket_step s es.

End Listener.

(** *** Vocabulary for the statements about a server *)

(** What the activation [k] has done, in order. *)
Definition trace_of (k : Ref) (t : list (Ref * Action)) : list Action :=
  (filter (fun x => x.1 = k) t).*2.

(** The connection of the activation [k] as its own closures see it: the
    subscriptions its two variables refer to, whether its listeners are
    registered on its client, and what it has done. *)
Definition view (s : Server) (k : Ref) : option Connection :=
  sc ← scopes s !! k;
  m ← middlewaresSub s !! k;
  e ← effectsSub s !! k;
  om ← inbound s !! m;
  oe ← outbound s !! e;
  Some {| WebSocket.middlewaresSub := subscription om;
          WebSocket.effectsSub := subscription oe;
          message_listener := bool_decide (k ∈ message_listeners s !!! client sc);
          close_listener := bool_decide (k ∈ close_listeners s !!! client sc);
          WebSocket.trace := trace_of k (trace s) |}.


(** What a client emits, among the events of the sockets of a server. *)
Definition signals (a : ClientRef) (es : list SocketEvent) : list Signal :=
  es ≫= (fun e => match e with
                  | OnMessage b event =>
                      if decide (b = a) then [MessageSignal event] else []
                  | OnClose b => if decide (b = a) then [CloseSignal] else []
                  | OnConnection _ => []
                  end).

(** The client whose socket an event is about. *)
Definition event_client (e : SocketEvent) : ClientRef :=
  match e with
  | OnConnection a | OnMessage a _ | OnClose a => a
  end.

(** *** Vocabulary for the proofs: how the objects of one activation are
    arranged in the heap, and how a step of one activation shows there *)

(** A store with the subscription [sub] of the activation [k] at [r]. *)
Definition with_subscriber {I} (k : Ref) (r : option Ref) (sub : Subscription I)
    (store : gmap Ref (Subscriber I)) : gmap Ref (Subscriber I) :=
  match r with
  | Some r => <[r := {| subscription := sub; scope := k |}]> store
  | None => store
  end.

(** A closed subscription of the activation [k]. *)
Definition stale {I} (k : Ref) (store : gmap Ref (Subscriber I)) (r : Ref) : Prop :=
  ∃ o, store !! r = Some o ∧ scope o = k ∧ closed (subscription o) = true.

(** The observers of a subject of the activation [k]: closed subscriptions
    of [k], then the current one, if one has been made. *)
Definition observed {I} (k : Ref) (store : gmap Ref (Subscriber I))
    (l : list Ref) (current : option Ref) : Prop :=
  ∃ olds, l = olds ++ option_list current
          ∧ Forall (stale k store) olds
          ∧ ∀ r, current = Some r → r ∉ olds.

(** The current subscription is the one the connection [c] knows; before
    there is one, the connection holds a closed one in its place. *)
Definition holds {I} (k : Ref) (store : gmap Ref (Subscriber I))
    (current : option Ref) (sub : Subscription I) : Prop :=
  match current with
  | Some r => store !! r = Some {| subscription := sub; scope := k |}
  | None => closed sub = true
  end.

(** The objects of the activation [k], with [m] and [e] the current
    subscriptions of its two pipelines, are arranged as the connection [c]
    has them. *)
Record attached (k : Ref) (sc : Scope) (m e : option Ref) (s : Server)
    (c : Connection) : Prop := {
  attached_scope : scopes s !! k = Some sc;
  attached_inbound :
    observed k (inbound s) (observers s !!! incomingEventSubject sc) m;
  attached_outbound :
    observed k (outbound s) (observers s !!! eventSubject sc) e;
  attached_middlewaresSub : holds k (inbound s) m (WebSocket.middlewaresSub c);
  attached_effectsSub : holds k (outbound s) e (WebSocket.effectsSub c);
}.

(** The server [s] and the connection [c] have gone from [s0] and [c0]
    through the same actions of the activation [k], which changed its two
    current subscriptions and nothing else. *)
Record follows (k : Ref) (m e : option Ref) (s0 : Server) (c0 : Connection)
    (s : Server) (c : Connection) : Prop := {
  follows_fresh : fresh s = fresh s0;
  follows_scopes : scopes s = scopes s0;
  follows_observers : observers s = observers s0;
  follows_middlewaresSub : middlewaresSub s = middlewaresSub s0;
  follows_effectsSub : effectsSub s = effectsSub s0;
  follows_message_listeners : message_listeners s = message_listeners s0;
  follows_close_listeners : close_listeners s = close_listeners s0;
  follows_trace :
    ∃ t, trace s = trace s0 ++ (pair k <$> t)
         ∧ WebSocket.trace c = WebSocket.trace c0 ++ t;
  follows_inbound :
    inbound s = with_subscriber k m (WebSocket.middlewaresSub c) (inbound s0);
  follows_outbound :
    outbound s = with_subscriber k e (WebSocket.effectsSub c) (outbound s0);
  follows_no_inbound :
    m = None → WebSocket.middlewaresSub c = WebSocket.middlewaresSub c0;
  follows_no_outbound :
    e = None → WebSocket.effectsSub c = WebSocket.effectsSub c0;
  follows_message_listener : message_listener c = message_listener c0;
  follows_close_listener : close_listener c = close_listener c0;
}.

(** A step of the activation [k] on the server and on the connection:
    the connection does what the activation does, the scopes and the
    listeners stay, and what belongs to other activations is as it was. *)
Record evolves (k : Ref) (subjects : list Ref) (s : Server) (c : Connection)
    (s' : Server) (c' : Connection) : Prop := {
  evolves_fresh : (fresh s ≤ fresh s')%positive;
  evolves_scopes : scopes s' = scopes s;
  evolves_message_listeners : message_listeners s' = message_listeners s;
  evolves_close_listeners : close_listeners s' = close_listeners s;
  evolves_trace :
    ∃ t, trace s' = trace s ++ (pair k <$> t)
         ∧ WebSocket.trace c' = WebSocket.trace c ++ t;
  evolves_message_listener : message_listener c' = message_listener c;
  evolves_close_listener : close_listener c' = close_listener c;
  evolves_middlewaresSub :
    ∀ k', k' ≠ k → middlewaresSub s' !! k' = middlewaresSub s !! k';
  evolves_effectsSub :
    ∀ k', k' ≠ k → effectsSub s' !! k' = effectsSub s !! k';
  evolves_inbound :
    ∀ r o, inbound s !! r = Some o → scope o ≠ k → inbound s' !! r = Some o;
  evolves_outbound :
    ∀ r o, outbound s !! r = Some o → scope o ≠ k → outbound s' !! r = Some o;
  evolves_observers :
    ∀ subject, subject ∉ subjects →
               observers s' !!! subject = observers s !!! subject;
}.

(** From [s] to [s'] only objects of the activation [k] have changed or
    been made. *)
Record confined (k : Ref) (subjects : list Ref) (s s' : Server) : Prop := {
  confined_fresh : (fresh s ≤ fresh s')%positive;
  confined_scopes : ∀ k', k' ≠ k → scopes s' !! k' = scopes s !! k';
  confined_trace : ∃ t, trace s' = trace s ++ (pair k <$> t);
  confined_middlewaresSub :
    ∀ k', k' ≠ k → middlewaresSub s' !! k' = middlewaresSub s !! k';
  confined_effectsSub :
    ∀ k', k' ≠ k → effectsSub s' !! k' = effectsSub s !! k';
  confined_inbound :
    ∀ r o, inbound s !! r = Some o → scope o ≠ k → inbound s' !! r = Some o;
  confined_outbound :
    ∀ r o, outbound s !! r = Some o → scope o ≠ k → outbound s' !! r = Some o;
  confined_observers :
    ∀ subject, subject ∉ subjects →
               observers s' !!! subject = observers s !!! subject;
  confined_message_listeners :
    ∀ a k', k' ≠ k →
            k' ∈ message_listeners s' !!! a ↔ k' ∈ message_listeners s !!! a;
  confined_close_listeners :
    ∀ a k', k' ≠ k →
            k' ∈ close_listeners s' !!! a ↔ k' ∈ close_listeners s !!! a;
}.

(** References not yet handed out refer to no subscription. *)
Definition bounded (s : Server) : Prop :=
  ∀ r, (fresh s ≤ r)%positive → inbound s !! r = None ∧ outbound s !! r = None.

(** The connection [c] is what the activation [k] is in the heap. *)
Definition represents (s : Server) (k : Ref) (sc : Scope) (c : Connection) : Prop :=
  ∃ m e,
    middlewaresSub s !! k = Some m
    ∧ effectsSub s !! k = Some e
    ∧ attached k sc (Some m) (Some e) s c
    ∧ WebSocket.trace c = trace_of k (trace s)
    ∧ message_listener c = bool_decide (k ∈ message_listeners s !!! client sc)
    ∧ close_listener c = bool_decide (k ∈ close_listeners s !!! client sc).

(** The heaps the listener makes: every activation is arranged as some
    connection, no two subjects are one, references not yet handed out
    refer to nothing, the listeners registered on a client are those of
    activations for that client, each once, and what has been done was
    done by an activation there is. *)
Record well_formed (s : Server) : Prop := {
  wf_connections : ∀ k sc, scopes s !! k = Some sc → ∃ c, represents s k sc c;
  wf_apart :
    ∀ k k' sc sc', scopes s !! k = Some sc → scopes s !! k' = Some sc' →
      eventSubject sc ≠ incomingEventSubject sc'
      ∧ (k ≠ k' → eventSubject sc ≠ eventSubject sc'
                  ∧ incomingEventSubject sc ≠ incomingEventSubject sc');
  wf_bounded : bounded s;
  wf_scopes : ∀ r, (fresh s ≤ r)%positive → scopes s !! r = None;
  wf_subjects :
    ∀ k sc, scopes s !! k = Some sc →
      (eventSubject sc < fresh s)%positive
      ∧ (incomingEventSubject sc < fresh s)%positive;
  wf_message_listeners :
    ∀ a k, k ∈ message_listeners s !!! a →
           ∃ sc, scopes s !! k = Some sc ∧ client sc = a;
  wf_close_listeners :
    ∀ a k, k ∈ close_listeners s !!! a →
           ∃ sc, scopes s !! k = Some sc ∧ client sc = a;
  wf_message_listeners_once : ∀ a, NoDup (message_listeners s !!! a);
  wf_close_listeners_once : ∀ a, NoDup (close_listeners s !!! a);
  wf_trace : ∀ k x, (k, x) ∈ trace s → is_Some (scopes s !! k);
}.

(** *** A sample server: the sample listener and its sockets *)

Definition sample_step (s : Server) (e : SocketEvent) : Server :=
  socket_step unit (Some Sample.config) Sample.ask combine combine Sample.json s e.

Definition sample_run (s : Server) (es : list SocketEvent) : Server :=
  socket_run unit (Some Sample.config) Sample.ask combine combine Sample.json s es.

(** Two clients have connected. *)
Definition sample_server : Server :=
  sample_run initial [OnConnection 1%positive; OnConnection 2%positive].

(** The activations of [handleMessage] for the two clients: the first
    has the references [1] to [5], for itself, its subjects and its
    subscriptions, the second those from [6] on. *)
Definition first : Ref := 1%positive.
Definition first_scope : Scope :=
  {| client := 1%positive; eventSubject := 2%positive;
     incomingEventSubject := 3%positive |}.
Definition second : Ref := 6%positive.
Definition second_scope : Scope :=
  {| client := 2%positive; eventSubject := 7%positive;
     incomingEventSubject := 8%positive |}.

End WebSocketServer.

(* ===================================================================== *)
(** * Properties *)
(* ===================================================================== *)

(** ** The multipart field parser *)

Section MultipartProperties.
Import Js Rx Multipart.

Implicit Types (req : ReqRef) (h : Store) (st : PipeState)
  (t : Tick FieldEvent JsValue) (ts pre post : list (Tick FieldEvent JsValue))
  (ev : FieldEvent) (evs : list FieldEvent) (props : gmap string JsValue).

(** *** One tick *)

Lemma parseField_step_field req st ev h :
  stopped st = false →
  parseField_step req st (FromSource (Next ev)) h
  = ({| stopped := false; isEmpty := false |}, [Next req], assignField req ev h).
Proof. intros Hrun. unfold parseField_step. rewrite Hrun. reflexivity. Qed.

Lemma parseField_step_running req st t h :
  stopped st = false → keeps_running t = true →
  parseField_step req st t h
  = ({| stopped := false;
        isEmpty := isEmpty st && bool_decide (received [t] = []) |},
     emitted_while_running req t,
     foldl (fun h ev => assignField req ev h) h (received [t])).
Proof.
  intros Hrun Ht. unfold parseField_step. rewrite Hrun.
  destruct t as [[ev| |]|[v| |]]; try discriminate Ht; simpl.
  - rewrite andb_false_r. reflexivity.
  - rewrite andb_true_r. reflexivity.
Qed.

Lemma parseField_step_completes req st t h :
  stopped st = false → completes t = true →
  parseField_step req st t h
  = ({| stopped := true; isEmpty := isEmpty st |},
     if isEmpty st then [Next req; Complete] else [Complete], h).
Proof.
  intros Hrun Ht. unfold parseField_step. rewrite Hrun.
  destruct t as [[ev| |]|[v| |]]; try discriminate Ht; simpl;
    destruct (isEmpty st); reflexivity.
Qed.

Lemma parseField_step_stopped req st t h :
  stopped st = true →
  parseField_step req st t h = (st, [], h).
Proof.
  intros Hstop. unfold parseField_step. rewrite Hstop. simpl.
  destruct st as [s e]. simpl in Hstop. subst s. reflexivity.
Qed.

(** *** Runs *)

Lemma parseField_run_stopped req st ts h :
  stopped st = true →
  parseField_run req st ts h = (const [] <$> ts, h).
Proof.
  intros Hstop. induction ts as [|t ts IH]; [reflexivity|].
  simpl. rewrite parseField_step_stopped by assumption.
  rewrite IH. reflexivity.
Qed.

Lemma received_app ts ts' : received (ts ++ ts') = received ts ++ received ts'.
Proof. unfold received. apply bind_app. Qed.

Lemma received_cons t ts : received (t :: ts) = received [t] ++ received ts.
Proof. apply (received_app [t] ts). Qed.

(** While the pipe runs it emits the request at each field event and at no
    other tick, and [tap] has written every field. *)
Lemma parseField_run_running req st pre ts h :
  stopped st = false →
  forallb keeps_running pre = true →
  parseField_run req st (pre ++ ts) h
  = let '(outs, h') :=
      parseField_run req
        {| stopped := false;
           isEmpty := isEmpty st && bool_decide (received pre = []) |}
        ts (foldl (fun h ev => assignField req ev h) h (received pre)) in
    ((emitted_while_running req <$> pre) ++ outs, h').
Proof.
  revert st h. induction pre as [|t pre IH]; intros st h Hrun Hpre.
  - simpl. rewrite andb_true_r. destruct st as [s e]. simpl in Hrun. subst s.
    simpl. destruct (parseField_run _ _ ts h). reflexivity.
  - simpl in Hpre. apply andb_prop in Hpre as [Ht Hpre].
    change ((t :: pre) ++ ts) with (t :: (pre ++ ts)).
    cbn [parseField_run].
    rewrite (parseField_step_running _ _ _ _ Hrun Ht).
    rewrite IH; [|reflexivity|assumption]. cbn [isEmpty].
    rewrite (received_cons t pre), foldl_app.
    replace (isEmpty st && bool_decide (received [t] = [])
             && bool_decide (received pre = []))
      with (isEmpty st && bool_decide (received [t] ++ received pre = [])).
    + destruct (parseField_run _ _ ts _). reflexivity.
    + rewrite <- andb_assoc. f_equal.
      destruct (received [t]); simpl; [|reflexivity].
      destruct (bool_decide _); reflexivity.
Qed.

(** *** The store *)

Lemma assignField_lookup req ev h r :
  h !! req = Some r →
  assignField req ev h !! req
  = Some {| body := BObject (<[fieldname ev := fieldvalue ev]>
                               (spread_body (body r))) |}.
Proof.
  intros Hr. destruct ev as [[[[[name v] b1] b2] m] e].
  unfold assignField. rewrite lookup_alter_eq, Hr. reflexivity.
Qed.

Lemma assignField_lookup_ne req req' ev h :
  req ≠ req' → assignField req ev h !! req' = h !! req'.
Proof.
  intros Hne. destruct ev as [[[[[name v] b1] b2] m] e].
  unfold assignField. apply lookup_alter_ne. assumption.
Qed.

Lemma assignFields_lookup req evs ev h r :
  h !! req = Some r →
  foldl (fun h ev => assignField req ev h) h (ev :: evs) !! req
  = Some {| body := BObject (accumulate (ev :: evs) (spread_body (body r))) |}.
Proof.
  revert ev h r. induction evs as [|ev' evs IH]; intros ev h r Hr.
  - simpl. apply assignField_lookup. assumption.
  - change (foldl (fun h ev => assignField req ev h) h (ev :: ev' :: evs))
      with (foldl (fun h ev => assignField req ev h)
              (assignField req ev h) (ev' :: evs)).
    rewrite (IH ev' _ _ (assignField_lookup req ev h r Hr)).
    reflexivity.
Qed.

Lemma accumulate_snoc evs ev props :
  accumulate (evs ++ [ev]) props
  = <[fieldname ev := fieldvalue ev]> (accumulate evs props).
Proof. unfold accumulate. rewrite foldl_app. reflexivity. Qed.

Lemma latest_snoc name evs ev :
  latest name (evs ++ [ev])
  = if decide (fieldname ev = name) then Some (fieldvalue ev)
    else latest name evs.
Proof. unfold latest. rewrite foldl_app. reflexivity. Qed.

(** A name maps to the value of the last event that carried it. *)
Lemma accumulate_lookup name evs props :
  accumulate evs props !! name
  = match latest name evs with Some v => Some v | None => props !! name end.
Proof.
  induction evs as [|ev evs IH] using rev_ind; [reflexivity|].
  rewrite accumulate_snoc, latest_snoc.
  destruct (decide (fieldname ev = name)) as [<-|Hne].
  - apply lookup_insert_eq.
  - rewrite lookup_insert_ne by assumption. exact IH.
Qed.

Lemma body_props_lookup req h props :
  h !! req = Some {| body := BObject props |} → body_props req h = Some props.
Proof. intros H. unfold body_props. rewrite H. reflexivity. Qed.

(** *** The claims *)

(** C10: a field event that [parseField] processes leaves the body of the
    request with the event's field name mapped to the event's value and
    with every other key as it was in the previous body; the value passed
    downstream is the request that was passed in (and no other request of
    the store is touched). *)
Theorem parseField_field_event_overwrites_one_key req st ev h r :
  stopped st = false →
  h !! req = Some r →
  let '(_, out, h') := parseField_step req st (FromSource (Next ev)) h in
  out = [Next req]
  ∧ (∃ props, body_props req h' = Some props
       ∧ props !! fieldname ev = Some (fieldvalue ev)
       ∧ ∀ k, k ≠ fieldname ev → props !! k = spread_body (body r) !! k)
  ∧ ∀ req', req' ≠ req → h' !! req' = h !! req'.
Proof.
  intros Hrun Hr. rewrite (parseField_step_field _ _ _ _ Hrun).
  split; [reflexivity|]. split.
  - eexists. split; [|split].
    + apply body_props_lookup. apply assignField_lookup. eassumption.
    + apply lookup_insert_eq.
    + intros k Hk. apply lookup_insert_ne. congruence.
  - intros req' Hne. apply assignField_lookup_ne. congruence.
Qed.

Lemma parseField_field_event_overwrites_one_key_witness :
  let '(_, out, h') :=
    parseField_step 1%positive initial (FromSource (Next field_age))
      (assignField 1%positive field_name sample_store) in
  out = [Next 1%positive]
  ∧ (∃ props, body_props 1%positive h' = Some props
       ∧ props !! "age"%string = Some (JNumber 3)
       ∧ ∀ k, k ≠ "age"%string →
              props !! k = ({[ "name"%string := JString "marble" ]} : gmap string JsValue) !! k)
  ∧ ∀ req', req' ≠ 1%positive →
            h' !! req' = assignField 1%positive field_name sample_store !! req'.
Proof.
  exact (parseField_field_event_overwrites_one_key 1%positive initial field_age
           (assignField 1%positive field_name sample_store)
           {| body := BObject {[ "name"%string := JString "marble" ]} |}
           eq_refl eq_refl).
Defined.

(** C8, as amended: [parseField] writes every field received before the
    pipe completes into the body of the request, a later value of a name
    replacing an earlier one, and emits the request at each of these field
    events.  When the completion signal fires or the field stream
    completes, the output completes; the request is emitted at that moment
    only if no field event was received, and then the store is as it was.
    Nothing is emitted or written afterwards. *)
Theorem parseField_emits_per_field_and_accumulates req r h pre t post :
  h !! req = Some r →
  forallb keeps_running pre = true →
  completes t = true →
  let '(outs, h') := parseField req (pre ++ t :: post) h in
  outs = (emitted_while_running req <$> pre)
         ++ (if decide (received pre = []) then [Next req; Complete]
             else [Complete])
         :: (const [] <$> post)
  ∧ (received pre ≠ [] →
     body_props req h'
     = Some (accumulate (received pre) (spread_body (body r))))
  ∧ (received pre = [] → h' = h)
  ∧ (∀ name v, latest name (received pre) = Some v →
               ∃ props, body_props req h' = Some props ∧ props !! name = Some v).
Proof.
  intros Hr Hpre Ht. unfold parseField.
  rewrite (parseField_run_running req initial pre (t :: post) h eq_refl Hpre).
  cbn [parseField_run isEmpty initial andb].
  rewrite parseField_step_completes by (reflexivity || assumption).
  rewrite parseField_run_stopped by reflexivity.
  cbn [isEmpty].
  assert (Hprops : received pre ≠ [] →
            body_props req (foldl (λ h ev, assignField req ev h) h (received pre))
            = Some (accumulate (received pre) (spread_body (body r)))).
  { intros Hne. destruct (received pre) as [|ev evs]; [congruence|].
    apply body_props_lookup. apply assignFields_lookup. assumption. }
  split; [|split; [|split]].
  - f_equal. f_equal. destruct (received pre); reflexivity.
  - exact Hprops.
  - intros ->. reflexivity.
  - intros name v Hv. exists (accumulate (received pre) (spread_body (body r))).
    split.
    + apply Hprops. intros Hnil. rewrite Hnil in Hv. discriminate Hv.
    + rewrite accumulate_lookup, Hv. reflexivity.
Qed.

Lemma parseField_emits_per_field_and_accumulates_witness :
  let '(outs, h') :=
    parseField 1%positive
      ([FromSource (Next field_name); FromSource (Next field_age)]
         ++ finish :: [FromSource (Next field_name)]) sample_store in
  outs = [[Next 1%positive]; [Next 1%positive]; [Complete]; []]
  ∧ (received [FromSource (Next field_name); FromSource (Next field_age)] ≠ [] →
     body_props 1%positive h'
     = Some (accumulate [field_name; field_age] ∅))
  ∧ (received [FromSource (Next field_name); FromSource (Next field_age)] = [] →
     h' = sample_store)
  ∧ (∀ name v, latest name [field_name; field_age] = Some v →
               ∃ props, body_props 1%positive h' = Some props
                        ∧ props !! name = Some v).
Proof.
  exact (parseField_emits_per_field_and_accumulates 1%positive
           {| body := BUndefined |} sample_store
           [FromSource (Next field_name); FromSource (Next field_age)]
           finish [FromSource (Next field_name)] eq_refl eq_refl eq_refl).
Defined.

(** The sample upload: the request is emitted at each of the two field
    events, the completion signal only completes the output, and the field
    that arrives afterwards is dropped. *)
Lemma parseField_sample_run :
  (parseField 1%positive
     [FromSource (Next field_name); FromSource (Next field_age); finish;
      FromSource (Next field_name)] sample_store).1
  = [[Next 1%positive]; [Next 1%positive]; [Complete]; []].
Proof. reflexivity. Qed.

(** C8, as the interface description words it, fails: with two field
    events before the completion signal the request is emitted at each
    field event, twice over the run, and the burst of the completion
    signal holds no request. *)
Lemma parseField_not_produced_on_completion :
  ¬ produced_on_completion 1%positive
      (parseField 1%positive
         [FromSource (Next field_name); FromSource (Next field_age); finish]
         sample_store).1.
Proof.
  intros [before [Houts Hnone]].
  change ([[Next 1%positive]; [Next 1%positive]; [Complete]]
          = before ++ [[Next 1%positive; Complete]]) in Houts.
  destruct before as [|b1 [|b2 [|b3 [|b4 before]]]]; discriminate Houts.
Qed.

(** *** Beyond completion: errors, runs that do not end, other requests *)

Lemma parseField_step_error req st t h (e : JsError) :
  stopped st = false →
  t = FromSource (Error e) ∨ t = FromNotifier (Error e) →
  parseField_step req st t h
  = ({| stopped := true; isEmpty := isEmpty st |}, [Error e], h).
Proof.
  intros Hrun [->| ->]; unfold parseField_step; rewrite Hrun; reflexivity.
Qed.

Lemma concat_no_bursts (ts : list (Tick FieldEvent JsValue)) :
  concat ((const [] <$> ts) : list (Batch ReqRef)) = [].
Proof. induction ts as [|t ts IH]; [reflexivity|exact IH]. Qed.

(** The output and the store of a run from a running pipe. *)
Lemma parseField_run_any req st ts h :
  stopped st = false →
  concat (parseField_run req st ts h).1
  = replicate (length (accepted ts)) (Next req)
      ++ match outcome ts with
         | None => []
         | Some None =>
             if isEmpty st && bool_decide (accepted ts = [])
             then [Next req; Complete] else [Complete]
         | Some (Some e) => [Error e]
         end
  ∧ (parseField_run req st ts h).2
    = foldl (λ h ev, assignField req ev h) h (accepted ts).
Proof.
  revert st h. induction ts as [|t ts IH]; intros st h Hrun; [split; reflexivity|].
  destruct t as [[ev|e|]|[v|e|]]; cbn [parseField_run accepted outcome].
  - rewrite (parseField_step_field _ _ _ _ Hrun).
    destruct (IH {| stopped := false; isEmpty := false |} (assignField req ev h)
                eq_refl) as [Hout Hstore].
    destruct (parseField_run req _ ts (assignField req ev h)) as [outs h'].
    cbn in Hout, Hstore |- *. rewrite Hout, Hstore, andb_false_r.
    split; [|reflexivity]. destruct (outcome ts) as [[e|]|]; reflexivity.
  - rewrite (parseField_step_error req st _ h e Hrun) by (left; reflexivity).
    rewrite parseField_run_stopped by reflexivity. cbn.
    rewrite concat_no_bursts. split; reflexivity.
  - rewrite parseField_step_completes by (reflexivity || assumption).
    rewrite parseField_run_stopped by reflexivity. cbn.
    rewrite concat_no_bursts, andb_true_r, !app_nil_r. split; reflexivity.
  - rewrite parseField_step_completes by (reflexivity || assumption).
    rewrite parseField_run_stopped by reflexivity. cbn.
    rewrite concat_no_bursts, andb_true_r, !app_nil_r. split; reflexivity.
  - rewrite (parseField_step_error req st _ h e Hrun) by (right; reflexivity).
    rewrite parseField_run_stopped by reflexivity. cbn.
    rewrite concat_no_bursts. split; reflexivity.
  - rewrite parseField_step_running by (reflexivity || assumption).
    cbn [received mbind list_bind app foldl emitted_while_running].
    destruct (IH {| stopped := false;
                    isEmpty := isEmpty st && bool_decide ([] = @nil FieldEvent) |}
                h eq_refl) as [Hout Hstore].
    destruct (parseField_run req _ ts h) as [outs h'].
    cbn in Hout, Hstore |- *. rewrite Hout, Hstore.
    split; [|reflexivity]. rewrite andb_true_r. reflexivity.
Qed.

Lemma assignFields_lookup_ne req req' evs h :
  req ≠ req' →
  foldl (λ h ev, assignField req ev h) h evs !! req' = h !! req'.
Proof.
  intros Hne. revert h. induction evs as [|ev evs IH]; intros h; [reflexivity|].
  cbn [foldl]. rewrite IH. apply assignField_lookup_ne. exact Hne.
Qed.

(** X1: whatever [event$] and [finish$] deliver, the output of
    [parseField] is the request, once for each field event that arrives
    before the pipe ends, followed by at most one terminal notification and
    nothing else: a completion (preceded by the request when no field event
    was let through) if the completion signal fired or the field stream
    completed, the error if either stream failed, in which case the request
    is not emitted in place of the missing fields, and nothing as long as
    neither happened. *)
Theorem parseField_output_of_any_run req ts h :
  concat (parseField req ts h).1
  = replicate (length (accepted ts)) (Next req)
      ++ match outcome ts with
         | None => []
         | Some None =>
             if bool_decide (accepted ts = []) then [Next req; Complete]
             else [Complete]
         | Some (Some e) => [Error e]
         end.
Proof.
  unfold parseField.
  destruct (parseField_run_any req initial ts h eq_refl) as [Hout _].
  exact Hout.
Qed.

(** X2: whatever [event$] and [finish$] deliver, [parseField] leaves every
    other request of the store as it is, leaves the store as a whole as it
    is when no field event is let through, and otherwise leaves the body of
    its request an object in which every name maps to the value of the last
    field event let through under that name, and every other property of
    the previous body keeps its value. *)
Theorem parseField_store_of_any_run req ts h :
  (∀ req', req' ≠ req → (parseField req ts h).2 !! req' = h !! req')
  ∧ (accepted ts = [] → (parseField req ts h).2 = h)
  ∧ (∀ r, h !! req = Some r → accepted ts ≠ [] →
          ∃ props,
            body_props req (parseField req ts h).2 = Some props
            ∧ ∀ k, props !! k
                   = match latest k (accepted ts) with
                     | Some v => Some v
                     | None => spread_body (body r) !! k
                     end).
Proof.
  unfold parseField.
  destruct (parseField_run_any req initial ts h eq_refl) as [_ Hstore].
  rewrite Hstore. split; [|split].
  - intros req' Hne. apply assignFields_lookup_ne. congruence.
  - intros ->. reflexivity.
  - intros r Hr Hne. destruct (accepted ts) as [|ev evs] eqn:Hacc; [congruence|].
    exists (accumulate (ev :: evs) (spread_body (body r))). split.
    + apply body_props_lookup. apply assignFields_lookup. exact Hr.
    + intros k. apply accumulate_lookup.
Qed.

(** *** The order of the fields *)

Lemma latest_elem name evs (v : JsValue) :
  latest name evs = Some v →
  ∃ ev, ev ∈ evs ∧ fieldname ev = name ∧ fieldvalue ev = v.
Proof.
  induction evs as [|ev evs IH] using rev_ind; [discriminate|].
  rewrite latest_snoc. destruct (decide (fieldname ev = name)) as [Heq|Hne].
  - intros [= <-]. exists ev. split; [|split; [exact Heq|reflexivity]].
    apply elem_of_app. right. apply list_elem_of_singleton. reflexivity.
  - intros Hv. destruct (IH Hv) as (ev' & Hin & Hn & Hval).
    exists ev'. split; [|split; assumption].
    apply elem_of_app. left. exact Hin.
Qed.

Lemma latest_none name evs :
  name ∉ fieldname <$> evs → latest name evs = None.
Proof.
  induction evs as [|ev evs IH] using rev_ind; [reflexivity|].
  rewrite fmap_app, latest_snoc. intros Hnot.
  destruct (decide (fieldname ev = name)) as [Heq|Hne].
  - exfalso. apply Hnot. apply elem_of_app. right.
    apply list_elem_of_singleton. symmetry. exact Heq.
  - apply IH. intros Hin. apply Hnot. apply elem_of_app. left. exact Hin.
Qed.

Lemma latest_unique evs ev :
  NoDup (fieldname <$> evs) → ev ∈ evs →
  latest (fieldname ev) evs = Some (fieldvalue ev).
Proof.
  induction evs as [|x evs IH] using rev_ind; intros Hnd Hin.
  - apply elem_of_nil in Hin. contradiction.
  - rewrite fmap_app in Hnd. apply NoDup_app in Hnd as (Hnd & Hdisj & _).
    rewrite latest_snoc. apply elem_of_app in Hin as [Hin|Hin].
    + destruct (decide (fieldname x = fieldname ev)) as [Heq|Hne].
      * exfalso. apply (Hdisj (fieldname ev)).
        -- apply list_elem_of_fmap. exists ev. split; [reflexivity|exact Hin].
        -- rewrite <- Heq. apply list_elem_of_singleton. reflexivity.
      * apply IH; assumption.
    + apply list_elem_of_singleton in Hin. subst x.
      rewrite decide_True by reflexivity. reflexivity.
Qed.

Lemma latest_permutation name evs evs' :
  NoDup (fieldname <$> evs) → evs ≡ₚ evs' →
  latest name evs = latest name evs'.
Proof.
  intros Hnd Hperm.
  assert (Hnd' : NoDup (fieldname <$> evs')) by (rewrite <- Hperm; exact Hnd).
  destruct (latest name evs) as [v|] eqn:Hl.
  - destruct (latest_elem _ _ _ Hl) as (ev & Hin & <- & <-).
    symmetry. apply latest_unique; [exact Hnd'|].
    rewrite <- Hperm. exact Hin.
  - destruct (latest name evs') as [v'|] eqn:Hl'; [|reflexivity].
    destruct (latest_elem _ _ _ Hl') as (ev & Hin & <- & <-).
    rewrite <- Hperm in Hin.
    rewrite (latest_unique evs ev Hnd Hin) in Hl. discriminate Hl.
Qed.

Lemma assignFields_permutation req evs evs' h :
  NoDup (fieldname <$> evs) → evs ≡ₚ evs' →
  foldl (λ h ev, assignField req ev h) h evs
  = foldl (λ h ev, assignField req ev h) h evs'.
Proof.
  intros Hnd Hperm. apply map_eq. intros q.
  destruct (decide (req = q)) as [<-|Hne].
  - destruct (h !! req) as [r|] eqn:Hr.
    + destruct evs as [|ev evs].
      * apply Permutation_nil_l in Hperm. subst evs'. reflexivity.
      * destruct evs' as [|ev' evs'].
        { apply Permutation_nil_r in Hperm. discriminate Hperm. }
        rewrite !(assignFields_lookup _ _ _ _ _ Hr). do 3 f_equal.
        apply map_eq. intros k. rewrite !accumulate_lookup.
        rewrite (latest_permutation k _ _ Hnd Hperm). reflexivity.
    + assert (Hnone : ∀ l h0, h0 !! req = None →
                foldl (λ h ev, assignField req ev h) h0 l !! req = None).
      { induction l as [|x l IH]; intros h0 H0; [exact H0|].
        cbn [foldl]. apply IH. destruct x as [[[[[n v] b1] b2] m] e].
        unfold assignField. rewrite lookup_alter_eq, H0. reflexivity. }
      rewrite !Hnone by exact Hr. reflexivity.
  - rewrite !assignFields_lookup_ne by exact Hne. reflexivity.
Qed.

Lemma accepted_fields evs ts : accepted (fields evs ++ ts) = evs ++ accepted ts.
Proof.
  induction evs as [|ev evs IH]; [reflexivity|].
  cbn. rewrite <- IH. reflexivity.
Qed.

(** X3: the order in which field events with pairwise distinct names
    arrive does not matter to what the properties of a body read: after two
    runs that start with the same fields in different orders and continue
    alike, every property of every request reads the same in both stores.
    (The order of the keys of the body, which follows the order of arrival,
    is not part of the statement.) *)
Theorem parseField_distinct_fields_commute req evs evs' ts h :
  NoDup (fieldname <$> evs) →
  evs ≡ₚ evs' →
  ∀ req' name,
    property req' name (parseField req (fields evs ++ ts) h).2
    = property req' name (parseField req (fields evs' ++ ts) h).2.
Proof.
  intros Hnd Hperm req' name. unfold parseField.
  destruct (parseField_run_any req initial (fields evs ++ ts) h eq_refl)
    as [_ ->].
  destruct (parseField_run_any req initial (fields evs' ++ ts) h eq_refl)
    as [_ ->].
  rewrite !accepted_fields, !foldl_app.
  rewrite (assignFields_permutation req evs evs' h Hnd Hperm). reflexivity.
Qed.

Lemma parseField_distinct_fields_commute_witness :
  property 1%positive "name"
    (parseField 1%positive (fields [field_name; field_age] ++ [finish])
       sample_store).2
  = property 1%positive "name"
      (parseField 1%positive (fields [field_age; field_name] ++ [finish])
         sample_store).2.
Proof.
  apply (parseField_distinct_fields_commute 1%positive
           [field_name; field_age] [field_age; field_name] [finish] sample_store).
  - apply (bool_decide_unpack _). vm_compute. exact I.
  - apply perm_swap.
Defined.

End MultipartProperties.

(** ** The HTTP listener *)

Section HttpProperties.
Import Http.

Variable resolve : Heap → ReqRef → option SubjectId.

Lemma heap_set_attached req res w :
  heap (set_response req res (set_send res (handleResponse res req) w))
  = attached req res (heap w).
Proof. reflexivity. Qed.

(** The handler, step by step. *)
Lemma httpServer_unfold req res w :
  httpServer resolve req res w
  = {| heap := attached req res (heap w);
       trace := trace w
                ++ [AssignSend res (handleResponse res req);
                    AssignResponse req res;
                    Resolve req;
                    match resolve (attached req res (heap w)) req with
                    | Some subject => SubjectNext subject req
                    | None => OutputSubjectNext req {| status := NOT_FOUND |}
                    end] |}.
Proof.
  unfold httpServer. cbn zeta. rewrite heap_set_attached.
  destruct (resolve (attached req res (heap w)) req);
    unfold log, set_response, set_send; cbn;
    rewrite <- !app_assoc; reflexivity.
Qed.

(** C7: on every call the handler first assigns [send] to the response
    and [response] to the request, then attempts the resolution, which
    reads the objects with both properties attached, and only then pushes
    the request or the not-found event; the assignments are made whether
    or not a route resolves. *)
Theorem httpServer_attaches_before_resolving req res w :
  let w' := httpServer resolve req res w in
  (∃ push,
      trace w' = trace w ++ [AssignSend res (handleResponse res req);
                             AssignResponse req res;
                             Resolve req; push]
      ∧ push = match resolve (heap w') req with
               | Some subject => SubjectNext subject req
               | None => OutputSubjectNext req {| status := NOT_FOUND |}
               end)
  ∧ responses (heap w') !! res
    = (λ _, {| send := Some (handleResponse res req) |})
        <$> responses (heap w) !! res
  ∧ requests (heap w') !! req
    = (λ r, {| method := method r; url := url r; response := Some res |})
        <$> requests (heap w) !! req.
Proof.
  cbn zeta. rewrite httpServer_unfold. cbn [heap trace].
  split; [|split].
  - eexists. split; reflexivity.
  - unfold attached. cbn. apply lookup_alter_eq.
  - unfold attached. cbn. apply lookup_alter_eq.
Qed.

(** C1: when the request does not resolve, the call pushes one event into
    the output subject, the not-found event of this request, and nothing
    into any route subject; of the stages behind the subjects only the
    output stage runs, neither the middleware chain nor any effect. *)
Theorem httpServer_unresolved_goes_to_output req res w :
  resolve (attached req res (heap w)) req = None →
  ∃ t, trace (httpServer resolve req res w) = trace w ++ t
       ∧ output_events t = [(req, {| status := NOT_FOUND |})]
       ∧ route_events t = []
       ∧ invoked t = [OutputStage]
       ∧ (MiddlewareChain ∉ invoked t)
       ∧ (∀ subject, RouteEffect subject ∉ invoked t).
Proof.
  intros Hnone. rewrite httpServer_unfold, Hnone. cbn [trace].
  eexists. split; [reflexivity|].
  split; [reflexivity|]. split; [reflexivity|]. split; [reflexivity|].
  cbn. split.
  - intros Hin. apply list_elem_of_singleton in Hin. discriminate Hin.
  - intros subject Hin. apply list_elem_of_singleton in Hin. discriminate Hin.
Qed.

(** *** The resolved request, several requests *)

(** X4: when the request resolves to the subject of a route, the call
    pushes the request into that subject, once, and pushes nothing into the
    output subject: no not-found event is produced for it. *)
Theorem httpServer_resolved_goes_to_route req res w (subject : SubjectId) :
  resolve (attached req res (heap w)) req = Some subject →
  ∃ t, trace (httpServer resolve req res w) = trace w ++ t
       ∧ route_events t = [(subject, req)]
       ∧ output_events t = [].
Proof.
  intros Hsome. rewrite httpServer_unfold, Hsome. cbn [trace].
  eexists. split; [reflexivity|]. split; reflexivity.
Qed.

Lemma pushed_requests_app (t t' : list Action) :
  pushed_requests (t ++ t') = pushed_requests t ++ pushed_requests t'.
Proof. unfold pushed_requests. apply bind_app. Qed.

(** X6: over any sequence of calls every request is pushed into a subject
    exactly once, in the order of the calls, whether the requests before it
    resolved or not. *)
Theorem serve_pushes_each_request_once (calls : list (ReqRef * ResRef)) w :
  ∃ t, trace (serve resolve calls w) = trace w ++ t
       ∧ pushed_requests t = calls.*1
       ∧ length (route_events t) + length (output_events t) = length calls.
Proof.
  induction calls as [|[req res] calls IH] using rev_ind.
  - exists []. split; [symmetry; apply app_nil_r|]. split; reflexivity.
  - destruct IH as (t & Ht & Hpushed & Hlen).
    unfold serve in *. rewrite foldl_app. cbn [foldl fst snd].
    rewrite httpServer_unfold. cbn [trace]. rewrite Ht.
    eexists. split; [rewrite <- app_assoc; reflexivity|].
    rewrite pushed_requests_app, Hpushed, fmap_app.
    unfold route_events, output_events in *. rewrite !bind_app, !length_app.
    split.
    + f_equal. destruct (resolve _ req); reflexivity.
    + destruct (resolve _ req); cbn; lia.
Qed.

End HttpProperties.

Lemma httpServer_resolved_goes_to_route_witness :
  ∃ t, Http.trace (Http.httpServer Http.sample_resolve 3%positive 4%positive
                     Http.sample_root_world)
       = Http.trace Http.sample_root_world ++ t
       ∧ Http.route_events t = [(7%positive, 3%positive)]
       ∧ Http.output_events t = [].
Proof.
  exact (httpServer_resolved_goes_to_route Http.sample_resolve
           3%positive 4%positive Http.sample_root_world 7%positive eq_refl).
Defined.

Lemma httpServer_unresolved_goes_to_output_witness :
  ∃ t, Http.trace (Http.httpServer Http.sample_resolve 1%positive 2%positive
                     Http.sample_world)
       = Http.trace Http.sample_world ++ t
       ∧ Http.output_events t = [(1%positive, {| Http.status := Http.NOT_FOUND |})]
       ∧ Http.route_events t = []
       ∧ Http.invoked t = [Http.OutputStage]
       ∧ (Http.MiddlewareChain ∉ Http.invoked t)
       ∧ (∀ subject, Http.RouteEffect subject ∉ Http.invoked t).
Proof.
  exact (httpServer_unresolved_goes_to_output Http.sample_resolve
           1%positive 2%positive Http.sample_world eq_refl).
Defined.

(** ** The WebSocket listener *)

Section SubscriberProperties.
Import Js Rx.

(** A subscriber on any burst: [next] runs on the values in order, then
    [error] runs if the burst ends with an error. *)
Lemma notify_values {A S} (next : A → S → S) (error : JsError → S → S)
    (b : Batch A) (s : S) :
  notify next error b s
  = (match failure b with
     | Some e => error e (foldl (λ s v, next v s) s (values b))
     | None => foldl (λ s v, next v s) s (values b)
     end, terminates b).
Proof.
  revert s. induction b as [|[a|e|] b IH]; intros s; try reflexivity.
  cbn. apply IH.
Qed.

Lemma values_map_total {A B} (f : A → B) (b : Batch A) :
  values (map_batch (total f) b) = f <$> values b.
Proof.
  induction b as [|[a|e|] b IH]; try reflexivity.
  cbn. rewrite IH. reflexivity.
Qed.

Lemma failure_map_total {A B} (f : A → B) (b : Batch A) :
  failure (map_batch (total f) b) = failure b.
Proof. induction b as [|[a|e|] b IH]; try reflexivity. exact IH. Qed.

Lemma foldl_snoc_fmap {A B} (f : A → B) (vs : list A) (acc : list B) :
  foldl (λ acc v, acc ++ [f v]) acc vs = acc ++ (f <$> vs).
Proof.
  revert acc. induction vs as [|v vs IH]; intros acc.
  - symmetry. apply app_nil_r.
  - cbn. rewrite IH, <- app_assoc. reflexivity.
Qed.

End SubscriberProperties.

Section VerifyClientProperties.
Import Js Rx WebSocket.

Variable WsErrorEffect : Type.
Variable config : option (WebSocketListenerConfig WsErrorEffect).
Variable ask : ContextProvider.

(** The callbacks of [verifyClient] on a burst of booleans. *)
Lemma verify_notify (vs : list JsValue) (tail : Batch JsValue)
    (calls : list VerifyCall) :
  ends tail = true →
  (notify
     (λ isVerified calls, calls ++ [callback isVerified None None])
     (λ error calls,
        calls ++ [callback false (error_status error) (error_message error)])
     (map_batch (total Boolean) ((Next <$> vs) ++ tail)) calls).1
  = calls ++ ((λ v, callback (Boolean v) None None) <$> vs)
      ++ match tail with
         | Error e :: _ => [callback false (error_status e) (error_message e)]
         | _ => []
         end.
Proof.
  intros Hends. revert calls. induction vs as [|v vs IH]; intros calls.
  - destruct tail as [|[a|e|] tail]; try discriminate Hends; simpl;
      rewrite ?app_nil_r; reflexivity.
  - cbn [fmap list_fmap app map_batch total notify].
    change (list_fmap JsValue (Notification JsValue) Next vs) with (Next <$> vs).
    rewrite IH. cbn [fmap list_fmap]. rewrite <- !app_assoc. reflexivity.
Qed.

(** C3: the admission effect emits the values [vs] and then, if at all,
    terminates.  The callback is called once for each value with its
    truth value and neither status nor message, so with [false] alone for
    a falsy value and with [true] for a truthy one; when the effect
    terminates with a connection error the callback is called with
    [false] and the status and message of that error. *)
Theorem verifyClient_reports_admission (info : VerifyInfo)
    (vs : list JsValue) (tail : Batch JsValue) :
  on_subscribe (connection_ WsErrorEffect config (rx_of (JObject (req info)))
                  (createEffectContext ask None))
  = (Next <$> vs) ++ tail →
  ends tail = true →
  let calls := verifyClient WsErrorEffect config ask info in
  calls = ((λ v, callback (Boolean v) None None) <$> vs)
            ++ match tail with
               | Error e :: _ =>
                   [callback false (error_status e) (error_message e)]
               | _ => []
               end
  ∧ (∀ v, v ∈ vs → Boolean v = false → callback false None None ∈ calls)
  ∧ (∀ v, v ∈ vs → Boolean v = true → callback true None None ∈ calls)
  ∧ (∀ message status rest,
       tail = Error (WebSocketConnectionError message status) :: rest →
       callback false (Some status) (Some message) ∈ calls).
Proof.
  intros Hburst Hends calls.
  assert (Hcalls : calls
            = ((λ v, callback (Boolean v) None None) <$> vs)
                ++ match tail with
                   | Error e :: _ =>
                       [callback false (error_status e) (error_message e)]
                   | _ => []
                   end).
  { subst calls. unfold verifyClient. cbn [on_subscribe map].
    rewrite Hburst. rewrite (verify_notify vs tail [] Hends). reflexivity. }
  split; [exact Hcalls|]. rewrite Hcalls.
  split; [|split].
  - intros v Hv Hfalse. apply elem_of_app. left.
    apply list_elem_of_fmap. exists v. rewrite Hfalse. split; [reflexivity|assumption].
  - intros v Hv Htrue. apply elem_of_app. left.
    apply list_elem_of_fmap. exists v. rewrite Htrue. split; [reflexivity|assumption].
  - intros message status rest ->. apply elem_of_app. right.
    apply list_elem_of_singleton. reflexivity.
Qed.

(** C9: without a configured admission effect [connection$] is the
    identity, the request object it passes on is truthy, and the callback
    is called once, with [true]. *)
Theorem verifyClient_accepts_by_default (info : VerifyInfo) :
  config ≫= cfg_connection_ = None →
  (∀ req_ ctx, connection_ WsErrorEffect config req_ ctx = req_)
  ∧ Boolean (JObject (req info)) = true
  ∧ verifyClient WsErrorEffect config ask info = [callback true None None].
Proof.
  intros Hnone.
  assert (Hid : ∀ req_ ctx, connection_ WsErrorEffect config req_ ctx = req_).
  { intros req_ ctx. unfold connection_. rewrite Hnone. reflexivity. }
  split; [exact Hid|]. split; [reflexivity|].
  unfold verifyClient. rewrite Hid. reflexivity.
Qed.

(** X15: whatever the admission effect delivers, [verifyClient] calls its
    callback once for each value delivered before the stream terminates,
    with the truth value alone, and once more, last, when the stream fails,
    with [false] and the status and message of the error.  So an admission
    stream that completes, or stays silent, without a value leaves the
    upgrade unanswered, and an error that has no status rejects with an
    unspecified status and its message. *)
Theorem verifyClient_calls_of_any_admission (info : VerifyInfo) :
  let b := on_subscribe (connection_ WsErrorEffect config (rx_of (JObject (req info)))
                           (createEffectContext ask None)) in
  let calls := verifyClient WsErrorEffect config ask info in
  calls = ((λ v, callback (Boolean v) None None) <$> values b)
            ++ match failure b with
               | Some e => [callback false (error_status e) (error_message e)]
               | None => []
               end
  ∧ (values b = [] → failure b = None → calls = [])
  ∧ (∀ m, failure b = Some (OtherError m) →
          last calls = Some (callback false None (Some m))).
Proof.
  intros b calls.
  assert (Hcalls : calls
            = ((λ v, callback (Boolean v) None None) <$> values b)
                ++ match failure b with
                   | Some e => [callback false (error_status e) (error_message e)]
                   | None => []
                   end).
  { subst calls b. unfold verifyClient. cbn [on_subscribe map].
    rewrite notify_values, values_map_total, failure_map_total.
    rewrite (foldl_snoc_fmap (λ isVerified, callback isVerified None None)).
    rewrite <- list_fmap_compose. cbn [app].
    destruct (failure _); cbn [fst]; [reflexivity|].
    symmetry. apply app_nil_r. }
  split; [exact Hcalls|]. rewrite Hcalls. split.
  - intros -> ->. reflexivity.
  - intros m ->. apply last_snoc.
Qed.

End VerifyClientProperties.

Lemma verifyClient_reports_admission_witness :
  let calls :=
    WebSocket.verifyClient unit
      (Some (WebSocket.Sample.with_admission WebSocket.Sample.deny))
      WebSocket.Sample.ask WebSocket.Sample.upgrade in
  calls = ((λ v, WebSocket.callback (Js.Boolean v) None None) <$> [Js.JBool false])
            ++ []
  ∧ (∀ v, v ∈ [Js.JBool false] → Js.Boolean v = false →
          WebSocket.callback false None None ∈ calls)
  ∧ (∀ v, v ∈ [Js.JBool false] → Js.Boolean v = true →
          WebSocket.callback true None None ∈ calls)
  ∧ (∀ message status rest,
       ([Rx.Complete] : Rx.Batch Js.JsValue)
       = Rx.Error (Js.WebSocketConnectionError message status) :: rest →
       WebSocket.callback false (Some status) (Some message) ∈ calls).
Proof.
  exact (verifyClient_reports_admission unit
           (Some (WebSocket.Sample.with_admission WebSocket.Sample.deny))
           WebSocket.Sample.ask WebSocket.Sample.upgrade
           [Js.JBool false] [Rx.Complete] eq_refl eq_refl).
Defined.

Lemma verifyClient_accepts_by_default_witness :
  (∀ req_ ctx, WebSocket.connection_ unit None req_ ctx = req_)
  ∧ Js.Boolean (Js.JObject (WebSocket.req WebSocket.Sample.upgrade)) = true
  ∧ WebSocket.verifyClient unit None WebSocket.Sample.ask WebSocket.Sample.upgrade
    = [WebSocket.callback true None None].
Proof.
  exact (verifyClient_accepts_by_default unit None WebSocket.Sample.ask
           WebSocket.Sample.upgrade eq_refl).
Defined.
Section ConnectionProperties.
Import Js Rx WebSocket.

Variable WsErrorEffect : Type.
Variable config : option (WebSocketListenerConfig WsErrorEffect).
Variable ask : ContextProvider.
Variable combineMiddlewares : list WsMiddlewareEffect → WsMiddlewareEffect.
Variable combineEffects : list WsEffect → WsEffect.
Variable jsonTransformer : EventTransformer.

Local Abbreviation ctx := (WebSocket.ctx ask).
Local Abbreviation eventSubject_next := (WebSocket.eventSubject_next ask).
Local Abbreviation incomingEventSubject_next :=
  (WebSocket.incomingEventSubject_next ask).
Local Abbreviation handleEffectsError := (WebSocket.handleEffectsError ask).
Local Abbreviation subscribeMiddlewares := (WebSocket.subscribeMiddlewares ask).
Local Abbreviation subscribeEffects := (WebSocket.subscribeEffects ask).
Local Abbreviation middlewares_ :=
  (WebSocket.middlewares_ WsErrorEffect config ask combineMiddlewares
     jsonTransformer).
Local Abbreviation effects_ :=
  (WebSocket.effects_ WsErrorEffect config ask combineEffects).
Local Abbreviation effectsOutput_ :=
  (WebSocket.effectsOutput_ WsErrorEffect config ask combineEffects).
Local Abbreviation onMessage :=
  (WebSocket.onMessage WsErrorEffect config ask combineMiddlewares
     combineEffects jsonTransformer).
Local Abbreviation handleMessage :=
  (WebSocket.handleMessage WsErrorEffect config ask combineMiddlewares
     combineEffects jsonTransformer).
Local Abbreviation emit_message :=
  (WebSocket.emit_message WsErrorEffect config ask combineMiddlewares
     combineEffects jsonTransformer).

Implicit Types (c : Connection) (client : ClientRef) (p : Pipeline)
  (event : WebSocketData).

(** *** After the close event *)

Lemma emit_message_detached client event c :
  message_listener c = false → emit_message client event c = c.
Proof. intros H. unfold WebSocket.emit_message. rewrite H. reflexivity. Qed.

Lemma emit_messages_detached client (after : list WebSocketData) c :
  message_listener c = false →
  foldl (λ c event, emit_message client event c) c after = c.
Proof.
  intros H. induction after as [|event after IH]; [reflexivity|].
  simpl. rewrite emit_message_detached by assumption. exact IH.
Qed.

(** C6: when the close event fires the handler removes the message
    listener and unsubscribes both subscriptions; the frames that arrive
    afterwards find no listener, so that the connection stays as the
    handler left it and none of them is pushed into the incoming subject. *)
Theorem close_detaches_listener_and_unsubscribes client c
    (after : list WebSocketData) :
  close_listener c = true →
  let c' := emit_close c in
  trace c' = trace c ++ [RemoveMessageListener; Unsubscribe Inbound;
                         Unsubscribe Outbound]
  ∧ message_listener c' = false
  ∧ closed (middlewaresSub c') = true
  ∧ closed (effectsSub c') = true
  ∧ foldl (λ c event, emit_message client event c) c' after = c'
  ∧ forwarded (trace (foldl (λ c event, emit_message client event c) c' after))
    = forwarded (trace c).
Proof.
  intros Hclose c'.
  assert (Htrace : trace c' = trace c ++ [RemoveMessageListener;
                                          Unsubscribe Inbound;
                                          Unsubscribe Outbound]).
  { subst c'. unfold emit_close. rewrite Hclose. cbn.
    rewrite <- !app_assoc. reflexivity. }
  assert (Hoff : message_listener c' = false).
  { subst c'. unfold emit_close. rewrite Hclose. reflexivity. }
  split; [exact Htrace|]. split; [exact Hoff|].
  split; [subst c'; unfold emit_close; rewrite Hclose; reflexivity|].
  split; [subst c'; unfold emit_close; rewrite Hclose; reflexivity|].
  rewrite (emit_messages_detached client after c' Hoff).
  split; [reflexivity|].
  rewrite Htrace. unfold forwarded. rewrite bind_app. cbn.
  apply app_nil_r.
Qed.

(** *** Counting in traces *)

Lemma count_app (f : Action → bool) (t t' : list Action) :
  count f (t ++ t') = count f t + count f t'.
Proof. unfold count. rewrite List.filter_app, length_app. reflexivity. Qed.

Lemma count_snoc (f : Action → bool) (t : list Action) (a : Action) :
  count f (t ++ [a]) = count f t + (if f a then 1 else 0).
Proof. rewrite count_app. unfold count. cbn. destruct (f a); reflexivity. Qed.

Lemma errors_log p a c :
  errors p (log a c) = errors p c + (if is_error_report p a then 1 else 0).
Proof. apply count_snoc. Qed.

Lemma subscriptions_log p a c :
  subscriptions p (log a c)
  = subscriptions p c + (if is_subscribe p a then 1 else 0).
Proof. apply count_snoc. Qed.

Lemma closings_log a c :
  closings (log a c) = closings c + (if is_closing a then 1 else 0).
Proof. apply count_snoc. Qed.

(** *** The relations between connections *)

Lemma quiet_refl c : quiet c c.
Proof.
  repeat split. exists []. symmetry. apply app_nil_r.
Qed.

Lemma quiet_trans c1 c2 c3 : quiet c1 c2 → quiet c2 c3 → quiet c1 c3.
Proof.
  intros (Hm1 & Hc1 & [t1 Ht1] & Hk1) (Hm2 & Hc2 & [t2 Ht2] & Hk2).
  repeat split; try congruence.
  exists (t1 ++ t2). rewrite Ht2, Ht1, app_assoc. reflexivity.
Qed.

Lemma quiet_log a c : is_closing a = false → quiet c (log a c).
Proof.
  intros Ha. repeat split.
  - exists [a]. reflexivity.
  - rewrite closings_log, Ha. lia.
Qed.

Lemma quiet_set_effectsSub s c : quiet c (set_effectsSub s c).
Proof. repeat split. exists []. symmetry. apply app_nil_r. Qed.

Lemma quiet_set_middlewaresSub s c : quiet c (set_middlewaresSub s c).
Proof. repeat split. exists []. symmetry. apply app_nil_r. Qed.

Lemma writes_only_refl c : writes_only c c.
Proof. repeat split. apply quiet_refl. Qed.

Lemma writes_only_trans c1 c2 c3 :
  writes_only c1 c2 → writes_only c2 c3 → writes_only c1 c3.
Proof.
  intros (Hq1 & Hm1 & He1 & Hs1 & Hr1) (Hq2 & Hm2 & He2 & Hs2 & Hr2).
  split; [eapply quiet_trans; eassumption|].
  repeat split; try congruence.
Qed.

Lemma writes_only_sendResponse (e : Event) c :
  writes_only c (sendResponse e c).
Proof.
  unfold sendResponse. split; [apply quiet_log; reflexivity|].
  repeat split.
  - intros p. rewrite subscriptions_log. destruct p; cbn; lia.
  - intros p. rewrite errors_log. destruct p; cbn; lia.
Qed.

Lemma outbound_only_refl c : outbound_only c c.
Proof. repeat split; try lia. apply quiet_refl. Qed.

Lemma outbound_only_trans c1 c2 c3 :
  outbound_only c1 c2 → outbound_only c2 c3 → outbound_only c1 c3.
Proof.
  intros (Hq1 & Hm1 & Hs1 & Hi1 & Ho1 & Hop1 & Hsrc1 & Hn1)
         (Hq2 & Hm2 & Hs2 & Hi2 & Ho2 & Hop2 & Hsrc2 & Hn2).
  split; [eapply quiet_trans; eassumption|].
  repeat split; try congruence; try lia.
Qed.

Lemma delivers_refl c : delivers c c.
Proof. repeat split; try lia. apply quiet_refl. Qed.

Lemma delivers_trans c1 c2 c3 : delivers c1 c2 → delivers c2 c3 → delivers c1 c3.
Proof.
  intros (Hq1 & Hs1 & He1 & Hop1 & Hsrc1 & Hn1)
         (Hq2 & Hs2 & He2 & Hop2 & Hsrc2 & Hn2).
  split; [eapply quiet_trans; eassumption|].
  repeat split; try congruence.
  - intros p. specialize (He1 p). specialize (He2 p). lia.
  - intros p. specialize (Hop1 p). specialize (Hop2 p). lia.
Qed.

Lemma outbound_only_delivers c c' : outbound_only c c' → delivers c c'.
Proof.
  intros (Hq & Hm & Hs & Hi & Ho & Hop & Hsrc & Hn).
  split; [exact Hq|]. split; [exact Hs|].
  repeat split; try assumption.
  - intros [|]; [|exact Ho]. unfold open. rewrite Hm, Hi. lia.
  - intros [|]; [|exact Hop]. unfold open. rewrite Hm. lia.
Qed.

(** *** Subscribers *)

(** A subscriber whose [next] callback keeps a relation keeps it up to
    the end of the burst; the error callback, if it runs, runs last. *)
Lemma notify_rel {A S} (R : S → S → Prop) (next : A → S → S)
    (error : JsError → S → S) :
  (∀ s, R s s) →
  (∀ s1 s2 s3, R s1 s2 → R s2 s3 → R s1 s3) →
  (∀ a s, R s (next a s)) →
  ∀ (b : Batch A) s,
    ∃ s', R s s'
          ∧ (notify next error b s = (s', false)
             ∨ notify next error b s = (s', true)
             ∨ ∃ e, notify next error b s = (error e s', true)).
Proof.
  intros Hrefl Htrans Hnext b.
  induction b as [|[a|e|] b IH]; intros s; cbn.
  - exists s. split; [apply Hrefl|]. left. reflexivity.
  - destruct (IH (next a s)) as (s' & HR & Hcases).
    exists s'. split; [|exact Hcases].
    eapply Htrans; [apply Hnext|exact HR].
  - exists s. split; [apply Hrefl|]. right. right. exists e. reflexivity.
  - exists s. split; [apply Hrefl|]. right. left. reflexivity.
Qed.

(** The burst of values [vs] followed by the error [e]: the callbacks run
    on the values in order, then the error callback runs, once and last,
    and the subscription is closed. *)
Lemma notify_error {A S} (next : A → S → S) (error : JsError → S → S)
    (vs : list A) (e : JsError) (rest : Batch A) (s : S) :
  notify next error ((Next <$> vs) ++ Error e :: rest) s
  = (error e (foldl (λ s v, next v s) s vs), true).
Proof.
  revert s. induction vs as [|v vs IH]; intros s; [reflexivity|].
  cbn. apply IH.
Qed.

Lemma notify_outbound client (b : Batch Event) c :
  ∃ c', writes_only c c'
        ∧ (notify sendResponse (handleEffectsError client Outbound) b c
           = (c', false)
           ∨ notify sendResponse (handleEffectsError client Outbound) b c
             = (c', true)
           ∨ ∃ e, notify sendResponse (handleEffectsError client Outbound) b c
                  = (handleEffectsError client Outbound e c', true)).
Proof.
  apply notify_rel.
  - apply writes_only_refl.
  - apply writes_only_trans.
  - intros a s. apply writes_only_sendResponse.
Qed.

(** *** The deliveries *)

Lemma open_log p a c : open p (log a c) = open p c.
Proof. destruct p; reflexivity. Qed.

Lemma outbound_only_log a c :
  is_closing a = false →
  (∀ p, is_subscribe p a = false) →
  (∀ p, is_error_report p a = false) →
  outbound_only c (log a c).
Proof.
  intros Hc Hs He. split; [apply quiet_log; exact Hc|].
  split; [reflexivity|]. split.
  { intros p. rewrite subscriptions_log, Hs. lia. }
  split. { rewrite errors_log, He. lia. }
  split. { rewrite errors_log, He, open_log. lia. }
  split. { rewrite open_log. lia. }
  split; reflexivity.
Qed.

Lemma errors_set_effectsSub p s c : errors p (set_effectsSub s c) = errors p c.
Proof. reflexivity. Qed.

Lemma errors_set_middlewaresSub p s c :
  errors p (set_middlewaresSub s c) = errors p c.
Proof. reflexivity. Qed.

Lemma subscriptions_set_effectsSub p s c :
  subscriptions p (set_effectsSub s c) = subscriptions p c.
Proof. reflexivity. Qed.

Lemma subscriptions_set_middlewaresSub p s c :
  subscriptions p (set_middlewaresSub s c) = subscriptions p c.
Proof. reflexivity. Qed.

Lemma open_outbound_set_effectsSub s c :
  open Outbound (set_effectsSub s c) = if closed s then 0 else 1.
Proof. reflexivity. Qed.

Lemma open_inbound_set_effectsSub s c :
  open Inbound (set_effectsSub s c) = open Inbound c.
Proof. reflexivity. Qed.

Lemma open_inbound_set_middlewaresSub s c :
  open Inbound (set_middlewaresSub s c) = if closed s then 0 else 1.
Proof. reflexivity. Qed.

Lemma open_outbound_set_middlewaresSub s c :
  open Outbound (set_middlewaresSub s c) = open Outbound c.
Proof. reflexivity. Qed.

Lemma open_outbound_closed c :
  open Outbound c = if closed (effectsSub c) then 0 else 1.
Proof. reflexivity. Qed.

Lemma open_inbound_closed c :
  open Inbound c = if closed (middlewaresSub c) then 0 else 1.
Proof. reflexivity. Qed.

Ltac conn :=
  repeat first
    [ rewrite errors_log | rewrite subscriptions_log | rewrite closings_log
    | rewrite open_log
    | rewrite errors_set_effectsSub | rewrite errors_set_middlewaresSub
    | rewrite subscriptions_set_effectsSub
    | rewrite subscriptions_set_middlewaresSub
    | rewrite open_outbound_set_effectsSub
    | rewrite open_inbound_set_effectsSub
    | rewrite open_inbound_set_middlewaresSub
    | rewrite open_outbound_set_middlewaresSub ].

(** The outbound pipeline reacts to an event: the values are written to
    the socket; an error is reported and closes the subscription, a
    completion closes it. *)
Lemma react_outbound client (b : Batch Event) c :
  closed (effectsSub c) = false →
  outbound_only c
    (let '(c1, terminated) :=
       notify sendResponse (handleEffectsError client Outbound) b c in
     if terminated then set_effectsSub (close (effectsSub c1)) c1 else c1).
Proof.
  intros Hopen.
  assert (Hone : open Outbound c = 1).
  { rewrite open_outbound_closed, Hopen. reflexivity. }
  destruct (notify_outbound client b c)
    as (c' & (Hq & Hm & He & Hs & Hr) & [Hn|[Hn|[err Hn]]]); rewrite Hn.
  - split; [exact Hq|]. split; [exact Hm|]. split; [exact Hs|].
    split; [apply Hr|]. rewrite Hr, !open_outbound_closed, !He.
    split; [lia|]. split; [lia|]. split; reflexivity.
  - split; [eapply quiet_trans; [exact Hq|apply quiet_set_effectsSub]|].
    split; [exact Hm|]. split; [exact Hs|]. split; [apply Hr|].
    conn. rewrite Hr, Hone. cbn.
    split; [lia|]. split; [lia|]. rewrite He. split; reflexivity.
  - unfold WebSocket.handleEffectsError.
    split.
    { apply (quiet_trans _ c' _ Hq).
      apply (quiet_trans _ (log (HandleEffectsError Outbound (ctx client) err) c'));
        [apply quiet_log; reflexivity|apply quiet_set_effectsSub]. }
    split; [exact Hm|].
    split. { intros p. conn. rewrite Hs. destruct p; cbn; lia. }
    conn. rewrite !Hr, Hone. cbn.
    split; [lia|]. split; [lia|]. split; [lia|].
    rewrite He. split; reflexivity.
Qed.

Lemma eventSubject_next_outbound_only client (e : Event) c :
  outbound_only c (eventSubject_next client e c).
Proof.
  unfold WebSocket.eventSubject_next. cbn zeta.
  eapply outbound_only_trans.
  { apply (outbound_only_log (EventSubjectNext e)); intros; reflexivity. }
  generalize (log (EventSubjectNext e) c). clear c. intros c.
  destruct (closed (effectsSub c)) eqn:Hclosed; [apply outbound_only_refl|].
  eapply outbound_only_trans;
    [|apply (react_outbound client); cbn; exact Hclosed].
  split; [apply quiet_set_effectsSub|].
  split; [reflexivity|]. split; [reflexivity|]. split; [reflexivity|].
  conn. rewrite !open_outbound_closed. cbn. rewrite !Hclosed.
  split; [lia|]. split; [lia|]. split; reflexivity.
Qed.

Lemma notify_inbound client (b : Batch Event) c :
  ∃ c', outbound_only c c'
        ∧ (notify (eventSubject_next client) (handleEffectsError client Inbound) b c
           = (c', false)
           ∨ notify (eventSubject_next client) (handleEffectsError client Inbound) b c
             = (c', true)
           ∨ ∃ e, notify (eventSubject_next client)
                    (handleEffectsError client Inbound) b c
                  = (handleEffectsError client Inbound e c', true)).
Proof.
  apply notify_rel.
  - apply outbound_only_refl.
  - apply outbound_only_trans.
  - intros a s. apply eventSubject_next_outbound_only.
Qed.

Lemma delivers_close_middlewares c :
  delivers c (set_middlewaresSub (close (middlewaresSub c)) c).
Proof.
  split; [apply quiet_set_middlewaresSub|]. split; [reflexivity|].
  split. { intros [|]; conn; cbn; lia. }
  split. { intros [|]; conn; cbn; lia. }
  split; reflexivity.
Qed.

Lemma delivers_report_inbound client (e : JsError) c :
  closed (middlewaresSub c) = false →
  delivers c
    (set_middlewaresSub
       (close (middlewaresSub (handleEffectsError client Inbound e c)))
       (handleEffectsError client Inbound e c)).
Proof.
  intros Hopen. unfold WebSocket.handleEffectsError.
  split.
  { apply (quiet_trans _ (log (HandleEffectsError Inbound (ctx client) e) c));
      [apply quiet_log; reflexivity|apply quiet_set_middlewaresSub]. }
  split. { intros [|]; conn; cbn; lia. }
  split. { intros [|]; conn; rewrite ?open_inbound_closed, ?Hopen; cbn; lia. }
  split. { intros [|]; conn; cbn; lia. }
  split; reflexivity.
Qed.

(** The inbound pipeline reacts to a frame. *)
Lemma react_inbound client (b : Batch Event) c :
  closed (middlewaresSub c) = false →
  delivers c
    (let '(c1, terminated) :=
       notify (eventSubject_next client) (handleEffectsError client Inbound) b c in
     if terminated then set_middlewaresSub (close (middlewaresSub c1)) c1
     else c1).
Proof.
  intros Hopen.
  destruct (notify_inbound client b c)
    as (c' & Hout & [Hn|[Hn|[err Hn]]]); rewrite Hn.
  - apply outbound_only_delivers. exact Hout.
  - eapply delivers_trans; [apply outbound_only_delivers; exact Hout|].
    apply delivers_close_middlewares.
  - eapply delivers_trans; [apply outbound_only_delivers; exact Hout|].
    apply delivers_report_inbound.
    destruct Hout as (_ & Hm & _). rewrite Hm. exact Hopen.
Qed.

Lemma incomingEventSubject_next_delivers client event c :
  delivers c (incomingEventSubject_next client event c).
Proof.
  unfold WebSocket.incomingEventSubject_next. cbn zeta.
  eapply delivers_trans.
  { apply outbound_only_delivers.
    apply (outbound_only_log (IncomingEventSubjectNext event));
      intros; reflexivity. }
  generalize (log (IncomingEventSubjectNext event) c). clear c. intros c.
  destruct (closed (middlewaresSub c)) eqn:Hclosed; [apply delivers_refl|].
  eapply delivers_trans;
    [|apply (react_inbound client); cbn; exact Hclosed].
  split; [apply quiet_set_middlewaresSub|]. split; [reflexivity|].
  split. { intros [|]; conn; rewrite ?open_inbound_closed; cbn; lia. }
  split. { intros [|]; conn; rewrite ?open_inbound_closed; cbn; lia. }
  split; reflexivity.
Qed.

(** *** Subscribing *)

Lemma subscribeMiddlewares_spec client (src : Source)
    (o : Observable WebSocketData Event) c :
  ∃ c1 sub,
    subscribeMiddlewares client src o c = (c1, sub)
    ∧ quiet c c1
    ∧ middlewaresSub c1 = middlewaresSub c
    ∧ subscriptions Inbound c1 = subscriptions Inbound c + 1
    ∧ subscriptions Outbound c1 = subscriptions Outbound c
    ∧ errors Inbound c1 + (if closed sub then 0 else 1) ≤ errors Inbound c + 1
    ∧ errors Outbound c1 + open Outbound c1 ≤ errors Outbound c + open Outbound c
    ∧ open Outbound c1 ≤ open Outbound c
    ∧ source (effectsSub c1) = source (effectsSub c)
    ∧ subscribed_to (effectsSub c1) = subscribed_to (effectsSub c).
Proof.
  unfold WebSocket.subscribeMiddlewares. cbn zeta.
  destruct (notify_inbound client (on_subscribe o) (log (Subscribe Inbound src) c))
    as (c' & (Hq & Hm & Hs & Hi & Ho & Hop & Hsrc & Hn) & Hcases).
  assert (Hq0 : quiet c c')
    by (eapply quiet_trans; [|exact Hq]; apply quiet_log; reflexivity).
  pose proof (Hs Inbound) as HsI. pose proof (Hs Outbound) as HsO.
  revert Hm HsI HsO Hi Ho Hop Hsrc Hn. conn. cbn.
  intros Hm HsI HsO Hi Ho Hop Hsrc Hn.
  destruct Hcases as [Hc|[Hc|[e Hc]]]; rewrite Hc.
  - eexists _, _. split; [reflexivity|]. split; [exact Hq0|]. cbn.
    repeat split; try assumption; try lia.
  - eexists _, _. split; [reflexivity|]. split; [exact Hq0|]. cbn.
    repeat split; try assumption; try lia.
  - eexists _, _. split; [reflexivity|].
    unfold WebSocket.handleEffectsError.
    split.
    { eapply quiet_trans; [exact Hq0|apply quiet_log; reflexivity]. }
    conn. cbn. repeat split; try assumption; try lia.
Qed.

Lemma subscribeEffects_spec client (src : Source) (o : Observable Event Event) c :
  ∃ c1 sub,
    subscribeEffects client src o c = (c1, sub)
    ∧ quiet c c1
    ∧ middlewaresSub c1 = middlewaresSub c
    ∧ effectsSub c1 = effectsSub c
    ∧ subscriptions Outbound c1 = subscriptions Outbound c + 1
    ∧ subscriptions Inbound c1 = subscriptions Inbound c
    ∧ errors Inbound c1 = errors Inbound c
    ∧ errors Outbound c1 + (if closed sub then 0 else 1) ≤ errors Outbound c + 1
    ∧ source sub = o
    ∧ subscribed_to sub = src.
Proof.
  unfold WebSocket.subscribeEffects. cbn zeta.
  destruct (notify_outbound client (on_subscribe o) (log (Subscribe Outbound src) c))
    as (c' & (Hq & Hm & He & Hs & Hr) & Hcases).
  assert (Hq0 : quiet c c')
    by (eapply quiet_trans; [|exact Hq]; apply quiet_log; reflexivity).
  pose proof (Hs Inbound) as HsI. pose proof (Hs Outbound) as HsO.
  pose proof (Hr Inbound) as HrI. pose proof (Hr Outbound) as HrO.
  revert Hm He HsI HsO HrI HrO. conn. cbn.
  intros Hm He HsI HsO HrI HrO.
  destruct Hcases as [Hc|[Hc|[e Hc]]]; rewrite Hc.
  - eexists _, _. split; [reflexivity|]. split; [exact Hq0|]. cbn.
    repeat split; try assumption; try lia.
  - eexists _, _. split; [reflexivity|]. split; [exact Hq0|]. cbn.
    repeat split; try assumption; try lia.
  - eexists _, _. split; [reflexivity|].
    unfold WebSocket.handleEffectsError.
    split.
    { eapply quiet_trans; [exact Hq0|apply quiet_log; reflexivity]. }
    conn. cbn. repeat split; try assumption; try lia.
Qed.

(** *** One frame *)

Lemma serves_trans c1 c2 c3 : serves c1 c2 → serves c2 c3 → serves c1 c3.
Proof.
  intros (Hq1 & Hs1 & He1) (Hq2 & Hs2 & He2).
  split; [eapply quiet_trans; eassumption|]. split.
  - intros p. specialize (Hs1 p). specialize (Hs2 p). lia.
  - intros p. specialize (He1 p). specialize (He2 p). lia.
Qed.

Lemma delivers_serves c c' : delivers c c' → serves c c'.
Proof.
  intros (Hq & Hs & He & _). split; [exact Hq|]. split.
  - intros p. rewrite Hs. lia.
  - intros p. rewrite Hs. specialize (He p). lia.
Qed.

(** [if (middlewaresSub.closed) { middlewaresSub = subscribeMiddlewares(middlewares$); }] *)
Lemma resubscribe_inbound client c :
  serves c
    (if closed (middlewaresSub c)
     then let '(c0, sub) :=
            subscribeMiddlewares client Src_middlewares (middlewares_ client) c in
          set_middlewaresSub sub c0
     else c)
  ∧ subscriptions Inbound
      (if closed (middlewaresSub c)
       then let '(c0, sub) :=
              subscribeMiddlewares client Src_middlewares (middlewares_ client) c in
            set_middlewaresSub sub c0
       else c)
    = subscriptions Inbound c + (1 - open Inbound c)
  ∧ subscriptions Outbound
      (if closed (middlewaresSub c)
       then let '(c0, sub) :=
              subscribeMiddlewares client Src_middlewares (middlewares_ client) c in
            set_middlewaresSub sub c0
       else c)
    = subscriptions Outbound c
  ∧ open Outbound
      (if closed (middlewaresSub c)
       then let '(c0, sub) :=
              subscribeMiddlewares client Src_middlewares (middlewares_ client) c in
            set_middlewaresSub sub c0
       else c)
    ≤ open Outbound c.
Proof.
  rewrite (open_inbound_closed c).
  destruct (closed (middlewaresSub c)) eqn:Hclosed.
  - destruct (subscribeMiddlewares_spec client Src_middlewares
                (middlewares_ client) c)
      as (c1 & sub & Heq & Hq & Hm & HsI & HsO & HeI & HeO & Hop & _).
    rewrite Heq. conn.
    split; [|split; [lia|split; [lia|exact Hop]]].
    split; [eapply quiet_trans; [exact Hq|apply quiet_set_middlewaresSub]|].
    split.
    + intros [|]; conn; lia.
    + intros [|]; conn; rewrite ?open_inbound_closed, ?Hclosed; lia.
  - split; [|split; [lia|split; [lia|lia]]].
    apply delivers_serves, delivers_refl.
Qed.

(** [if (effectsSub.closed) { effectsSub = subscribeEffects(effects$); }] *)
Lemma resubscribe_outbound client c :
  serves c
    (if closed (effectsSub c)
     then let '(c0, sub) :=
            subscribeEffects client Src_effects (effects_ client) c in
          set_effectsSub sub c0
     else c)
  ∧ subscriptions Outbound
      (if closed (effectsSub c)
       then let '(c0, sub) :=
              subscribeEffects client Src_effects (effects_ client) c in
            set_effectsSub sub c0
       else c)
    = subscriptions Outbound c + (1 - open Outbound c)
  ∧ subscriptions Inbound
      (if closed (effectsSub c)
       then let '(c0, sub) :=
              subscribeEffects client Src_effects (effects_ client) c in
            set_effectsSub sub c0
       else c)
    = subscriptions Inbound c
  ∧ (open Outbound c = 0 →
     source (effectsSub
               (if closed (effectsSub c)
                then let '(c0, sub) :=
                       subscribeEffects client Src_effects (effects_ client) c in
                     set_effectsSub sub c0
                else c))
     = effects_ client
     ∧ subscribed_to (effectsSub
                        (if closed (effectsSub c)
                         then let '(c0, sub) :=
                                subscribeEffects client Src_effects
                                  (effects_ client) c in
                              set_effectsSub sub c0
                         else c))
       = Src_effects).
Proof.
  rewrite (open_outbound_closed c).
  destruct (closed (effectsSub c)) eqn:Hclosed.
  - destruct (subscribeEffects_spec client Src_effects (effects_ client) c)
      as (c1 & sub & Heq & Hq & Hm & He & HsO & HsI & HeI & HeO & Hsrc & Hname).
    rewrite Heq. conn.
    split; [|split; [lia|split; [lia|intros _; split; assumption]]].
    split; [eapply quiet_trans; [exact Hq|apply quiet_set_effectsSub]|].
    split.
    + intros [|]; conn; lia.
    + intros [|]; conn; rewrite ?open_outbound_closed, ?open_inbound_closed,
                          ?Hclosed, ?Hm; lia.
  - split; [|split; [lia|split; [lia|intros H; discriminate H]]].
    apply delivers_serves, delivers_refl.
Qed.

(** A frame: every error report gives up a subscription, and a pipeline
    that had none gets one, the outbound one from [effects$]. *)
Lemma onMessage_serves client event c :
  serves c (onMessage client event c)
  ∧ (∀ p, open p c = 0 →
          subscriptions p (onMessage client event c) = subscriptions p c + 1)
  ∧ (open Outbound c = 0 →
     source (effectsSub (onMessage client event c)) = effects_ client
     ∧ subscribed_to (effectsSub (onMessage client event c)) = Src_effects).
Proof.
  unfold WebSocket.onMessage. cbn zeta.
  destruct (resubscribe_inbound client c) as (Hv1 & HsI1 & HsO1 & Hop1).
  set (c1 := if closed (middlewaresSub c) then _ else c) in *.
  destruct (resubscribe_outbound client c1) as (Hv2 & HsO2 & HsI2 & Hsrc2).
  set (c2 := if closed (effectsSub c1) then _ else c1) in *.
  pose proof (incomingEventSubject_next_delivers client event c2) as Hd.
  pose proof Hd as (Hq3 & Hs3 & He3 & Hop3 & Hsrc3 & Hn3).
  split; [|split].
  - eapply serves_trans; [exact Hv1|].
    eapply serves_trans; [exact Hv2|].
    apply delivers_serves. exact Hd.
  - intros [|] Hnone; rewrite Hs3.
    + rewrite HsI2, HsI1, Hnone. lia.
    + rewrite HsO2, HsO1. lia.
  - intros Hnone. rewrite Hsrc3, Hn3. apply Hsrc2. lia.
Qed.

(** *** An error, at the moment it occurs *)

Lemma sendResponses (vs : list Event) c :
  trace (foldl (λ c v, sendResponse v c) c vs) = trace c ++ (SendResponse <$> vs)
  ∧ effectsSub (foldl (λ c v, sendResponse v c) c vs) = effectsSub c.
Proof.
  revert c. induction vs as [|v vs IH]; intros c.
  - split; [symmetry; apply app_nil_r|reflexivity].
  - destruct (IH (sendResponse v c)) as [Ht He]. cbn [foldl].
    rewrite Ht, He. split; [|reflexivity].
    cbn. rewrite <- app_assoc. reflexivity.
Qed.

Lemma eventSubject_nexts_outbound_only client (vs : list Event) c :
  outbound_only c (foldl (λ c v, eventSubject_next client v c) c vs).
Proof.
  revert c. induction vs as [|v vs IH]; intros c; [apply outbound_only_refl|].
  eapply outbound_only_trans; [apply eventSubject_next_outbound_only|apply IH].
Qed.

Lemma eventSubject_next_error client (ev : Event) (vs : list Event)
    (e : JsError) (rest : Batch Event) c :
  closed (effectsSub c) = false →
  on_next (source (effectsSub c)) (history (effectsSub c)) ev
  = (Next <$> vs) ++ Error e :: rest →
  trace (eventSubject_next client ev c)
  = trace c ++ EventSubjectNext ev :: (SendResponse <$> vs)
      ++ [HandleEffectsError Outbound (ctx client) e]
  ∧ closed (effectsSub (eventSubject_next client ev c)) = true.
Proof.
  intros Hopen Hburst. unfold WebSocket.eventSubject_next. cbn zeta.
  cbn [effectsSub log]. rewrite Hopen, Hburst, notify_error.
  split; [|reflexivity].
  cbn [trace set_effectsSub WebSocket.handleEffectsError log].
  destruct (sendResponses vs
              (set_effectsSub (record_input ev (effectsSub c))
                 (log (EventSubjectNext ev) c))) as [Ht _].
  rewrite Ht. cbn. rewrite <- !app_assoc. reflexivity.
Qed.

Lemma incomingEventSubject_next_error client event (vs : list Event)
    (e : JsError) (rest : Batch Event) c :
  closed (middlewaresSub c) = false →
  on_next (source (middlewaresSub c)) (history (middlewaresSub c)) event
  = (Next <$> vs) ++ Error e :: rest →
  (∃ t, trace (incomingEventSubject_next client event c)
        = trace c ++ t ++ [HandleEffectsError Inbound (ctx client) e]
        ∧ count (is_error_report Inbound) t = 0)
  ∧ closed (middlewaresSub (incomingEventSubject_next client event c)) = true.
Proof.
  intros Hopen Hburst. unfold WebSocket.incomingEventSubject_next. cbn zeta.
  cbn [middlewaresSub log]. rewrite Hopen, Hburst, notify_error.
  split; [|reflexivity].
  cbn [trace set_middlewaresSub WebSocket.handleEffectsError log].
  set (c0 := set_middlewaresSub (record_input event (middlewaresSub c))
               (log (IncomingEventSubjectNext event) c)).
  destruct (eventSubject_nexts_outbound_only client vs c0)
    as ((_ & _ & [t Ht] & _) & _ & _ & Hi & _).
  exists (IncomingEventSubjectNext event :: t). split.
  - rewrite Ht. subst c0. cbn. rewrite <- !app_assoc. reflexivity.
  - unfold errors in Hi. rewrite Ht, count_app in Hi.
    change (count (is_error_report Inbound) t = 0). lia.
Qed.

(** *** The life of a connection, from [handleMessage] to the close event *)

(** When [handleMessage] returns both listeners are registered, and each
    pipeline has been subscribed once. *)
Lemma handleMessage_registers client :
  message_listener (handleMessage client) = true
  ∧ close_listener (handleMessage client) = true
  ∧ closings (handleMessage client) = 0
  ∧ ∀ p, subscriptions p (handleMessage client) = 1
         ∧ errors p (handleMessage client) + open p (handleMessage client) ≤ 1.
Proof.
  unfold WebSocket.handleMessage. cbn zeta.
  set (c0 := {| middlewaresSub := unsubscribed Src_middlewares (middlewares_ client);
                effectsSub := unsubscribed Src_effectsOutput (effectsOutput_ client);
                message_listener := false; close_listener := false;
                trace := [] |}).
  destruct (subscribeMiddlewares_spec client Src_middlewares (middlewares_ client) c0)
    as (c1 & sub1 & Heq1 & Hq1 & Hm1 & HsI1 & HsO1 & HeI1 & HeO1 & Hop1 & _).
  rewrite Heq1.
  destruct (subscribeEffects_spec client Src_effectsOutput (effectsOutput_ client)
              (set_middlewaresSub sub1 c1))
    as (c2 & sub2 & Heq2 & Hq2 & Hm2 & He2 & HsO2 & HsI2 & HeI2 & HeO2 & _).
  rewrite Heq2.
  destruct Hq1 as (_ & _ & _ & Hk1). destruct Hq2 as (_ & _ & _ & Hk2).
  revert HsO2 HsI2 HeI2 HeO2 Hk2. conn. intros HsO2 HsI2 HeI2 HeO2 Hk2.
  change (subscriptions Inbound c0) with 0 in HsI1.
  change (subscriptions Outbound c0) with 0 in HsO1.
  change (errors Inbound c0) with 0 in HeI1.
  change (errors Outbound c0 + open Outbound c0) with 0 in HeO1.
  change (closings c0) with 0 in Hk1.
  change (closings (set_middlewaresSub sub1 c1)) with (closings c1) in Hk2.
  split; [reflexivity|]. split; [reflexivity|].
  split; [change (closings c2 = 0); lia|].
  intros [|].
  - change (subscriptions Inbound c2 = 1
            ∧ errors Inbound c2 + (if closed (middlewaresSub c2) then 0 else 1) ≤ 1).
    rewrite Hm2. cbn [middlewaresSub set_middlewaresSub]. lia.
  - change (subscriptions Outbound c2 = 1
            ∧ errors Outbound c2 + (if closed sub2 then 0 else 1) ≤ 1).
    lia.
Qed.

(** As long as only frames arrive, the listeners stay registered, nothing
    of [onClose] happens, and every error report of a pipeline has given up
    a subscription of that pipeline. *)
Lemma connection_stays_up client (frames : list WebSocketData) :
  let c := foldl (λ c event, emit_message client event c) (handleMessage client)
             frames in
  message_listener c = true
  ∧ close_listener c = true
  ∧ closings c = 0
  ∧ ∀ p, errors p c + open p c ≤ subscriptions p c.
Proof.
  induction frames as [|event frames IH] using rev_ind.
  - destruct (handleMessage_registers client) as (Hm & Hc & Hk & Hp).
    cbn. split; [exact Hm|]. split; [exact Hc|]. split; [exact Hk|].
    intros p. destruct (Hp p). lia.
  - cbn zeta in IH |- *. rewrite foldl_app. cbn [foldl].
    destruct IH as (Hm & Hc & Hk & Hp).
    set (c := foldl (λ c event, emit_message client event c)
                (handleMessage client) frames) in *.
    replace (emit_message client event c) with (onMessage client event c)
      by (unfold WebSocket.emit_message; rewrite Hm; reflexivity).
    match goal with
    | |- context [onMessage client event ?c] =>
        destruct (onMessage_serves client event c)
          as (((Hm' & Hc' & _ & Hk') & Hs' & He') & _)
    end.
    split; [congruence|]. split; [congruence|]. split; [congruence|].
    intros p. specialize (Hp p). specialize (He' p). specialize (Hs' p). lia.
Qed.

(** The close event after any frames: the listener of the close event is
    still registered, so the handler runs, and what arrives afterwards is
    not forwarded. *)
Lemma close_after_any_frames client (before after : list WebSocketData) :
  let c := foldl (λ c event, emit_message client event c) (handleMessage client)
             before in
  message_listener (emit_close c) = false
  ∧ closed (middlewaresSub (emit_close c)) = true
  ∧ closed (effectsSub (emit_close c)) = true
  ∧ foldl (λ c event, emit_message client event c) (emit_close c) after
    = emit_close c.
Proof.
  intros c.
  destruct (connection_stays_up client before) as (_ & Hclose & _).
  fold c in Hclose. unfold emit_close. rewrite Hclose.
  split; [reflexivity|]. split; [reflexivity|]. split; [reflexivity|].
  apply emit_messages_detached. reflexivity.
Qed.

(** A subscription of the outbound pipeline that is closed when a frame
    arrives is replaced, once, by a subscription to [effects$]. *)
Lemma onMessage_resubscribes_to_effects client event c :
  closed (effectsSub c) = true →
  source (effectsSub (onMessage client event c)) = effects_ client
  ∧ subscribed_to (effectsSub (onMessage client event c)) = Src_effects
  ∧ subscriptions Outbound (onMessage client event c)
    = subscriptions Outbound c + 1.
Proof.
  intros Hclosed.
  assert (Hnone : open Outbound c = 0)
    by (rewrite open_outbound_closed, Hclosed; reflexivity).
  destruct (onMessage_serves client event c) as (_ & Hsub & Hsrc).
  destruct (Hsrc Hnone) as [H1 H2].
  split; [exact H1|]. split; [exact H2|]. apply Hsub. exact Hnone.
Qed.

(** *** What a pipeline makes of a value *)

Local Abbreviation decodedEvent_ :=
  (WebSocket.decodedEvent_ WsErrorEffect config jsonTransformer).
Local Abbreviation providedTransformer :=
  (WebSocket.providedTransformer WsErrorEffect config jsonTransformer).
Local Abbreviation emit :=
  (WebSocket.emit WsErrorEffect config ask combineMiddlewares combineEffects
     jsonTransformer).

Lemma logs {A} (f : A → Action) (vs : list A) c :
  foldl (λ c v, log (f v) c) c vs
  = {| middlewaresSub := middlewaresSub c; effectsSub := effectsSub c;
       message_listener := message_listener c;
       close_listener := close_listener c;
       trace := trace c ++ (f <$> vs) |}.
Proof.
  revert c. induction vs as [|v vs IH]; intros c.
  - destruct c. cbn. rewrite app_nil_r. reflexivity.
  - cbn [foldl]. rewrite IH. cbn. rewrite <- app_assoc. reflexivity.
Qed.

Lemma reports_log p (o : option JsError) client c :
  match o with
  | Some e => handleEffectsError client p e c
  | None => c
  end
  = {| middlewaresSub := middlewaresSub c; effectsSub := effectsSub c;
       message_listener := message_listener c;
       close_listener := close_listener c;
       trace := trace c ++ reports p (ctx client) o |}.
Proof.
  destruct o as [e|]; [reflexivity|].
  destruct c. cbn. rewrite app_nil_r. reflexivity.
Qed.

(** [eventSubject$.next(event)] in closed form. *)
Lemma eventSubject_next_closed_form client (ev : Event) c :
  eventSubject_next client ev c
  = if closed (effectsSub c) then log (EventSubjectNext ev) c
    else
      let b := on_next (source (effectsSub c)) (history (effectsSub c)) ev in
      {| middlewaresSub := middlewaresSub c;
         effectsSub :=
           {| subscribed_to := subscribed_to (effectsSub c);
              source := source (effectsSub c);
              history := history (effectsSub c) ++ [ev];
              closed := terminates b |};
         message_listener := message_listener c;
         close_listener := close_listener c;
         trace := trace c ++ EventSubjectNext ev :: (SendResponse <$> values b)
                    ++ reports Outbound (ctx client) (failure b) |}.
Proof.
  unfold WebSocket.eventSubject_next. cbn zeta. cbn [effectsSub log].
  destruct (closed (effectsSub c)) eqn:Hclosed; [reflexivity|].
  rewrite notify_values.
  change (λ s v, sendResponse v s) with (λ s v, log (SendResponse v) s).
  rewrite (logs SendResponse).
  rewrite (reports_log Outbound). cbn.
  destruct (terminates _) eqn:Hterm; unfold record_input, close; cbn;
    rewrite ?Hclosed, <- ?app_assoc; reflexivity.
Qed.

Lemma sent_app (t t' : list Action) : sent (t ++ t') = sent t ++ sent t'.
Proof. unfold sent. apply bind_app. Qed.

Lemma pushed_app (t t' : list Action) : pushed (t ++ t') = pushed t ++ pushed t'.
Proof. unfold pushed. apply bind_app. Qed.

Lemma forwarded_app (t t' : list Action) :
  forwarded (t ++ t') = forwarded t ++ forwarded t'.
Proof. unfold forwarded. apply bind_app. Qed.

Lemma sent_responses (vs : list Event) : sent (SendResponse <$> vs) = vs.
Proof. induction vs as [|v vs IH]; [reflexivity|]. cbn. f_equal. exact IH. Qed.

Lemma sent_pushes (vs : list Event) : sent (EventSubjectNext <$> vs) = [].
Proof. induction vs as [|v vs IH]; [reflexivity|exact IH]. Qed.

Lemma sent_reports p (x : EffectContext) (o : option JsError) :
  sent (reports p x o) = [].
Proof. destruct o; reflexivity. Qed.

Lemma delivery_responses (vs : list Event) :
  forallb is_delivery_action (SendResponse <$> vs) = true.
Proof. induction vs as [|v vs IH]; [reflexivity|exact IH]. Qed.

Lemma delivery_reports p (x : EffectContext) (o : option JsError) :
  forallb is_delivery_action (reports p x o) = true.
Proof. destruct o; reflexivity. Qed.

Lemma delivery_not_pushed_responses (vs : list Event) :
  pushed (SendResponse <$> vs) = [].
Proof. induction vs as [|v vs IH]; [reflexivity|exact IH]. Qed.

Lemma pushed_reports p (x : EffectContext) (o : option JsError) :
  pushed (reports p x o) = [].
Proof. destruct o; reflexivity. Qed.

Lemma forwarded_delivery (t : list Action) :
  forallb is_delivery_action t = true → forwarded t = [].
Proof.
  induction t as [|a t IH]; [reflexivity|].
  cbn. intros H. apply andb_prop in H as [Ha Ht].
  destruct a; try discriminate Ha; exact (IH Ht).
Qed.

Lemma count_subscribe_delivery p (t : list Action) :
  forallb is_delivery_action t = true → count (is_subscribe p) t = 0.
Proof.
  induction t as [|a t IH]; [reflexivity|].
  cbn. intros H. apply andb_prop in H as [Ha Ht].
  destruct a; try discriminate Ha; destruct p; exact (IH Ht).
Qed.

(** X9: what the outbound pipeline makes of an event.  While its
    subscription is closed the event is dropped: nothing is written, and the
    subscription made later has not seen it.  Otherwise the values of the
    reaction are written to the socket in their order, up to the first
    terminal notification; an error is then reported, once, and a
    completion is not reported at all; either closes the subscription.  The
    inbound subscription and the listeners are not touched. *)
Theorem outbound_pipeline_reaction client (ev : Event) c :
  (closed (effectsSub c) = true →
   trace (eventSubject_next client ev c) = trace c ++ [EventSubjectNext ev]
   ∧ effectsSub (eventSubject_next client ev c) = effectsSub c)
  ∧ (closed (effectsSub c) = false →
     let b := on_next (source (effectsSub c)) (history (effectsSub c)) ev in
     trace (eventSubject_next client ev c)
     = trace c ++ EventSubjectNext ev :: (SendResponse <$> values b)
         ++ reports Outbound (ctx client) (failure b)
     ∧ sent (trace (eventSubject_next client ev c)) = sent (trace c) ++ values b
     ∧ closed (effectsSub (eventSubject_next client ev c)) = terminates b
     ∧ history (effectsSub (eventSubject_next client ev c))
       = history (effectsSub c) ++ [ev])
  ∧ middlewaresSub (eventSubject_next client ev c) = middlewaresSub c
  ∧ message_listener (eventSubject_next client ev c) = message_listener c
  ∧ close_listener (eventSubject_next client ev c) = close_listener c.
Proof.
  rewrite eventSubject_next_closed_form.
  destruct (closed (effectsSub c)) eqn:Hclosed.
  - split; [intros _; split; reflexivity|].
    split; [intros H; discriminate H|]. repeat split.
  - split; [intros H; discriminate H|].
    split; [|repeat split]. intros _ b. cbn.
    split; [reflexivity|]. split; [|split; reflexivity].
    rewrite sent_app. f_equal. cbn.
    rewrite sent_app, sent_responses, sent_reports. apply app_nil_r.
Qed.

Lemma grows_refl (P : Action → bool) c : grows P c c.
Proof. exists []. split; [symmetry; apply app_nil_r|reflexivity]. Qed.

Lemma grows_trans (P : Action → bool) c1 c2 c3 :
  grows P c1 c2 → grows P c2 c3 → grows P c1 c3.
Proof.
  intros (t1 & H1 & P1) (t2 & H2 & P2). exists (t1 ++ t2). split.
  - rewrite H2, H1, app_assoc. reflexivity.
  - rewrite forallb_app, P1, P2. reflexivity.
Qed.

Lemma eventSubject_next_grows client (ev : Event) c :
  grows is_delivery_action c (eventSubject_next client ev c)
  ∧ pushed (trace (eventSubject_next client ev c)) = pushed (trace c) ++ [ev].
Proof.
  rewrite eventSubject_next_closed_form.
  destruct (closed (effectsSub c)).
  - split; [exists [EventSubjectNext ev]; split; reflexivity|].
    cbn. rewrite pushed_app. reflexivity.
  - cbn. split.
    + eexists. split; [reflexivity|]. cbn.
      rewrite forallb_app, delivery_responses, delivery_reports. reflexivity.
    + rewrite pushed_app. f_equal. cbn.
      rewrite pushed_app, delivery_not_pushed_responses, pushed_reports.
      reflexivity.
Qed.

Lemma eventSubject_nexts_grow client (vs : list Event) c :
  grows is_delivery_action c (foldl (λ c v, eventSubject_next client v c) c vs)
  ∧ pushed (trace (foldl (λ c v, eventSubject_next client v c) c vs))
    = pushed (trace c) ++ vs.
Proof.
  revert c. induction vs as [|v vs IH]; intros c.
  - split; [apply grows_refl|symmetry; apply app_nil_r].
  - cbn [foldl]. destruct (IH (eventSubject_next client v c)) as [Hg Hp].
    destruct (eventSubject_next_grows client v c) as [Hg1 Hp1].
    split; [eapply grows_trans; eassumption|].
    rewrite Hp, Hp1, <- app_assoc. reflexivity.
Qed.

Lemma failure_terminates {A} (b : Batch A) (e : JsError) :
  failure b = Some e → terminates b = true.
Proof.
  induction b as [|[a|e'|] b IH]; cbn; try discriminate; [exact IH|reflexivity].
Qed.

(** The subscriber of the inbound pipeline on a burst. *)
Lemma notify_inbound_values client (b : Batch Event) c :
  ∃ c1, notify (eventSubject_next client) (handleEffectsError client Inbound) b c
        = (match failure b with
           | Some e => handleEffectsError client Inbound e c1
           | None => c1
           end, terminates b)
        ∧ c1 = foldl (λ c v, eventSubject_next client v c) c (values b)
        ∧ outbound_only c c1
        ∧ grows is_delivery_action c c1
        ∧ pushed (trace c1) = pushed (trace c) ++ values b.
Proof.
  eexists. split; [apply notify_values|]. split; [reflexivity|].
  split; [apply eventSubject_nexts_outbound_only|].
  apply eventSubject_nexts_grow.
Qed.

Lemma grows_report client p (o : option JsError) c :
  grows is_delivery_action c
    match o with
    | Some e => handleEffectsError client p e c
    | None => c
    end
  ∧ pushed (trace match o with
                  | Some e => handleEffectsError client p e c
                  | None => c
                  end) = pushed (trace c).
Proof.
  destruct o as [e|]; [|split; [apply grows_refl|reflexivity]].
  split; [exists [HandleEffectsError p (ctx client) e]; split; reflexivity|].
  cbn. rewrite pushed_app. apply app_nil_r.
Qed.

(** X8: what the inbound pipeline makes of a frame when both subscriptions
    are open.  No subscription is made; the frame is pushed into the
    incoming subject once; the events the pipeline emits in reaction, up to
    the first terminal notification, are pushed into [eventSubject$] in
    their order, each once; an error is reported once; the subscription is
    closed exactly when the reaction holds a terminal notification, and has
    otherwise one more frame in its history. *)
Theorem inbound_pipeline_reaction client event c :
  closed (middlewaresSub c) = false →
  closed (effectsSub c) = false →
  let b := on_next (source (middlewaresSub c)) (history (middlewaresSub c)) event in
  let c' := onMessage client event c in
  (∀ p, subscriptions p c' = subscriptions p c)
  ∧ forwarded (trace c') = forwarded (trace c) ++ [event]
  ∧ pushed (trace c') = pushed (trace c) ++ values b
  ∧ errors Inbound c'
    = errors Inbound c + match failure b with Some _ => 1 | None => 0 end
  ∧ closed (middlewaresSub c') = terminates b
  ∧ history (middlewaresSub c') = history (middlewaresSub c) ++ [event]
  ∧ source (middlewaresSub c') = source (middlewaresSub c).
Proof.
  intros Hin Hout b c'.
  assert (Hc' : c' = incomingEventSubject_next client event c).
  { subst c'. unfold WebSocket.onMessage. cbn zeta. rewrite Hin, Hout. reflexivity. }
  split.
  { rewrite Hc'.
    destruct (incomingEventSubject_next_delivers client event c) as (_ & Hs & _).
    exact Hs. }
  rewrite Hc'. clear Hc' c'.
  unfold WebSocket.incomingEventSubject_next. cbn zeta. cbn [middlewaresSub log].
  rewrite Hin. fold b.
  set (c0 := set_middlewaresSub (record_input event (middlewaresSub c))
               (log (IncomingEventSubjectNext event) c)).
  destruct (notify_inbound_values client b c0)
    as (c1 & -> & _ & (_ & Hm & _ & Hi & _) & (t & Ht & Hdel) & Hp).
  destruct (grows_report client Inbound (failure b) c1) as [_ Hpr].
  assert (Htrace : ∀ x, trace (if terminates b
                               then set_middlewaresSub (close (middlewaresSub x)) x
                               else x) = trace x)
    by (intros x; destruct (terminates b); reflexivity).
  split; [|split; [|split; [|split; [|split]]]].
  - rewrite Htrace.
    assert (forwarded (trace c1) = forwarded (trace c) ++ [event]) as Hf.
    { rewrite Ht. subst c0. cbn. rewrite !forwarded_app. cbn.
      rewrite (forwarded_delivery t Hdel), app_nil_r. reflexivity. }
    destruct (failure b); [|exact Hf].
    cbn. rewrite forwarded_app, Hf. apply app_nil_r.
  - rewrite Htrace, Hpr, Hp. subst c0. cbn. rewrite pushed_app.
    cbn. rewrite app_nil_r. reflexivity.
  - assert (errors Inbound c1 = errors Inbound c) as He.
    { rewrite Hi. subst c0. conn. cbn. lia. }
    destruct (failure b) eqn:Hfail.
    + rewrite (failure_terminates b _ Hfail).
      unfold WebSocket.handleEffectsError. conn. cbn. lia.
    + destruct (terminates b); conn; lia.
  - destruct (terminates b) eqn:Hterm; [reflexivity|].
    destruct (failure b) eqn:Hfail.
    { rewrite (failure_terminates b _ Hfail) in Hterm. discriminate Hterm. }
    rewrite Hm. subst c0. cbn. exact Hin.
  - destruct (terminates b); destruct (failure b); cbn; rewrite Hm;
      reflexivity.
  - destruct (terminates b); destruct (failure b); cbn; rewrite Hm;
      reflexivity.
Qed.

(** *** A frame is forwarded once, after the subscriptions *)

Lemma delivery_is_not_forward (t : list Action) :
  forallb is_delivery_action t = true → forallb is_not_forward t = true.
Proof.
  induction t as [|a t IH]; [reflexivity|].
  cbn. intros H. apply andb_prop in H as [Ha Ht].
  rewrite (IH Ht). destruct a; try discriminate Ha; reflexivity.
Qed.

Lemma subscribeMiddlewares_closed_form client (src : Source)
    (o : Observable WebSocketData Event) c :
  (subscribeMiddlewares client src o c).2
  = {| subscribed_to := src; source := o; history := [];
       closed := terminates (on_subscribe o) |}
  ∧ ∃ t, trace (subscribeMiddlewares client src o c).1
         = trace c ++ Subscribe Inbound src :: t
         ∧ forallb is_delivery_action t = true.
Proof.
  unfold WebSocket.subscribeMiddlewares. cbn zeta.
  destruct (notify_inbound_values client (on_subscribe o)
              (log (Subscribe Inbound src) c))
    as (c1 & -> & _ & _ & (t & Ht & Hdel) & _).
  split; [reflexivity|]. cbn [fst].
  destruct (grows_report client Inbound (failure (on_subscribe o)) c1)
    as [(t' & Ht' & Hdel') _].
  exists (t ++ t'). split.
  - rewrite Ht', Ht. cbn. rewrite <- !app_assoc. reflexivity.
  - rewrite forallb_app, Hdel, Hdel'. reflexivity.
Qed.

Lemma subscribeEffects_closed_form client (src : Source)
    (o : Observable Event Event) c :
  subscribeEffects client src o c
  = ({| middlewaresSub := middlewaresSub c; effectsSub := effectsSub c;
        message_listener := message_listener c;
        close_listener := close_listener c;
        trace := trace c ++ Subscribe Outbound src
                   :: (SendResponse <$> values (on_subscribe o))
                   ++ reports Outbound (ctx client) (failure (on_subscribe o)) |},
     {| subscribed_to := src; source := o; history := [];
        closed := terminates (on_subscribe o) |}).
Proof.
  unfold WebSocket.subscribeEffects. cbn zeta. rewrite notify_values.
  change (λ s v, sendResponse v s) with (λ s v, log (SendResponse v) s).
  rewrite (logs SendResponse), (reports_log Outbound). cbn.
  rewrite <- !app_assoc. reflexivity.
Qed.

Lemma incomingEventSubject_next_grows client event c :
  ∃ t, trace (incomingEventSubject_next client event c)
       = trace c ++ IncomingEventSubjectNext event :: t
       ∧ forallb is_delivery_action t = true.
Proof.
  unfold WebSocket.incomingEventSubject_next. cbn zeta. cbn [middlewaresSub log].
  destruct (closed (middlewaresSub c)).
  { exists []. split; reflexivity. }
  match goal with
  | |- context [notify _ _ ?b ?c0] =>
      destruct (notify_inbound_values client b c0)
        as (c1 & -> & _ & _ & (t & Ht & Hdel) & _);
      destruct (grows_report client Inbound (failure b) c1)
        as [(t' & Ht' & Hdel') _];
      exists (t ++ t'); split;
      [destruct (terminates b); cbn [trace set_middlewaresSub];
       rewrite Ht', Ht; cbn; rewrite <- !app_assoc; reflexivity
      |rewrite forallb_app, Hdel, Hdel'; reflexivity]
  end.
Qed.

(** X7: whatever the state of the connection, [onMessage] pushes the frame
    into the incoming subject exactly once, and every subscription it makes
    comes before that push: what follows the push are only pushes into
    [eventSubject$], writes to the socket and error reports. *)
Theorem onMessage_forwards_frame_once client event c :
  ∃ t1 t2,
    trace (onMessage client event c)
    = trace c ++ t1 ++ IncomingEventSubjectNext event :: t2
    ∧ forallb is_not_forward t1 = true
    ∧ forallb is_delivery_action t2 = true
    ∧ forwarded (trace (onMessage client event c))
      = forwarded (trace c) ++ [event].
Proof.
  unfold WebSocket.onMessage. cbn zeta.
  set (c1 := if closed (middlewaresSub c) then _ else c).
  assert (H1 : grows is_not_forward c c1).
  { subst c1. destruct (closed (middlewaresSub c)); [|apply grows_refl].
    destruct (subscribeMiddlewares_closed_form client Src_middlewares
                (middlewares_ client) c) as (_ & t & Ht & Hdel).
    destruct (subscribeMiddlewares client Src_middlewares (middlewares_ client) c)
      as [c0 sub]. cbn in Ht |- *.
    exists (Subscribe Inbound Src_middlewares :: t). split; [exact Ht|].
    cbn. apply delivery_is_not_forward. exact Hdel. }
  set (c2 := if closed (effectsSub c1) then _ else c1).
  assert (H2 : grows is_not_forward c1 c2).
  { subst c2. destruct (closed (effectsSub c1)); [|apply grows_refl].
    rewrite subscribeEffects_closed_form. eexists. split; [reflexivity|].
    cbn. apply delivery_is_not_forward.
    rewrite forallb_app, delivery_responses, delivery_reports. reflexivity. }
  destruct (grows_trans _ _ _ _ H1 H2) as (t1 & Ht1 & Hnf).
  destruct (incomingEventSubject_next_grows client event c2) as (t2 & Ht2 & Hdel).
  exists t1, t2. split; [rewrite Ht2, Ht1, <- app_assoc; reflexivity|].
  split; [exact Hnf|]. split; [exact Hdel|].
  rewrite Ht2, Ht1, !forwarded_app.
  change (forwarded (IncomingEventSubjectNext event :: t2))
    with (event :: forwarded t2).
  rewrite (forwarded_delivery t2 Hdel), <- app_assoc. f_equal.
  assert (Hnone : ∀ t, forallb is_not_forward t = true → forwarded t = []).
  { induction t as [|a t IH]; [reflexivity|]. cbn. intros H.
    apply andb_prop in H as [Ha Ht]. destruct a; try discriminate Ha; exact (IH Ht). }
  rewrite (Hnone t1 Hnf). reflexivity.
Qed.

(** *** The transformer fails *)

(** X10: when the inbound subscription is one to [decodedEvent$] itself
    (no middleware changes the stream) and both subscriptions are open, a
    frame that the transformer fails to decode is reported as an error of
    the inbound pipeline and closes its subscription; nothing is pushed into
    [eventSubject$] and the outbound subscription is not touched.  A frame
    that decodes is pushed into [eventSubject$] as the decoded event, and
    the subscription stays open. *)
Theorem decode_failure_is_an_inbound_error client event c :
  closed (middlewaresSub c) = false →
  closed (effectsSub c) = false →
  source (middlewaresSub c) = decodedEvent_ →
  (∀ e, decode providedTransformer event = inl e →
        trace (onMessage client event c)
        = trace c ++ [IncomingEventSubjectNext event;
                      HandleEffectsError Inbound (ctx client) e]
        ∧ closed (middlewaresSub (onMessage client event c)) = true
        ∧ effectsSub (onMessage client event c) = effectsSub c)
  ∧ (∀ ev, decode providedTransformer event = inr ev →
           pushed (trace (onMessage client event c)) = pushed (trace c) ++ [ev]
           ∧ closed (middlewaresSub (onMessage client event c)) = false
           ∧ errors Inbound (onMessage client event c) = errors Inbound c).
Proof.
  intros Hin Hout Hsrc.
  assert (Hc' : onMessage client event c = incomingEventSubject_next client event c).
  { unfold WebSocket.onMessage. cbn zeta. rewrite Hin, Hout. reflexivity. }
  rewrite Hc'. unfold WebSocket.incomingEventSubject_next. cbn zeta.
  cbn [middlewaresSub log]. rewrite Hin, Hsrc.
  cbn [on_next WebSocket.decodedEvent_ map asObservable map_batch].
  split.
  - intros e ->. cbn. rewrite <- app_assoc. repeat split.
  - intros ev ->. cbn [notify].
    set (c0 := set_middlewaresSub _ _).
    destruct (eventSubject_next_grows client ev c0) as [_ Hp].
    destruct (eventSubject_next_outbound_only client ev c0)
      as (_ & Hm & _ & Hi & _).
    rewrite Hp, Hm, Hi. subst c0. split; [|split].
    + cbn [trace set_middlewaresSub log]. rewrite pushed_app. cbn.
      rewrite app_nil_r. reflexivity.
    + cbn. exact Hin.
    + conn. cbn. lia.
Qed.

(** *** The connection as [handleMessage] leaves it *)

Lemma eventSubject_nexts_unobserved client (vs : list Event) c :
  closed (effectsSub c) = true →
  foldl (λ c v, eventSubject_next client v c) c vs
  = foldl (λ c v, log (EventSubjectNext v) c) c vs.
Proof.
  revert c. induction vs as [|v vs IH]; intros c Hclosed; [reflexivity|].
  cbn [foldl]. rewrite eventSubject_next_closed_form, Hclosed.
  apply IH. exact Hclosed.
Qed.

Lemma handleMessage_closed_form client :
  handleMessage client
  = {| middlewaresSub :=
         {| subscribed_to := Src_middlewares; source := middlewares_ client;
            history := [];
            closed := terminates (on_subscribe (middlewares_ client)) |};
       effectsSub :=
         {| subscribed_to := Src_effectsOutput; source := effectsOutput_ client;
            history := [];
            closed := terminates (on_subscribe (effectsOutput_ client)) |};
       message_listener := true;
       close_listener := true;
       trace :=
         Subscribe Inbound Src_middlewares
         :: (EventSubjectNext <$> values (on_subscribe (middlewares_ client)))
         ++ reports Inbound (ctx client)
              (failure (on_subscribe (middlewares_ client)))
         ++ Subscribe Outbound Src_effectsOutput
         :: (SendResponse <$> values (on_subscribe (effectsOutput_ client)))
         ++ reports Outbound (ctx client)
              (failure (on_subscribe (effectsOutput_ client))) |}.
Proof.
  unfold WebSocket.handleMessage. cbn zeta.
  unfold WebSocket.subscribeMiddlewares. cbn zeta.
  rewrite notify_values.
  rewrite eventSubject_nexts_unobserved by reflexivity.
  rewrite (logs EventSubjectNext), (reports_log Inbound).
  rewrite subscribeEffects_closed_form. cbn.
  rewrite <- !app_assoc. reflexivity.
Qed.

(** X11: [handleMessage] subscribes the middlewares before the effects.
    What the middleware chain emits at its subscription is pushed into
    [eventSubject$] while that subject has no observer, so that it is never
    answered; what is written to the socket during [handleMessage] is
    exactly what the outbound observable emits at its own subscription.
    Each subscription is closed at once exactly when its observable
    terminates at the subscription. *)
Theorem handleMessage_subscribes_middlewares_first client :
  let bm := on_subscribe (middlewares_ client) in
  let bo := on_subscribe (effectsOutput_ client) in
  trace (handleMessage client)
  = Subscribe Inbound Src_middlewares
    :: (EventSubjectNext <$> values bm)
    ++ reports Inbound (ctx client) (failure bm)
    ++ Subscribe Outbound Src_effectsOutput
    :: (SendResponse <$> values bo)
    ++ reports Outbound (ctx client) (failure bo)
  ∧ sent (trace (handleMessage client)) = values bo
  ∧ closed (middlewaresSub (handleMessage client)) = terminates bm
  ∧ closed (effectsSub (handleMessage client)) = terminates bo.
Proof.
  intros bm bo. rewrite handleMessage_closed_form. fold bm bo.
  split; [reflexivity|]. split; [|split; reflexivity].
  cbn [trace].
  change (Subscribe Inbound Src_middlewares :: ?t)
    with ([Subscribe Inbound Src_middlewares] ++ t).
  rewrite !sent_app, sent_pushes, sent_reports. cbn [app].
  change (Subscribe Outbound Src_effectsOutput :: ?t)
    with ([Subscribe Outbound Src_effectsOutput] ++ t).
  rewrite !sent_app, sent_responses, sent_reports. cbn. apply app_nil_r.
Qed.

(** *** After the close event *)

(** X12: once the close event of a connection has fired, whatever the
    frames that came before, nothing the socket emits changes the
    connection any more: a frame finds no listener, and a second close event
    does not run the handler again, registered as it was with [once]. *)
Theorem after_close_nothing_happens client (before : list WebSocketData)
    (after : list Signal) :
  let c := foldl (λ c event, emit_message client event c) (handleMessage client)
             before in
  foldl (λ c s, emit client s c) (emit_close c) after = emit_close c
  ∧ message_listener (emit_close c) = false
  ∧ close_listener (emit_close c) = false.
Proof.
  intros c.
  destruct (connection_stays_up client before) as (_ & Hclose & _).
  fold c in Hclose.
  assert (Hoff : message_listener (emit_close c) = false
                 ∧ close_listener (emit_close c) = false).
  { unfold emit_close. rewrite Hclose. split; reflexivity. }
  split; [|exact Hoff]. destruct Hoff as [Hm Hc].
  induction after as [|s after IH]; [reflexivity|].
  cbn [foldl]. destruct s as [event|]; cbn [WebSocket.emit].
  - rewrite emit_message_detached by exact Hm. exact IH.
  - replace (emit_close (emit_close c)) with (emit_close c); [exact IH|].
    revert Hc. generalize (emit_close c). intros x Hx.
    unfold emit_close. rewrite Hx. reflexivity.
Qed.

(** *** What the subscriptions are subscribed to *)

Lemma incomingEventSubject_next_keeps_inbound_source client event c :
  source (middlewaresSub (incomingEventSubject_next client event c))
  = source (middlewaresSub c).
Proof.
  unfold WebSocket.incomingEventSubject_next. cbn zeta. cbn [middlewaresSub log].
  destruct (closed (middlewaresSub c)); [reflexivity|].
  match goal with
  | |- context [notify _ _ ?b ?c0] =>
      destruct (notify_inbound_values client b c0)
        as (c1 & -> & _ & (_ & Hm & _) & _);
      destruct (terminates b); destruct (failure b); cbn; rewrite Hm;
      reflexivity
  end.
Qed.

(** A frame leaves the inbound subscription one to [middlewares$]; the
    outbound one is left subscribed to what it was, or replaced, once, by a
    subscription to [effects$]. *)
Lemma onMessage_sources client event c :
  (source (middlewaresSub c) = middlewares_ client →
   source (middlewaresSub (onMessage client event c)) = middlewares_ client)
  ∧ ((subscriptions Outbound (onMessage client event c) = subscriptions Outbound c
      ∧ source (effectsSub (onMessage client event c)) = source (effectsSub c)
      ∧ subscribed_to (effectsSub (onMessage client event c))
        = subscribed_to (effectsSub c))
     ∨ (subscriptions Outbound (onMessage client event c)
        = subscriptions Outbound c + 1
        ∧ source (effectsSub (onMessage client event c)) = effects_ client
        ∧ subscribed_to (effectsSub (onMessage client event c)) = Src_effects)).
Proof.
  unfold WebSocket.onMessage. cbn zeta.
  set (c1 := if closed (middlewaresSub c) then _ else c).
  assert (H1 : (source (middlewaresSub c) = middlewares_ client →
                source (middlewaresSub c1) = middlewares_ client)
               ∧ subscriptions Outbound c1 = subscriptions Outbound c
               ∧ source (effectsSub c1) = source (effectsSub c)
               ∧ subscribed_to (effectsSub c1) = subscribed_to (effectsSub c)).
  { subst c1. destruct (closed (middlewaresSub c)); [|repeat split; trivial].
    destruct (subscribeMiddlewares_spec client Src_middlewares
                (middlewares_ client) c)
      as (c0 & sub & Heq & _ & _ & _ & HsO & _ & _ & _ & Hsrc & Hn).
    destruct (subscribeMiddlewares_closed_form client Src_middlewares
                (middlewares_ client) c) as [Hsub _].
    rewrite Heq in Hsub |- *. cbn in Hsub. subst sub.
    split; [intros _; reflexivity|]. split; [exact HsO|].
    split; assumption. }
  destruct H1 as (Hin1 & HsO1 & Hsrc1 & Hn1).
  set (c2 := if closed (effectsSub c1) then _ else c1).
  assert (H2 : middlewaresSub c2 = middlewaresSub c1
               ∧ ((subscriptions Outbound c2 = subscriptions Outbound c1
                   ∧ effectsSub c2 = effectsSub c1)
                  ∨ (subscriptions Outbound c2 = subscriptions Outbound c1 + 1
                     ∧ source (effectsSub c2) = effects_ client
                     ∧ subscribed_to (effectsSub c2) = Src_effects))).
  { subst c2. destruct (closed (effectsSub c1)).
    - rewrite subscribeEffects_closed_form. split; [reflexivity|]. right.
      split; [|split; reflexivity].
      change (count (is_subscribe Outbound)
                (trace c1 ++ Subscribe Outbound Src_effects
                   :: (SendResponse <$> values (on_subscribe (effects_ client)))
                   ++ reports Outbound (ctx client)
                        (failure (on_subscribe (effects_ client))))
              = count (is_subscribe Outbound) (trace c1) + 1).
      rewrite count_app. f_equal.
      change (Subscribe Outbound Src_effects :: ?t)
        with ([Subscribe Outbound Src_effects] ++ t).
      rewrite count_app.
      rewrite (count_subscribe_delivery Outbound (_ ++ _))
        by (rewrite forallb_app, delivery_responses, delivery_reports;
            reflexivity).
      reflexivity.
    - split; [reflexivity|]. left. split; reflexivity. }
  destruct H2 as (Hm2 & Hcases).
  destruct (incomingEventSubject_next_delivers client event c2)
    as (_ & Hs3 & _ & _ & Hsrc3 & Hn3).
  split.
  - intros Hin. rewrite incomingEventSubject_next_keeps_inbound_source, Hm2.
    apply Hin1. exact Hin.
  - rewrite Hs3, Hsrc3, Hn3.
    destruct Hcases as [[Hs He]|(Hs & Hsrc & Hn)].
    + left. rewrite Hs, He, HsO1, Hsrc1, Hn1. repeat split.
    + right. rewrite Hs, HsO1, Hsrc, Hn. repeat split.
Qed.

Lemma reachable_sources client (frames : list WebSocketData) :
  let c := foldl (λ c event, emit_message client event c) (handleMessage client)
             frames in
  source (middlewaresSub c) = middlewares_ client
  ∧ (∀ p, 1 ≤ subscriptions p c)
  ∧ ((subscriptions Outbound c = 1
      ∧ subscribed_to (effectsSub c) = Src_effectsOutput
      ∧ source (effectsSub c) = effectsOutput_ client)
     ∨ (1 < subscriptions Outbound c
        ∧ subscribed_to (effectsSub c) = Src_effects
        ∧ source (effectsSub c) = effects_ client)).
Proof.
  induction frames as [|event frames IH] using rev_ind.
  - cbn zeta. cbn [foldl].
    destruct (handleMessage_registers client) as (_ & _ & _ & Hp).
    split; [rewrite handleMessage_closed_form; reflexivity|].
    split; [intros p; destruct (Hp p) as [-> _]; lia|].
    left. destruct (Hp Outbound) as [-> _].
    rewrite handleMessage_closed_form. repeat split.
  - cbn zeta in IH |- *. rewrite foldl_app. cbn [foldl].
    destruct (connection_stays_up client frames) as (Hm & _).
    set (c := foldl (λ c event, emit_message client event c)
                (handleMessage client) frames) in *.
    replace (emit_message client event c) with (onMessage client event c)
      by (unfold WebSocket.emit_message; rewrite Hm; reflexivity).
    destruct IH as (Hin & Hsubs & Hout).
    destruct (onMessage_sources client event c) as (Hin' & Hout').
    destruct (onMessage_serves client event c) as ((_ & Hmono & _) & _).
    split; [apply Hin'; exact Hin|].
    split; [intros p; specialize (Hsubs p); specialize (Hmono p); lia|].
    destruct Hout' as [(Hs & Hsrc & Hn)|(Hs & Hsrc & Hn)].
    + rewrite Hs, Hsrc, Hn. exact Hout.
    + right. rewrite Hs, Hsrc, Hn. specialize (Hsubs Outbound).
      split; [lia|]. split; reflexivity.
Qed.

(** X13: as long as only frames arrive on a connection, both listeners
    stay registered and nothing of [onClose] happens; each pipeline has been
    subscribed at least once and has reported no more errors than it has
    given up subscriptions; the inbound subscription is always one to
    [middlewares$]; and the outbound subscription is the one to
    [effectsOutput$] that [handleMessage] made as long as it has not been
    replaced, and from then on always one to [effects$]: a subscription to
    [effectsOutput$] is never made again. *)
Theorem connection_invariant client (frames : list WebSocketData) :
  let c := foldl (λ c event, emit_message client event c) (handleMessage client)
             frames in
  message_listener c = true
  ∧ close_listener c = true
  ∧ closings c = 0
  ∧ (∀ p, 1 ≤ subscriptions p c ∧ errors p c + open p c ≤ subscriptions p c)
  ∧ source (middlewaresSub c) = middlewares_ client
  ∧ ((subscriptions Outbound c = 1
      ∧ subscribed_to (effectsSub c) = Src_effectsOutput
      ∧ source (effectsSub c) = effectsOutput_ client)
     ∨ (1 < subscriptions Outbound c
        ∧ subscribed_to (effectsSub c) = Src_effects
        ∧ source (effectsSub c) = effects_ client)).
Proof.
  intros c.
  destruct (connection_stays_up client frames) as (Hm & Hc & Hk & Hp).
  destruct (reachable_sources client frames) as (Hin & Hsubs & Hout).
  split; [exact Hm|]. split; [exact Hc|]. split; [exact Hk|].
  split; [intros p; split; [apply Hsubs|apply Hp]|].
  split; [exact Hin|exact Hout].
Qed.

(** X14: when the configuration has no [output$], the observable that
    [onMessage] subscribes the outbound pipeline to is the one that
    [handleMessage] subscribed it to: whatever frames have arrived, the
    outbound subscription is one to [effectsOutput$]. *)
Theorem without_output_effect_resubscription_is_faithful client
    (frames : list WebSocketData) :
  config ≫= cfg_output_ = None →
  effectsOutput_ client = effects_ client
  ∧ source (effectsSub (foldl (λ c event, emit_message client event c)
                          (handleMessage client) frames))
    = effectsOutput_ client.
Proof.
  intros Hnone.
  assert (Heq : effectsOutput_ client = effects_ client).
  { unfold WebSocket.effectsOutput_, WebSocket.output_. rewrite Hnone. reflexivity. }
  split; [exact Heq|].
  destruct (reachable_sources client frames) as (_ & _ & [(_ & _ & H)|(_ & _ & H)]).
  - exact H.
  - rewrite Heq. exact H.
Qed.

(** *** An error, at the subscription as at a delivery *)

Lemma values_error {A} (vs : list A) (e : JsError) (rest : Batch A) :
  values ((Next <$> vs) ++ Error e :: rest) = vs.
Proof. induction vs as [|v vs IH]; [reflexivity|]. cbn. rewrite IH. reflexivity. Qed.

Lemma failure_error {A} (vs : list A) (e : JsError) (rest : Batch A) :
  failure ((Next <$> vs) ++ Error e :: rest) = Some e.
Proof. induction vs as [|v vs IH]; [reflexivity|]. exact IH. Qed.

Lemma terminates_error {A} (vs : list A) (e : JsError) (rest : Batch A) :
  terminates ((Next <$> vs) ++ Error e :: rest) = true.
Proof. induction vs as [|v vs IH]; [reflexivity|]. exact IH. Qed.

(** The outbound subscriber on an observable that fails as it is
    subscribed to. *)
Lemma subscribeEffects_error client (src : Source) (o : Observable Event Event)
    (vs : list Event) (e : JsError) (rest : Batch Event) c :
  on_subscribe o = (Next <$> vs) ++ Error e :: rest →
  trace (subscribeEffects client src o c).1
  = trace c ++ Subscribe Outbound src :: (SendResponse <$> vs)
      ++ [HandleEffectsError Outbound (ctx client) e]
  ∧ closed (subscribeEffects client src o c).2 = true.
Proof.
  intros Hburst. rewrite subscribeEffects_closed_form. cbn [fst snd trace closed].
  rewrite Hburst, values_error, failure_error, terminates_error.
  split; reflexivity.
Qed.

(** The inbound subscriber, likewise. *)
Lemma subscribeMiddlewares_error client (src : Source)
    (o : Observable WebSocketData Event)
    (vs : list Event) (e : JsError) (rest : Batch Event) c :
  on_subscribe o = (Next <$> vs) ++ Error e :: rest →
  (∃ t, trace (subscribeMiddlewares client src o c).1
        = trace c ++ Subscribe Inbound src :: t
            ++ [HandleEffectsError Inbound (ctx client) e]
        ∧ count (is_error_report Inbound) t = 0)
  ∧ closed (subscribeMiddlewares client src o c).2 = true.
Proof.
  intros Hburst. unfold WebSocket.subscribeMiddlewares. cbn zeta.
  rewrite Hburst, notify_error. cbn [fst snd closed].
  split; [|reflexivity].
  cbn [trace WebSocket.handleEffectsError log].
  destruct (eventSubject_nexts_outbound_only client vs
              (log (Subscribe Inbound src) c))
    as ((_ & _ & [t Ht] & _) & _ & _ & Hi & _).
  exists t. split.
  - rewrite Ht. cbn. rewrite <- !app_assoc. reflexivity.
  - unfold errors in Hi. rewrite Ht, count_app in Hi.
    change (count (is_error_report Inbound) t = 0). lia.
Qed.

(** A step that leaves the connection up reports no error less; if the
    pipeline had no open subscription and gives up none made meanwhile, it
    reports none more, and still has none. *)
Lemma quiet_errors p c c' : quiet c c' → errors p c ≤ errors p c'.
Proof.
  intros (_ & _ & [t Ht] & _). unfold errors. rewrite Ht, count_app. lia.
Qed.

Lemma closed_pipeline_stays_closed p c c' :
  quiet c c' →
  errors p c' + open p c' ≤ errors p c + open p c →
  open p c = 0 →
  errors p c' = errors p c ∧ open p c' = 0.
Proof. intros Hq Hle Hnone. pose proof (quiet_errors p c c' Hq). lia. Qed.

Lemma open_zero_outbound c : open Outbound c = 0 ↔ closed (effectsSub c) = true.
Proof. rewrite open_outbound_closed. destruct (closed (effectsSub c)); split; congruence. Qed.

Lemma open_zero_inbound c : open Inbound c = 0 ↔ closed (middlewaresSub c) = true.
Proof. rewrite open_inbound_closed. destruct (closed (middlewaresSub c)); split; congruence. Qed.

(** A frame that finds the outbound subscription closed, when [effects$]
    fails as it is subscribed to again: one more error of the outbound
    pipeline is reported, and the subscription the frame leaves behind is
    the closed one. *)
Lemma onMessage_outbound_resubscription_fails client event
    (vs : list Event) (e : JsError) (rest : Batch Event) c :
  closed (effectsSub c) = true →
  on_subscribe (effects_ client) = (Next <$> vs) ++ Error e :: rest →
  errors Outbound (onMessage client event c) = errors Outbound c + 1
  ∧ closed (effectsSub (onMessage client event c)) = true.
Proof.
  intros Hclosed Hburst. unfold WebSocket.onMessage. cbn zeta.
  destruct (resubscribe_inbound client c) as ((Hq1 & _ & He1) & _ & HsO1 & _).
  set (c1 := if closed (middlewaresSub c) then _ else c) in *.
  assert (H1 : errors Outbound c1 = errors Outbound c ∧ open Outbound c1 = 0).
  { apply closed_pipeline_stays_closed; [exact Hq1| |apply open_zero_outbound; exact Hclosed].
    specialize (He1 Outbound). lia. }
  destruct H1 as [He1' Hop1]. apply open_zero_outbound in Hop1. rewrite Hop1.
  destruct (subscribeEffects_error client Src_effects (effects_ client) vs e rest c1
              Hburst) as [Ht2 Hc2].
  destruct (subscribeEffects client Src_effects (effects_ client) c1)
    as [c2 sub] eqn:Heq2. cbn [fst snd] in Ht2, Hc2.
  assert (He2 : errors Outbound (set_effectsSub sub c2) = errors Outbound c + 1).
  { conn. unfold errors in *. rewrite Ht2, count_app, He1'.
    change (Subscribe Outbound Src_effects :: (SendResponse <$> vs)
              ++ [HandleEffectsError Outbound (ctx client) e])
      with ([Subscribe Outbound Src_effects] ++ (SendResponse <$> vs)
              ++ [HandleEffectsError Outbound (ctx client) e]).
    rewrite !count_app.
    assert (Hsend : count (is_error_report Outbound) (SendResponse <$> vs) = 0).
    { clear. induction vs as [|v vs IH]; [reflexivity|exact IH]. }
    rewrite Hsend. cbn. lia. }
  destruct (incomingEventSubject_next_delivers client event (set_effectsSub sub c2))
    as (Hq3 & _ & He3 & _).
  destruct (closed_pipeline_stays_closed Outbound _ _ Hq3 (He3 Outbound))
    as [He3' Hop3].
  { apply open_zero_outbound. exact Hc2. }
  split; [rewrite He3'; exact He2|]. apply open_zero_outbound. exact Hop3.
Qed.

(** The same for the inbound pipeline and [middlewares$]. *)
Lemma onMessage_inbound_resubscription_fails client event
    (vs : list Event) (e : JsError) (rest : Batch Event) c :
  closed (middlewaresSub c) = true →
  on_subscribe (middlewares_ client) = (Next <$> vs) ++ Error e :: rest →
  errors Inbound (onMessage client event c) = errors Inbound c + 1
  ∧ closed (middlewaresSub (onMessage client event c)) = true.
Proof.
  intros Hclosed Hburst. unfold WebSocket.onMessage. cbn zeta.
  rewrite Hclosed.
  destruct (subscribeMiddlewares_error client Src_middlewares (middlewares_ client)
              vs e rest c Hburst) as [(t & Ht1 & Hcount) Hc1].
  destruct (subscribeMiddlewares client Src_middlewares (middlewares_ client) c)
    as [c1 sub] eqn:Heq1. cbn [fst snd] in Ht1, Hc1.
  assert (He1 : errors Inbound (set_middlewaresSub sub c1) = errors Inbound c + 1).
  { conn. unfold errors. rewrite Ht1, count_app.
    change (Subscribe Inbound Src_middlewares :: t
              ++ [HandleEffectsError Inbound (ctx client) e])
      with ([Subscribe Inbound Src_middlewares] ++ t
              ++ [HandleEffectsError Inbound (ctx client) e]).
    rewrite !count_app, Hcount. cbn. lia. }
  set (c1' := set_middlewaresSub sub c1) in *.
  assert (Hop1 : open Inbound c1' = 0) by (apply open_zero_inbound; exact Hc1).
  destruct (resubscribe_outbound client c1') as ((Hq2 & _ & He2) & _ & HsI2 & _).
  set (c2 := if closed (effectsSub c1') then _ else c1') in *.
  destruct (closed_pipeline_stays_closed Inbound c1' c2 Hq2) as [He2' Hop2].
  { specialize (He2 Inbound). lia. }
  { exact Hop1. }
  destruct (incomingEventSubject_next_delivers client event c2)
    as (Hq3 & _ & He3 & _).
  destruct (closed_pipeline_stays_closed Inbound _ _ Hq3 (He3 Inbound) Hop2)
    as [He3' Hop3].
  split; [rewrite He3', He2'; exact He1|]. apply open_zero_inbound. exact Hop3.
Qed.

(** *** The claims about a connection *)

(** C4: an error of a pipeline is reported to [handleEffectsError] as the
    last thing the delivery does, once, and closes the subscription it came
    from, for the inbound pipeline as for the outbound one, whether the
    error comes in reaction to a value or at the moment the observable is
    subscribed to.  Over a whole frame the listeners of the connection stay
    registered and nothing of [onClose] happens; no pipeline reports more
    errors than it gives up subscriptions, the open one or one made for this
    frame; and a pipeline whose subscription is closed when a frame arrives
    is subscribed again, once, for that frame: if the new subscription fails
    at once, that error is reported, once more, and the subscription the
    frame leaves behind is closed, to be replaced by the next frame. *)
Theorem pipeline_error_reported_once_connection_survives client event c :
  (message_listener (onMessage client event c) = message_listener c
   ∧ close_listener (onMessage client event c) = close_listener c
   ∧ ∃ t, trace (onMessage client event c) = trace c ++ t
          ∧ count is_closing t = 0
          ∧ (∀ p, count (is_error_report p) t + open p (onMessage client event c)
                  ≤ open p c + count (is_subscribe p) t)
          ∧ (∀ p, open p c = 0 → count (is_subscribe p) t = 1))
  ∧ (∀ vs e rest,
       closed (middlewaresSub c) = false →
       on_next (source (middlewaresSub c)) (history (middlewaresSub c)) event
       = (Next <$> vs) ++ Error e :: rest →
       (∃ t, trace (incomingEventSubject_next client event c)
             = trace c ++ t ++ [HandleEffectsError Inbound (ctx client) e]
             ∧ count (is_error_report Inbound) t = 0)
       ∧ closed (middlewaresSub (incomingEventSubject_next client event c))
         = true)
  ∧ (∀ ev vs e rest,
       closed (effectsSub c) = false →
       on_next (source (effectsSub c)) (history (effectsSub c)) ev
       = (Next <$> vs) ++ Error e :: rest →
       trace (eventSubject_next client ev c)
       = trace c ++ EventSubjectNext ev :: (SendResponse <$> vs)
           ++ [HandleEffectsError Outbound (ctx client) e]
       ∧ closed (effectsSub (eventSubject_next client ev c)) = true)
  ∧ (∀ src input_ vs e rest,
       on_subscribe input_ = (Next <$> vs) ++ Error e :: rest →
       (∃ t, trace (subscribeMiddlewares client src input_ c).1
             = trace c ++ Subscribe Inbound src :: t
                 ++ [HandleEffectsError Inbound (ctx client) e]
             ∧ count (is_error_report Inbound) t = 0)
       ∧ closed (subscribeMiddlewares client src input_ c).2 = true)
  ∧ (∀ src input_ vs e rest,
       on_subscribe input_ = (Next <$> vs) ++ Error e :: rest →
       trace (subscribeEffects client src input_ c).1
       = trace c ++ Subscribe Outbound src :: (SendResponse <$> vs)
           ++ [HandleEffectsError Outbound (ctx client) e]
       ∧ closed (subscribeEffects client src input_ c).2 = true)
  ∧ (∀ vs e rest,
       closed (middlewaresSub c) = true →
       on_subscribe (middlewares_ client) = (Next <$> vs) ++ Error e :: rest →
       errors Inbound (onMessage client event c) = errors Inbound c + 1
       ∧ closed (middlewaresSub (onMessage client event c)) = true)
  ∧ (∀ vs e rest,
       closed (effectsSub c) = true →
       on_subscribe (effects_ client) = (Next <$> vs) ++ Error e :: rest →
       errors Outbound (onMessage client event c) = errors Outbound c + 1
       ∧ closed (effectsSub (onMessage client event c)) = true).
Proof.
  split; [|split; [|split; [|split; [|split; [|split]]]]].
  - destruct (onMessage_serves client event c)
      as (((Hm & Hc & [t Ht] & Hk) & Hs & He) & Hsub & _).
    split; [exact Hm|]. split; [exact Hc|].
    exists t. split; [exact Ht|].
    unfold closings, errors, subscriptions in *.
    rewrite Ht in *. setoid_rewrite count_app in He.
    setoid_rewrite count_app in Hsub. rewrite count_app in Hk.
    split; [lia|]. split.
    + intros p. specialize (He p). lia.
    + intros p Hp. specialize (Hsub p Hp). lia.
  - intros vs e rest. apply incomingEventSubject_next_error.
  - intros ev vs e rest. apply eventSubject_next_error.
  - intros src input_ vs e rest. apply subscribeMiddlewares_error.
  - intros src input_ vs e rest. apply subscribeEffects_error.
  - intros vs e rest. apply onMessage_inbound_resubscription_fails.
  - intros vs e rest. apply onMessage_outbound_resubscription_fails.
Qed.

End ConnectionProperties.

Section ServerProperties.
Import Js Rx WebSocket.

Variable WsErrorEffect : Type.
Variable config : option (WebSocketListenerConfig WsErrorEffect).
Variable ask : ContextProvider.

(** X16: the options the server is created with are those of the caller,
    each with the caller's value, [verifyClient] included: a caller that
    passes its own [verifyClient] replaces the admission of the listener, so
    that [connection$] is not consulted.  Only where the caller has no such
    property is [noServer] true and [verifyClient] the function of the
    listener; no other property is added. *)
Theorem server_options_of_caller_win
    (serverOptions : option (gmap string ServerOption)) (key : string) :
  webSocketServerOptions WsErrorEffect config ask serverOptions !! key
  = match default ∅ serverOptions !! key with
    | Some v => Some v
    | None =>
        if decide (key = "noServer"%string) then Some (OptBool true)
        else if decide (key = "verifyClient"%string)
             then Some (OptVerifyClient (verifyClient WsErrorEffect config ask))
             else None
    end.
Proof.
  unfold webSocketServerOptions. rewrite lookup_union.
  match goal with
  | |- context [?d !! key] =>
      lazymatch d with
      | insert _ _ _ => set (defaults := d)
      end
  end.
  destruct (default ∅ serverOptions !! key) as [v|].
  - destruct (defaults !! key); reflexivity.
  - subst defaults. destruct (decide (key = "noServer"%string)) as [->|Hn].
    + reflexivity.
    + rewrite lookup_insert_ne by congruence.
      destruct (decide (key = "verifyClient"%string)) as [->|Hvc].
      * rewrite lookup_singleton_eq. reflexivity.
      * rewrite lookup_singleton_ne by congruence. reflexivity.
Qed.

End ServerProperties.

(** ** The connections of one server *)

Section ServerConnections.
Import Js Rx WebSocket WebSocketServer.

Variable WsErrorEffect : Type.
Variable config : option (WebSocketListenerConfig WsErrorEffect).
Variable ask : ContextProvider.
Variable combineMiddlewares : list WsMiddlewareEffect → WsMiddlewareEffect.
Variable combineEffects : list WsEffect → WsEffect.
Variable jsonTransformer : EventTransformer.

Local Abbreviation handleEffectsError := (WebSocketServer.handleEffectsError ask).
Local Abbreviation eventSubject_next := (WebSocketServer.eventSubject_next ask).
Local Abbreviation push := (WebSocketServer.push ask).
Local Abbreviation deliver_outbound := (WebSocketServer.deliver_outbound ask).
Local Abbreviation deliver_inbound := (WebSocketServer.deliver_inbound ask).
Local Abbreviation incomingEventSubject_next :=
  (WebSocketServer.incomingEventSubject_next ask).
Local Abbreviation subscribeMiddlewares := (WebSocketServer.subscribeMiddlewares ask).
Local Abbreviation subscribeEffects := (WebSocketServer.subscribeEffects ask).
Local Abbreviation onMessage :=
  (WebSocketServer.onMessage WsErrorEffect config ask combineMiddlewares
     combineEffects jsonTransformer).
Local Abbreviation onClose := WebSocketServer.onClose.
Local Abbreviation handleMessage :=
  (WebSocketServer.handleMessage WsErrorEffect config ask combineMiddlewares
     combineEffects jsonTransformer).
Local Abbreviation emit_message :=
  (WebSocketServer.emit_message WsErrorEffect config ask combineMiddlewares
     combineEffects jsonTransformer).
Local Abbreviation socket_step :=
  (WebSocketServer.socket_step WsErrorEffect config ask combineMiddlewares
     combineEffects jsonTransformer).
Local Abbreviation socket_run :=
  (WebSocketServer.socket_run WsErrorEffect config ask combineMiddlewares
     combineEffects jsonTransformer).

(** The functions of one connection. *)
Local Abbreviation connection_onMessage :=
  (WebSocket.onMessage WsErrorEffect config ask combineMiddlewares
     combineEffects jsonTransformer).
Local Abbreviation connection_emit_message :=
  (WebSocket.emit_message WsErrorEffect config ask combineMiddlewares
     combineEffects jsonTransformer).
Local Abbreviation connection_handleMessage :=
  (WebSocket.handleMessage WsErrorEffect config ask combineMiddlewares
     combineEffects jsonTransformer).
Local Abbreviation connection_emit :=
  (WebSocket.emit WsErrorEffect config ask combineMiddlewares combineEffects
     jsonTransformer).
Local Abbreviation emit_close :=
  (WebSocketServer.emit_close).
Local Abbreviation middlewares_ :=
  (WebSocket.middlewares_ WsErrorEffect config ask combineMiddlewares
     jsonTransformer).
Local Abbreviation effects_ :=
  (WebSocket.effects_ WsErrorEffect config ask combineEffects).
Local Abbreviation effectsOutput_ :=
  (WebSocket.effectsOutput_ WsErrorEffect config ask combineEffects).

Implicit Types (s : Server) (c : Connection) (k r : Ref) (sc : Scope)
  (m e : option Ref) (a : ClientRef).

(** *** What an activation has done *)

Lemma trace_of_app k (t t' : list (Ref * Action)) :
  trace_of k (t ++ t') = trace_of k t ++ trace_of k t'.
Proof. unfold trace_of. rewrite filter_app, fmap_app. reflexivity. Qed.

Lemma trace_of_own k (t : list Action) : trace_of k (pair k <$> t) = t.
Proof.
  unfold trace_of. induction t as [|x t IH]; [reflexivity|].
  rewrite fmap_cons, filter_cons_True by reflexivity.
  rewrite fmap_cons, IH. reflexivity.
Qed.

Lemma trace_of_other k k' (t : list Action) :
  k' ≠ k → trace_of k' (pair k <$> t) = [].
Proof.
  intros Hne. unfold trace_of. induction t as [|x t IH]; [reflexivity|].
  rewrite fmap_cons, filter_cons_False by (cbn; congruence). exact IH.
Qed.

(** *** Two subscribers in step *)

Lemma notify_in_step {A S T} (R : S → T → Prop)
    (next : A → S → S) (error : JsError → S → S)
    (next' : A → T → T) (error' : JsError → T → T) (b : Batch A) (x : S) (y : T) :
  (∀ v x y, R x y → R (next v x) (next' v y)) →
  (∀ err x y, R x y → R (error err x) (error' err y)) →
  R x y →
  R (notify next error b x).1 (notify next' error' b y).1
  ∧ (notify next error b x).2 = (notify next' error' b y).2.
Proof.
  intros Hnext Herror. revert x y.
  induction b as [|[v|err|] b IH]; intros x y HR; cbn.
  - split; [exact HR|reflexivity].
  - apply IH, Hnext, HR.
  - split; [apply Herror, HR|reflexivity].
  - split; [exact HR|reflexivity].
Qed.

Lemma follows_refl k sc m e s c : attached k sc m e s c → follows k m e s c s c.
Proof.
  intros [Hsc Hin Hout Hm He].
  constructor; try reflexivity.
  - exists []. split; [cbn; symmetry; apply app_nil_r|symmetry; apply app_nil_r].
  - destruct m as [r|]; [|reflexivity]. cbn in *. symmetry. apply insert_id. exact Hm.
  - destruct e as [r|]; [|reflexivity]. cbn in *. symmetry. apply insert_id. exact He.
Qed.

Lemma follows_log k m e s0 c0 s c (x : Action) :
  follows k m e s0 c0 s c →
  follows k m e s0 c0 (WebSocketServer.log k x s) (WebSocket.log x c).
Proof.
  intros [? ? ? ? ? ? ? (t & Ht & Ht') ? ? ? ? ? ?].
  constructor; cbn; try assumption.
  exists (t ++ [x]). rewrite Ht, Ht', fmap_app, <- !app_assoc. split; reflexivity.
Qed.

Lemma follows_set_outbound k m r s0 c0 s c
    (f : Subscription Event → Subscription Event) :
  follows k m (Some r) s0 c0 s c →
  follows k m (Some r) s0 c0
    (set_outbound (alter (over f) r (outbound s)) s)
    (WebSocket.set_effectsSub (f (WebSocket.effectsSub c)) c).
Proof.
  intros [? ? ? ? ? ? ? ? ? Hout ? ? ? ?].
  constructor; cbn; try assumption; try discriminate.
  rewrite Hout. cbn. rewrite alter_insert_eq. reflexivity.
Qed.

Lemma follows_set_inbound k r e s0 c0 s c
    (f : Subscription WebSocketData → Subscription WebSocketData) :
  follows k (Some r) e s0 c0 s c →
  follows k (Some r) e s0 c0
    (set_inbound (alter (over f) r (inbound s)) s)
    (WebSocket.set_middlewaresSub (f (WebSocket.middlewaresSub c)) c).
Proof.
  intros [? ? ? ? ? ? ? ? Hin ? ? ? ? ?].
  constructor; cbn; try assumption; try discriminate.
  rewrite Hin. cbn. rewrite alter_insert_eq. reflexivity.
Qed.

Lemma follows_sendResponse k m e s0 c0 s c (v : Event) :
  follows k m e s0 c0 s c →
  follows k m e s0 c0 (WebSocketServer.sendResponse k v s)
    (WebSocket.sendResponse v c).
Proof. apply follows_log. Qed.

Lemma follows_handleEffectsError k sc m e s0 c0 s c (p : Pipeline) (x : JsError) :
  scopes s0 !! k = Some sc →
  follows k m e s0 c0 s c →
  follows k m e s0 c0 (handleEffectsError k p x s)
    (WebSocket.handleEffectsError ask (client sc) p x c).
Proof.
  intros Hsc H. unfold WebSocketServer.handleEffectsError.
  rewrite (follows_scopes _ _ _ _ _ _ _ H), Hsc. apply follows_log. exact H.
Qed.

(** *** A value handed to the observers of a subject *)

Lemma deliver_outbound_stale k (v : Event) s r :
  stale k (outbound s) r → deliver_outbound v s r = s.
Proof.
  intros (o & Ho & _ & Hclosed). unfold WebSocketServer.deliver_outbound.
  rewrite Ho. cbn zeta. rewrite Hclosed. reflexivity.
Qed.

Lemma deliver_inbound_stale k (v : WebSocketData) s r :
  stale k (inbound s) r → deliver_inbound v s r = s.
Proof.
  intros (o & Ho & _ & Hclosed). unfold WebSocketServer.deliver_inbound.
  rewrite Ho. cbn zeta. rewrite Hclosed. reflexivity.
Qed.

Lemma stale_with_subscriber {I} k (current : option Ref) (sub : Subscription I)
    (store : gmap Ref (Subscriber I)) r :
  (∀ r', current = Some r' → r' ≠ r) →
  stale k store r → stale k (with_subscriber k current sub store) r.
Proof.
  intros Hne (o & Ho & Hk & Hc). exists o. split; [|split; assumption].
  destruct current as [r'|]; cbn; [|exact Ho].
  rewrite lookup_insert_ne by (apply Hne; reflexivity). exact Ho.
Qed.

Lemma foldl_stale (f : Server → Ref → Server) (P : Ref → Prop) s (l : list Ref) :
  (∀ r, P r → f s r = s) → Forall P l → foldl f s l = s.
Proof.
  intros Hf Hl. induction Hl as [|r l Hr _ IH]; [reflexivity|].
  cbn. rewrite (Hf r Hr). exact IH.
Qed.

Lemma follows_eventSubject_next k sc m e s0 c0 s c (v : Event) :
  attached k sc m e s0 c0 →
  follows k m e s0 c0 s c →
  follows k m e s0 c0 (eventSubject_next k (eventSubject sc) v s)
    (WebSocket.eventSubject_next ask (client sc) v c).
Proof.
  intros Hat H.
  unfold WebSocketServer.eventSubject_next, WebSocket.eventSubject_next.
  cbn zeta.
  apply (follows_log _ _ _ _ _ _ _ (EventSubjectNext v)) in H.
  change (observers (WebSocketServer.log k (EventSubjectNext v) s))
    with (observers s).
  assert (Hobs : observers s = observers s0).
  { rewrite <- (follows_observers _ _ _ _ _ _ _ H). reflexivity. }
  rewrite Hobs. clear Hobs. revert H.
  generalize (WebSocketServer.log k (EventSubjectNext v) s)
             (WebSocket.log (EventSubjectNext v) c).
  clear s c. intros s c H.
  destruct (attached_outbound _ _ _ _ _ _ Hat) as (olds & -> & Holds & Hfresh).
  rewrite foldl_app.
  rewrite (foldl_stale (deliver_outbound v) (stale k (outbound s)) s olds).
  2:{ intros r Hr. apply (deliver_outbound_stale k). exact Hr. }
  2:{ rewrite (follows_outbound _ _ _ _ _ _ _ H).
      apply Forall_forall. intros r Hr.
      apply stale_with_subscriber.
      - intros r' -> ->. apply (Hfresh r); [reflexivity|exact Hr].
      - revert r Hr. apply Forall_forall. exact Holds. }
  destruct e as [r|].
  - change (option_list (Some r)) with [r]. cbn [foldl].
    unfold WebSocketServer.deliver_outbound.
    assert (Hlook : outbound s !! r
                    = Some {| subscription := WebSocket.effectsSub c; scope := k |}).
    { rewrite (follows_outbound _ _ _ _ _ _ _ H). apply lookup_insert_eq. }
    rewrite Hlook. cbn [subscription scope].
    destruct (closed (WebSocket.effectsSub c)); [exact H|].
    set (b := on_next _ _ v).
    pose proof (follows_set_outbound _ _ _ _ _ _ _ (record_input v) H) as H1.
    destruct (notify_in_step (follows k m (Some r) s0 c0)
                (WebSocketServer.sendResponse k) (handleEffectsError k Outbound)
                WebSocket.sendResponse
                (WebSocket.handleEffectsError ask (client sc) Outbound) b
                _ _
                (λ v s c, follows_sendResponse k m (Some r) s0 c0 s c v)
                (λ x s c, follows_handleEffectsError k sc m (Some r) s0 c0 s c
                            Outbound x (attached_scope _ _ _ _ _ _ Hat))
                H1) as [H2 Hflag].
    destruct (notify (WebSocketServer.sendResponse k) _ b _) as [s2 t2].
    destruct (notify WebSocket.sendResponse _ b _) as [c2 t2'].
    cbn [fst snd] in H2, Hflag. subst t2'.
    destruct t2; [|exact H2].
    apply follows_set_outbound. exact H2.
  - change (option_list None) with (@nil Ref). cbn [foldl].
    assert (Hclosed : closed (WebSocket.effectsSub c) = true).
    { rewrite (follows_no_outbound _ _ _ _ _ _ _ H eq_refl).
      exact (attached_effectsSub _ _ _ _ _ _ Hat). }
    rewrite Hclosed. exact H.
Qed.

Lemma follows_push k sc m e s0 c0 s c (v : Event) :
  attached k sc m e s0 c0 →
  follows k m e s0 c0 s c →
  follows k m e s0 c0 (push k v s)
    (WebSocket.eventSubject_next ask (client sc) v c).
Proof.
  intros Hat H. unfold WebSocketServer.push.
  rewrite (follows_scopes _ _ _ _ _ _ _ H), (attached_scope _ _ _ _ _ _ Hat).
  apply follows_eventSubject_next; assumption.
Qed.

Lemma follows_incomingEventSubject_next k sc m e s0 c0 s c (v : WebSocketData) :
  attached k sc m e s0 c0 →
  follows k m e s0 c0 s c →
  follows k m e s0 c0 (incomingEventSubject_next k (incomingEventSubject sc) v s)
    (WebSocket.incomingEventSubject_next ask (client sc) v c).
Proof.
  intros Hat H.
  unfold WebSocketServer.incomingEventSubject_next,
    WebSocket.incomingEventSubject_next.
  cbn zeta.
  apply (follows_log _ _ _ _ _ _ _ (IncomingEventSubjectNext v)) in H.
  change (observers (WebSocketServer.log k (IncomingEventSubjectNext v) s))
    with (observers s).
  assert (Hobs : observers s = observers s0).
  { rewrite <- (follows_observers _ _ _ _ _ _ _ H). reflexivity. }
  rewrite Hobs. clear Hobs. revert H.
  generalize (WebSocketServer.log k (IncomingEventSubjectNext v) s)
             (WebSocket.log (IncomingEventSubjectNext v) c).
  clear s c. intros s c H.
  destruct (attached_inbound _ _ _ _ _ _ Hat) as (olds & -> & Holds & Hfresh).
  rewrite foldl_app.
  rewrite (foldl_stale (deliver_inbound v) (stale k (inbound s)) s olds).
  2:{ intros r Hr. apply (deliver_inbound_stale k). exact Hr. }
  2:{ rewrite (follows_inbound _ _ _ _ _ _ _ H).
      apply Forall_forall. intros r Hr.
      apply stale_with_subscriber.
      - intros r' -> ->. apply (Hfresh r); [reflexivity|exact Hr].
      - revert r Hr. apply Forall_forall. exact Holds. }
  destruct m as [r|].
  - change (option_list (Some r)) with [r]. cbn [foldl].
    unfold WebSocketServer.deliver_inbound.
    assert (Hlook : inbound s !! r
                    = Some {| subscription := WebSocket.middlewaresSub c;
                              scope := k |}).
    { rewrite (follows_inbound _ _ _ _ _ _ _ H). apply lookup_insert_eq. }
    rewrite Hlook. cbn [subscription scope].
    destruct (closed (WebSocket.middlewaresSub c)); [exact H|].
    set (b := on_next _ _ v).
    pose proof (follows_set_inbound _ _ _ _ _ _ _ (record_input v) H) as H1.
    destruct (notify_in_step (follows k (Some r) e s0 c0)
                (push k) (handleEffectsError k Inbound)
                (WebSocket.eventSubject_next ask (client sc))
                (WebSocket.handleEffectsError ask (client sc) Inbound) b
                _ _
                (λ v s c, follows_push k sc (Some r) e s0 c0 s c v Hat)
                (λ x s c, follows_handleEffectsError k sc (Some r) e s0 c0 s c
                            Inbound x (attached_scope _ _ _ _ _ _ Hat))
                H1) as [H2 Hflag].
    destruct (notify (push k) _ b _) as [s2 t2].
    destruct (notify (WebSocket.eventSubject_next ask (client sc)) _ b _)
      as [c2 t2'].
    cbn [fst snd] in H2, Hflag. subst t2'.
    destruct t2; [|exact H2].
    apply follows_set_inbound. exact H2.
  - change (option_list None) with (@nil Ref). cbn [foldl].
    assert (Hclosed : closed (WebSocket.middlewaresSub c) = true).
    { rewrite (follows_no_inbound _ _ _ _ _ _ _ H eq_refl).
      exact (attached_middlewaresSub _ _ _ _ _ _ Hat). }
    rewrite Hclosed. exact H.
Qed.


(** *** What stays in step keeps its arrangement *)

Lemma bounded_inbound s r (o : Subscriber WebSocketData) :
  bounded s → inbound s !! r = Some o → (r < fresh s)%positive.
Proof.
  intros Hb Ho. destruct (Pos.ltb_spec r (fresh s)) as [Hlt|Hle]; [exact Hlt|].
  destruct (Hb r Hle) as [Hnone _]. congruence.
Qed.

Lemma bounded_outbound s r (o : Subscriber Event) :
  bounded s → outbound s !! r = Some o → (r < fresh s)%positive.
Proof.
  intros Hb Ho. destruct (Pos.ltb_spec r (fresh s)) as [Hlt|Hle]; [exact Hlt|].
  destruct (Hb r Hle) as [_ Hnone]. congruence.
Qed.

Lemma observed_with_subscriber {I} k (store : gmap Ref (Subscriber I))
    (l : list Ref) (current : option Ref) (sub : Subscription I) :
  observed k store l current →
  observed k (with_subscriber k current sub store) l current.
Proof.
  intros (olds & -> & Holds & Hfresh). exists olds.
  split; [reflexivity|]. split; [|exact Hfresh].
  apply Forall_forall. intros r Hr. apply stale_with_subscriber.
  - intros r' -> ->. apply (Hfresh r); [reflexivity|exact Hr].
  - revert r Hr. apply Forall_forall. exact Holds.
Qed.

Lemma holds_with_subscriber {I} k (store : gmap Ref (Subscriber I))
    (current : option Ref) (sub0 sub : Subscription I) :
  holds k store current sub0 →
  (current = None → sub = sub0) →
  holds k (with_subscriber k current sub store) current sub.
Proof.
  destruct current as [r|]; cbn.
  - intros _ _. apply lookup_insert_eq.
  - intros Hclosed Heq. rewrite (Heq eq_refl). exact Hclosed.
Qed.

Lemma follows_attached k sc m e s0 c0 s c :
  attached k sc m e s0 c0 → follows k m e s0 c0 s c → attached k sc m e s c.
Proof.
  intros [Hsc Hin Hout Hm He] H. constructor.
  - rewrite (follows_scopes _ _ _ _ _ _ _ H). exact Hsc.
  - rewrite (follows_observers _ _ _ _ _ _ _ H), (follows_inbound _ _ _ _ _ _ _ H).
    apply observed_with_subscriber. exact Hin.
  - rewrite (follows_observers _ _ _ _ _ _ _ H), (follows_outbound _ _ _ _ _ _ _ H).
    apply observed_with_subscriber. exact Hout.
  - rewrite (follows_inbound _ _ _ _ _ _ _ H).
    eapply holds_with_subscriber; [exact Hm|].
    apply (follows_no_inbound _ _ _ _ _ _ _ H).
  - rewrite (follows_outbound _ _ _ _ _ _ _ H).
    eapply holds_with_subscriber; [exact He|].
    apply (follows_no_outbound _ _ _ _ _ _ _ H).
Qed.

Lemma with_subscriber_other {I} k (store : gmap Ref (Subscriber I))
    (current : option Ref) (sub0 sub : Subscription I) r (o : Subscriber I) :
  holds k store current sub0 →
  store !! r = Some o → scope o ≠ k →
  with_subscriber k current sub store !! r = Some o.
Proof.
  destruct current as [r'|]; cbn; [|intros _ H _; exact H].
  intros Hcur Ho Hne. rewrite lookup_insert_ne; [exact Ho|].
  intros ->. rewrite Hcur in Ho. injection Ho as <-. apply Hne. reflexivity.
Qed.

Lemma with_subscriber_None {I} k (store : gmap Ref (Subscriber I))
    (current : option Ref) (sub0 sub : Subscription I) r :
  holds k store current sub0 →
  store !! r = None →
  with_subscriber k current sub store !! r = None.
Proof.
  destruct current as [r'|]; cbn; [|intros _ H; exact H].
  intros Hcur Hnone. rewrite lookup_insert_ne; [exact Hnone|].
  intros ->. congruence.
Qed.

Lemma follows_evolves k sc m e s0 c0 s c (subjects : list Ref) :
  attached k sc m e s0 c0 → follows k m e s0 c0 s c →
  evolves k subjects s0 c0 s c.
Proof.
  intros Hat H. destruct H as [Hf Hs Ho Hm He Hml Hcl Ht Hin Hout _ _ Hfm Hfc].
  constructor; try assumption.
  - rewrite Hf. reflexivity.
  - intros k' _. rewrite Hm. reflexivity.
  - intros k' _. rewrite He. reflexivity.
  - intros r o Hr Hne. rewrite Hin.
    eapply with_subscriber_other; [exact (attached_middlewaresSub _ _ _ _ _ _ Hat)| |];
      eassumption.
  - intros r o Hr Hne. rewrite Hout.
    eapply with_subscriber_other; [exact (attached_effectsSub _ _ _ _ _ _ Hat)| |];
      eassumption.
  - intros subject _. rewrite Ho. reflexivity.
Qed.

Lemma follows_bounded k sc m e s0 c0 s c :
  attached k sc m e s0 c0 → follows k m e s0 c0 s c → bounded s0 → bounded s.
Proof.
  intros Hat H Hb r Hr. rewrite (follows_fresh _ _ _ _ _ _ _ H) in Hr.
  destruct (Hb r Hr) as [Hi Ho].
  rewrite (follows_inbound _ _ _ _ _ _ _ H), (follows_outbound _ _ _ _ _ _ _ H).
  split.
  - eapply with_subscriber_None;
      [exact (attached_middlewaresSub _ _ _ _ _ _ Hat)|exact Hi].
  - eapply with_subscriber_None;
      [exact (attached_effectsSub _ _ _ _ _ _ Hat)|exact Ho].
Qed.

Lemma evolves_refl k (subjects : list Ref) s c : evolves k subjects s c s c.
Proof.
  constructor; try reflexivity; try (intros; reflexivity); try (intros; assumption).
  exists []. split; [cbn|]; symmetry; apply app_nil_r.
Qed.

Lemma evolves_trans k (subjects : list Ref) s1 c1 s2 c2 s3 c3 :
  evolves k subjects s1 c1 s2 c2 → evolves k subjects s2 c2 s3 c3 →
  evolves k subjects s1 c1 s3 c3.
Proof.
  intros [Hf1 Hs1 Hml1 Hcl1 (t1 & Ht1 & Ht1') Hfm1 Hfc1 Hm1 He1 Hi1 Ho1 Hob1]
         [Hf2 Hs2 Hml2 Hcl2 (t2 & Ht2 & Ht2') Hfm2 Hfc2 Hm2 He2 Hi2 Ho2 Hob2].
  constructor; try congruence.
  - etrans; eassumption.
  - exists (t1 ++ t2). rewrite Ht2, Ht1, Ht2', Ht1', fmap_app, <- !app_assoc.
    split; reflexivity.
  - intros k' Hne. rewrite Hm2, Hm1 by exact Hne. reflexivity.
  - intros k' Hne. rewrite He2, He1 by exact Hne. reflexivity.
  - intros r o Hr Hne. eapply Hi2; [eapply Hi1|]; eassumption.
  - intros r o Hr Hne. eapply Ho2; [eapply Ho1|]; eassumption.
  - intros subject Hnot. rewrite Hob2, Hob1 by exact Hnot. reflexivity.
Qed.


(** *** Subscribing *)

Lemma subscribeMiddlewares_follows k sc m e s0 c0 s c (subject : Ref)
    (src : Source) (input_ : Observable WebSocketData Event) :
  attached k sc m e s0 c0 → follows k m e s0 c0 s c →
  ∃ s1 c1 sub,
    WebSocket.subscribeMiddlewares ask (client sc) src input_ c = (c1, sub)
    ∧ follows k m e s0 c0 s1 c1
    ∧ subscribeMiddlewares k subject src input_ s
      = (observe subject (fresh s1)
           (set_inbound
              (<[fresh s1 := {| subscription := sub; scope := k |}]> (inbound s1))
              (set_fresh (Pos.succ (fresh s1)) s1)),
         fresh s1).
Proof.
  intros Hat H.
  unfold WebSocketServer.subscribeMiddlewares, WebSocket.subscribeMiddlewares.
  cbn zeta.
  apply (follows_log _ _ _ _ _ _ _ (Subscribe Inbound src)) in H.
  destruct (notify_in_step (follows k m e s0 c0)
              (push k) (handleEffectsError k Inbound)
              (WebSocket.eventSubject_next ask (client sc))
              (WebSocket.handleEffectsError ask (client sc) Inbound)
              (on_subscribe input_) _ _
              (λ v s c, follows_push k sc m e s0 c0 s c v Hat)
              (λ x s c, follows_handleEffectsError k sc m e s0 c0 s c
                          Inbound x (attached_scope _ _ _ _ _ _ Hat))
              H) as [H2 Hflag].
  destruct (notify (push k) _ _ _) as [s2 t2].
  destruct (notify (WebSocket.eventSubject_next ask (client sc)) _ _ _)
    as [c2 t2'].
  cbn [fst snd] in H2, Hflag. subst t2'.
  eexists s2, c2, _. split; [reflexivity|]. split; [exact H2|]. reflexivity.
Qed.

Lemma subscribeEffects_follows k sc m e s0 c0 s c (subject : Ref)
    (src : Source) (input_ : Observable Event Event) :
  attached k sc m e s0 c0 → follows k m e s0 c0 s c →
  ∃ s1 c1 sub,
    WebSocket.subscribeEffects ask (client sc) src input_ c = (c1, sub)
    ∧ follows k m e s0 c0 s1 c1
    ∧ subscribeEffects k subject src input_ s
      = (observe subject (fresh s1)
           (set_outbound
              (<[fresh s1 := {| subscription := sub; scope := k |}]> (outbound s1))
              (set_fresh (Pos.succ (fresh s1)) s1)),
         fresh s1).
Proof.
  intros Hat H.
  unfold WebSocketServer.subscribeEffects, WebSocket.subscribeEffects.
  cbn zeta.
  apply (follows_log _ _ _ _ _ _ _ (Subscribe Outbound src)) in H.
  destruct (notify_in_step (follows k m e s0 c0)
              (WebSocketServer.sendResponse k) (handleEffectsError k Outbound)
              WebSocket.sendResponse
              (WebSocket.handleEffectsError ask (client sc) Outbound)
              (on_subscribe input_) _ _
              (λ v s c, follows_sendResponse k m e s0 c0 s c v)
              (λ x s c, follows_handleEffectsError k sc m e s0 c0 s c
                          Outbound x (attached_scope _ _ _ _ _ _ Hat))
              H) as [H2 Hflag].
  destruct (notify (WebSocketServer.sendResponse k) _ _ _) as [s2 t2].
  destruct (notify WebSocket.sendResponse _ _ _) as [c2 t2'].
  cbn [fst snd] in H2, Hflag. subst t2'.
  eexists s2, c2, _. split; [reflexivity|]. split; [exact H2|]. reflexivity.
Qed.

Lemma stale_insert_ne {I} k (store : gmap Ref (Subscriber I)) r r'
    (o : Subscriber I) :
  store !! r' = None → stale k store r → stale k (<[r' := o]> store) r.
Proof.
  intros Hnone (o' & Ho' & Hk & Hc). exists o'. split; [|split; assumption].
  rewrite lookup_insert_ne; [exact Ho'|]. intros ->. congruence.
Qed.

Lemma holds_stale {I} k (store : gmap Ref (Subscriber I)) (current : option Ref)
    (sub : Subscription I) :
  holds k store current sub → closed sub = true →
  Forall (stale k store) (option_list current).
Proof.
  destruct current as [r|]; intros Hcur Hclosed; [|constructor].
  change (option_list (Some r)) with [r].
  constructor; [|constructor]. eexists. split; [exact Hcur|]. split; [reflexivity|].
  exact Hclosed.
Qed.

(** The new subscription takes the place of the closed one: as an
    observer of the subject, and as the value of the variable. *)
Lemma observed_again {I} k (store : gmap Ref (Subscriber I)) (l : list Ref)
    (current : option Ref) (sub0 : Subscription I) r (o : Subscriber I) :
  observed k store l current →
  holds k store current sub0 → closed sub0 = true →
  store !! r = None →
  observed k (<[r := o]> store) (l ++ [r]) (Some r).
Proof.
  intros (olds & -> & Holds & Hfresh) Hcur Hclosed Hnone.
  exists (olds ++ option_list current). split; [reflexivity|]. split.
  - apply Forall_app. split.
    + apply Forall_forall. intros x Hx. apply stale_insert_ne; [exact Hnone|].
      revert x Hx. apply Forall_forall. exact Holds.
    + apply Forall_forall. intros x Hx. apply stale_insert_ne; [exact Hnone|].
      revert x Hx. apply Forall_forall. eapply holds_stale; eassumption.
  - intros r' [= <-] Hin. apply elem_of_app in Hin as [Hin|Hin].
    + assert (Hst : stale k store r)
        by (apply (proj1 (Forall_forall _ _) Holds); exact Hin).
      destruct Hst as (o' & Ho' & _). congruence.
    + destruct current as [x|]; [|apply elem_of_nil in Hin; exact Hin].
      apply list_elem_of_singleton in Hin. subst x. cbn in Hcur. congruence.
Qed.

Lemma subscribed_inbound k sc m0 e s1 c1 (sub : Subscription WebSocketData) :
  attached k sc m0 e s1 c1 → bounded s1 →
  eventSubject sc ≠ incomingEventSubject sc →
  closed (WebSocket.middlewaresSub c1) = true →
  let r := fresh s1 in
  let s' :=
    set_middlewaresSub (<[k := r]> (middlewaresSub s1))
      (observe (incomingEventSubject sc) r
         (set_inbound
            (<[r := {| subscription := sub; scope := k |}]> (inbound s1))
            (set_fresh (Pos.succ r) s1))) in
  let c' := WebSocket.set_middlewaresSub sub c1 in
  attached k sc (Some r) e s' c'
  ∧ evolves k [eventSubject sc; incomingEventSubject sc] s1 c1 s' c'
  ∧ bounded s'
  ∧ middlewaresSub s' !! k = Some r
  ∧ effectsSub s' = effectsSub s1.
Proof.
  intros [Hsc Hin Hout Hm He] Hb Hne Hclosed r s' c'.
  destruct (Hb r (Pos.le_refl _)) as [Hnone_in Hnone_out].
  split; [|split; [|split; [|split]]].
  - constructor.
    + exact Hsc.
    + subst s'. cbn. rewrite lookup_total_insert_eq.
      eapply observed_again; eassumption.
    + subst s'. cbn. rewrite lookup_total_insert_ne by (symmetry; exact Hne).
      exact Hout.
    + subst s'. cbn. apply lookup_insert_eq.
    + exact He.
  - constructor; subst s' c'; cbn.
    + lia.
    + reflexivity.
    + reflexivity.
    + reflexivity.
    + exists []. split; [cbn|]; symmetry; apply app_nil_r.
    + reflexivity.
    + reflexivity.
    + intros k' Hk'. apply lookup_insert_ne. congruence.
    + intros k' Hk'. reflexivity.
    + intros x o Hx _. rewrite lookup_insert_ne; [exact Hx|]. intros ->. congruence.
    + intros x o Hx _. exact Hx.
    + intros subject Hnot. apply lookup_total_insert_ne. intros Heq.
      apply Hnot. rewrite <- Heq.
      apply elem_of_cons. right. apply elem_of_cons. left. reflexivity.
  - intros x Hx. subst s'. cbn in *.
    assert (Hx' : (fresh s1 ≤ x)%positive) by lia.
    destruct (Hb x Hx') as [Hi Ho]. split; [|exact Ho].
    rewrite lookup_insert_ne; [exact Hi|]. subst r. lia.
  - subst s'. cbn. apply lookup_insert_eq.
  - reflexivity.
Qed.

Lemma subscribed_outbound k sc m e0 s1 c1 (sub : Subscription Event) :
  attached k sc m e0 s1 c1 → bounded s1 →
  eventSubject sc ≠ incomingEventSubject sc →
  closed (WebSocket.effectsSub c1) = true →
  let r := fresh s1 in
  let s' :=
    set_effectsSub (<[k := r]> (effectsSub s1))
      (observe (eventSubject sc) r
         (set_outbound
            (<[r := {| subscription := sub; scope := k |}]> (outbound s1))
            (set_fresh (Pos.succ r) s1))) in
  let c' := WebSocket.set_effectsSub sub c1 in
  attached k sc m (Some r) s' c'
  ∧ evolves k [eventSubject sc; incomingEventSubject sc] s1 c1 s' c'
  ∧ bounded s'
  ∧ effectsSub s' !! k = Some r
  ∧ middlewaresSub s' = middlewaresSub s1.
Proof.
  intros [Hsc Hin Hout Hm He] Hb Hne Hclosed r s' c'.
  destruct (Hb r (Pos.le_refl _)) as [Hnone_in Hnone_out].
  split; [|split; [|split; [|split]]].
  - constructor.
    + exact Hsc.
    + subst s'. cbn. rewrite lookup_total_insert_ne by exact Hne.
      exact Hin.
    + subst s'. cbn. rewrite lookup_total_insert_eq.
      eapply observed_again; eassumption.
    + exact Hm.
    + subst s'. cbn. apply lookup_insert_eq.
  - constructor; subst s' c'; cbn.
    + lia.
    + reflexivity.
    + reflexivity.
    + reflexivity.
    + exists []. split; [cbn|]; symmetry; apply app_nil_r.
    + reflexivity.
    + reflexivity.
    + intros k' Hk'. reflexivity.
    + intros k' Hk'. apply lookup_insert_ne. congruence.
    + intros x o Hx _. exact Hx.
    + intros x o Hx _. rewrite lookup_insert_ne; [exact Hx|]. intros ->. congruence.
    + intros subject Hnot. apply lookup_total_insert_ne. intros Heq.
      apply Hnot. rewrite <- Heq. apply elem_of_cons. left. reflexivity.
  - intros x Hx. subst s'. cbn in *.
    assert (Hx' : (fresh s1 ≤ x)%positive) by lia.
    destruct (Hb x Hx') as [Hi Ho]. split; [exact Hi|].
    rewrite lookup_insert_ne; [exact Ho|]. subst r. lia.
  - subst s'. cbn. apply lookup_insert_eq.
  - reflexivity.
Qed.


(** *** A frame, for the activation it is addressed to *)

Lemma middlewaresSub_closed_attached k sc r e s c :
  attached k sc (Some r) e s c → middlewaresSub s !! k = Some r →
  middlewaresSub_closed k s = closed (WebSocket.middlewaresSub c).
Proof.
  intros Hat Hcell. unfold middlewaresSub_closed. rewrite Hcell. cbn.
  rewrite (attached_middlewaresSub _ _ _ _ _ _ Hat). reflexivity.
Qed.

Lemma effectsSub_closed_attached k sc m r s c :
  attached k sc m (Some r) s c → effectsSub s !! k = Some r →
  effectsSub_closed k s = closed (WebSocket.effectsSub c).
Proof.
  intros Hat Hcell. unfold effectsSub_closed. rewrite Hcell. cbn.
  rewrite (attached_effectsSub _ _ _ _ _ _ Hat). reflexivity.
Qed.

Lemma resubscribed_inbound k sc r e s c (src : Source)
    (input_ : Observable WebSocketData Event) :
  attached k sc (Some r) e s c → bounded s →
  eventSubject sc ≠ incomingEventSubject sc →
  middlewaresSub s !! k = Some r →
  ∃ r',
    let s' :=
      if middlewaresSub_closed k s
      then let '(s1, r1) :=
             subscribeMiddlewares k (incomingEventSubject sc) src input_ s in
           set_middlewaresSub (<[k := r1]> (middlewaresSub s1)) s1
      else s in
    let c' :=
      if closed (WebSocket.middlewaresSub c)
      then let '(c1, sub) :=
             WebSocket.subscribeMiddlewares ask (client sc) src input_ c in
           WebSocket.set_middlewaresSub sub c1
      else c in
    attached k sc (Some r') e s' c'
    ∧ evolves k [eventSubject sc; incomingEventSubject sc] s c s' c'
    ∧ bounded s'
    ∧ middlewaresSub s' !! k = Some r'
    ∧ effectsSub s' = effectsSub s.
Proof.
  intros Hat Hb Hne Hcell.
  rewrite (middlewaresSub_closed_attached k sc r e s c Hat Hcell).
  destruct (closed (WebSocket.middlewaresSub c)) eqn:Hclosed.
  - destruct (subscribeMiddlewares_follows k sc (Some r) e s c s c
                (incomingEventSubject sc) src input_ Hat
                (follows_refl _ _ _ _ _ _ Hat))
      as (s1 & c1 & sub & Hc & Hf & Hs).
    rewrite Hc, Hs.
    destruct (subscribeMiddlewares_spec ask (client sc) src input_ c)
      as (c1' & sub' & Hc' & _ & Hsame & _).
    rewrite Hc in Hc'. injection Hc' as <- <-.
    pose proof (follows_attached _ _ _ _ _ _ _ _ Hat Hf) as Hat1.
    pose proof (follows_bounded _ _ _ _ _ _ _ _ Hat Hf Hb) as Hb1.
    pose proof (follows_evolves _ _ _ _ _ _ _ _
                  [eventSubject sc; incomingEventSubject sc] Hat Hf) as He1.
    destruct (subscribed_inbound k sc (Some r) e s1 c1 sub Hat1 Hb1 Hne)
      as (Hat2 & He2 & Hb2 & Hcell2 & Heff2).
    { rewrite Hsame. exact Hclosed. }
    exists (fresh s1). cbn zeta.
    split; [exact Hat2|]. split; [eapply evolves_trans; eassumption|].
    split; [exact Hb2|]. split; [exact Hcell2|].
    etrans; [exact Heff2|]. exact (follows_effectsSub _ _ _ _ _ _ _ Hf).
  - exists r. cbn zeta. split; [exact Hat|]. split; [apply evolves_refl|].
    split; [exact Hb|]. split; [exact Hcell|reflexivity].
Qed.

Lemma resubscribed_outbound k sc m r s c (src : Source)
    (input_ : Observable Event Event) :
  attached k sc m (Some r) s c → bounded s →
  eventSubject sc ≠ incomingEventSubject sc →
  effectsSub s !! k = Some r →
  ∃ r',
    let s' :=
      if effectsSub_closed k s
      then let '(s1, r1) :=
             subscribeEffects k (eventSubject sc) src input_ s in
           set_effectsSub (<[k := r1]> (effectsSub s1)) s1
      else s in
    let c' :=
      if closed (WebSocket.effectsSub c)
      then let '(c1, sub) :=
             WebSocket.subscribeEffects ask (client sc) src input_ c in
           WebSocket.set_effectsSub sub c1
      else c in
    attached k sc m (Some r') s' c'
    ∧ evolves k [eventSubject sc; incomingEventSubject sc] s c s' c'
    ∧ bounded s'
    ∧ effectsSub s' !! k = Some r'
    ∧ middlewaresSub s' = middlewaresSub s.
Proof.
  intros Hat Hb Hne Hcell.
  rewrite (effectsSub_closed_attached k sc m r s c Hat Hcell).
  destruct (closed (WebSocket.effectsSub c)) eqn:Hclosed.
  - destruct (subscribeEffects_follows k sc m (Some r) s c s c
                (eventSubject sc) src input_ Hat
                (follows_refl _ _ _ _ _ _ Hat))
      as (s1 & c1 & sub & Hc & Hf & Hs).
    rewrite Hc, Hs.
    destruct (subscribeEffects_spec ask (client sc) src input_ c)
      as (c1' & sub' & Hc' & _ & _ & Hsame & _).
    rewrite Hc in Hc'. injection Hc' as <- <-.
    pose proof (follows_attached _ _ _ _ _ _ _ _ Hat Hf) as Hat1.
    pose proof (follows_bounded _ _ _ _ _ _ _ _ Hat Hf Hb) as Hb1.
    pose proof (follows_evolves _ _ _ _ _ _ _ _
                  [eventSubject sc; incomingEventSubject sc] Hat Hf) as He1.
    destruct (subscribed_outbound k sc m (Some r) s1 c1 sub Hat1 Hb1 Hne)
      as (Hat2 & He2 & Hb2 & Hcell2 & Hmid2).
    { rewrite Hsame. exact Hclosed. }
    exists (fresh s1). cbn zeta.
    split; [exact Hat2|]. split; [eapply evolves_trans; eassumption|].
    split; [exact Hb2|]. split; [exact Hcell2|].
    etrans; [exact Hmid2|]. exact (follows_middlewaresSub _ _ _ _ _ _ _ Hf).
  - exists r. cbn zeta. split; [exact Hat|]. split; [apply evolves_refl|].
    split; [exact Hb|]. split; [exact Hcell|reflexivity].
Qed.

(** What [onMessage] of an activation does to the heap is what [onMessage]
    does to its connection. *)
Lemma onMessage_evolves k sc (m e : Ref) s c (event : WebSocketData) :
  attached k sc (Some m) (Some e) s c → bounded s →
  eventSubject sc ≠ incomingEventSubject sc →
  middlewaresSub s !! k = Some m → effectsSub s !! k = Some e →
  ∃ m' e' : Ref,
    attached k sc (Some m') (Some e') (onMessage k event s)
      (connection_onMessage (client sc) event c)
    ∧ evolves k [eventSubject sc; incomingEventSubject sc] s c
        (onMessage k event s) (connection_onMessage (client sc) event c)
    ∧ bounded (onMessage k event s)
    ∧ middlewaresSub (onMessage k event s) !! k = Some m'
    ∧ effectsSub (onMessage k event s) !! k = Some e'.
Proof.
  intros Hat Hb Hne Hm He.
  unfold WebSocketServer.onMessage, WebSocket.onMessage.
  rewrite (attached_scope _ _ _ _ _ _ Hat). cbn zeta.
  destruct (resubscribed_inbound k sc m (Some e) s c Src_middlewares
              (middlewares_ (client sc)) Hat Hb Hne Hm)
    as (m1 & Hat1 & Hev1 & Hb1 & Hm1 & He1).
  cbn zeta in Hat1, Hev1, Hb1, Hm1, He1.
  set (s1 := if middlewaresSub_closed k s then _ else s) in *.
  set (c1 := if closed (WebSocket.middlewaresSub c) then _ else c) in *.
  assert (He1' : effectsSub s1 !! k = Some e) by (rewrite He1; exact He).
  destruct (resubscribed_outbound k sc (Some m1) e s1 c1 Src_effects
              (effects_ (client sc)) Hat1 Hb1 Hne He1')
    as (e2 & Hat2 & Hev2 & Hb2 & He2 & Hm2).
  cbn zeta in Hat2, Hev2, Hb2, He2, Hm2.
  set (s2 := if effectsSub_closed k s1 then _ else s1) in *.
  set (c2 := if closed (WebSocket.effectsSub c1) then _ else c1) in *.
  pose proof (follows_incomingEventSubject_next k sc (Some m1) (Some e2)
                s2 c2 s2 c2 event Hat2 (follows_refl _ _ _ _ _ _ Hat2)) as Hf3.
  exists m1, e2.
  split; [exact (follows_attached _ _ _ _ _ _ _ _ Hat2 Hf3)|].
  split.
  { eapply evolves_trans; [exact Hev1|].
    eapply evolves_trans; [exact Hev2|].
    exact (follows_evolves _ _ _ _ _ _ _ _ _ Hat2 Hf3). }
  split; [exact (follows_bounded _ _ _ _ _ _ _ _ Hat2 Hf3 Hb2)|].
  split.
  - rewrite (follows_middlewaresSub _ _ _ _ _ _ _ Hf3), Hm2. exact Hm1.
  - rewrite (follows_effectsSub _ _ _ _ _ _ _ Hf3). exact He2.
Qed.


(** *** The connections of a heap *)

Lemma represents_view s k sc c : represents s k sc c → view s k = Some c.
Proof.
  intros (m & e & Hm & He & Hat & Ht & Hml & Hcl). unfold view.
  rewrite (attached_scope _ _ _ _ _ _ Hat), Hm, He. cbn.
  pose proof (attached_middlewaresSub _ _ _ _ _ _ Hat) as Hin.
  pose proof (attached_effectsSub _ _ _ _ _ _ Hat) as Hout.
  cbn in Hin, Hout. rewrite Hin, Hout. cbn.
  rewrite <- Ht, <- Hml, <- Hcl. destruct c; reflexivity.
Qed.

Lemma represents_scope s k sc c : represents s k sc c → scopes s !! k = Some sc.
Proof. intros (m & e & _ & _ & Hat & _). exact (attached_scope _ _ _ _ _ _ Hat). Qed.

Lemma evolves_confined k (subjects : list Ref) s c s' c' :
  evolves k subjects s c s' c' → confined k subjects s s'.
Proof.
  intros [Hf Hs Hml Hcl (t & Ht & _) _ _ Hm He Hi Ho Hob].
  constructor; try assumption.
  - intros k' _. rewrite Hs. reflexivity.
  - exists t. exact Ht.
  - intros a k' _. rewrite Hml. reflexivity.
  - intros a k' _. rewrite Hcl. reflexivity.
Qed.

Lemma confined_refl k (subjects : list Ref) s : confined k subjects s s.
Proof.
  constructor; try reflexivity; try (intros; reflexivity); try (intros; assumption).
  exists []. cbn. symmetry. apply app_nil_r.
Qed.

Lemma confined_trans k (subjects : list Ref) s1 s2 s3 :
  confined k subjects s1 s2 → confined k subjects s2 s3 →
  confined k subjects s1 s3.
Proof.
  intros [Hf1 Hs1 (t1 & Ht1) Hm1 He1 Hi1 Ho1 Hob1 Hml1 Hcl1]
         [Hf2 Hs2 (t2 & Ht2) Hm2 He2 Hi2 Ho2 Hob2 Hml2 Hcl2].
  constructor.
  - etrans; eassumption.
  - intros k' Hne. rewrite Hs2, Hs1 by exact Hne. reflexivity.
  - exists (t1 ++ t2). rewrite Ht2, Ht1, fmap_app, <- !app_assoc. reflexivity.
  - intros k' Hne. rewrite Hm2, Hm1 by exact Hne. reflexivity.
  - intros k' Hne. rewrite He2, He1 by exact Hne. reflexivity.
  - intros r o Hr Hne. eapply Hi2; [eapply Hi1|]; eassumption.
  - intros r o Hr Hne. eapply Ho2; [eapply Ho1|]; eassumption.
  - intros subject Hnot. rewrite Hob2, Hob1 by exact Hnot. reflexivity.
  - intros a k' Hne. rewrite Hml2, Hml1 by exact Hne. reflexivity.
  - intros a k' Hne. rewrite Hcl2, Hcl1 by exact Hne. reflexivity.
Qed.

Lemma trace_of_confined k k' (subjects : list Ref) s s' :
  confined k subjects s s' → k' ≠ k →
  trace_of k' (trace s') = trace_of k' (trace s).
Proof.
  intros H Hne. destruct (confined_trace _ _ _ _ H) as (t & ->).
  rewrite trace_of_app, (trace_of_other k k' t Hne). apply app_nil_r.
Qed.

Lemma stale_confined_inbound k k' (subjects : list Ref) s s' r :
  confined k subjects s s' → k' ≠ k →
  stale k' (inbound s) r → stale k' (inbound s') r.
Proof.
  intros H Hne (o & Ho & Hk & Hc). exists o. split; [|split; assumption].
  apply (confined_inbound _ _ _ _ H); [exact Ho|congruence].
Qed.

Lemma stale_confined_outbound k k' (subjects : list Ref) s s' r :
  confined k subjects s s' → k' ≠ k →
  stale k' (outbound s) r → stale k' (outbound s') r.
Proof.
  intros H Hne (o & Ho & Hk & Hc). exists o. split; [|split; assumption].
  apply (confined_outbound _ _ _ _ H); [exact Ho|congruence].
Qed.

(** What is confined to one activation leaves the connection of every
    other one as it is. *)
Lemma confined_represents k k' (subjects : list Ref) s s' sc' c' :
  confined k subjects s s' → k' ≠ k →
  eventSubject sc' ∉ subjects → incomingEventSubject sc' ∉ subjects →
  represents s k' sc' c' → represents s' k' sc' c'.
Proof.
  intros H Hne Hev Hinc (m & e & Hm & He & [Hsc Hin Hout Hmid Heff] & Ht & Hml & Hcl).
  exists m, e.
  split; [rewrite (confined_middlewaresSub _ _ _ _ H) by exact Hne; exact Hm|].
  split; [rewrite (confined_effectsSub _ _ _ _ H) by exact Hne; exact He|].
  split; [|split; [|split]].
  - constructor.
    + rewrite (confined_scopes _ _ _ _ H) by exact Hne. exact Hsc.
    + rewrite (confined_observers _ _ _ _ H) by exact Hinc.
      destruct Hin as (olds & Heq & Holds & Hfresh). exists olds.
      split; [exact Heq|]. split; [|exact Hfresh].
      apply Forall_forall. intros r Hr.
      apply (stale_confined_inbound k k' subjects s s' r H Hne).
      apply (proj1 (Forall_forall _ _) Holds). exact Hr.
    + rewrite (confined_observers _ _ _ _ H) by exact Hev.
      destruct Hout as (olds & Heq & Holds & Hfresh). exists olds.
      split; [exact Heq|]. split; [|exact Hfresh].
      apply Forall_forall. intros r Hr.
      apply (stale_confined_outbound k k' subjects s s' r H Hne).
      apply (proj1 (Forall_forall _ _) Holds). exact Hr.
    + cbn in *. apply (confined_inbound _ _ _ _ H); [exact Hmid|exact Hne].
    + cbn in *. apply (confined_outbound _ _ _ _ H); [exact Heff|exact Hne].
  - rewrite (trace_of_confined k k' subjects s s' H Hne). exact Ht.
  - rewrite Hml. apply bool_decide_ext. symmetry.
    apply (confined_message_listeners _ _ _ _ H). exact Hne.
  - rewrite Hcl. apply bool_decide_ext. symmetry.
    apply (confined_close_listeners _ _ _ _ H). exact Hne.
Qed.

Lemma evolves_represents k (subjects : list Ref) sc (m' e' : Ref) s c s' c' :
  represents s k sc c →
  evolves k subjects s c s' c' →
  attached k sc (Some m') (Some e') s' c' →
  middlewaresSub s' !! k = Some m' → effectsSub s' !! k = Some e' →
  represents s' k sc c'.
Proof.
  intros (m & e & _ & _ & _ & Ht & Hml & Hcl) Hev Hat Hm He.
  exists m', e'. split; [exact Hm|]. split; [exact He|]. split; [exact Hat|].
  destruct (evolves_trace _ _ _ _ _ _ Hev) as (t & Hts & Htc).
  split; [|split].
  - rewrite Htc, Hts, trace_of_app, trace_of_own, Ht. reflexivity.
  - rewrite (evolves_message_listener _ _ _ _ _ _ Hev),
      (evolves_message_listeners _ _ _ _ _ _ Hev). exact Hml.
  - rewrite (evolves_close_listener _ _ _ _ _ _ Hev),
      (evolves_close_listeners _ _ _ _ _ _ Hev). exact Hcl.
Qed.

(** The subjects of an activation are not those of another one. *)
Lemma apart_subjects s k k' sc sc' :
  well_formed s → scopes s !! k = Some sc → scopes s !! k' = Some sc' → k' ≠ k →
  (eventSubject sc' ∉ [eventSubject sc; incomingEventSubject sc])
  ∧ (incomingEventSubject sc' ∉ [eventSubject sc; incomingEventSubject sc]).
Proof.
  intros Hwf Hsc Hsc' Hne.
  destruct (wf_apart s Hwf k k' sc sc' Hsc Hsc') as [H1 H2].
  destruct (wf_apart s Hwf k' k sc' sc Hsc' Hsc) as [H3 _].
  destruct (H2 (not_eq_sym Hne)) as [H4 H5].
  split; intros Hin; apply elem_of_cons in Hin as [Hin|Hin];
    [congruence| |congruence|]; apply list_elem_of_singleton in Hin; congruence.
Qed.

Lemma onMessage_well_formed k sc c s (event : WebSocketData) :
  well_formed s → represents s k sc c →
  well_formed (onMessage k event s)
  ∧ represents (onMessage k event s) k sc
      (connection_onMessage (client sc) event c)
  ∧ confined k [eventSubject sc; incomingEventSubject sc] s (onMessage k event s)
  ∧ scopes (onMessage k event s) = scopes s
  ∧ message_listeners (onMessage k event s) = message_listeners s
  ∧ close_listeners (onMessage k event s) = close_listeners s.
Proof.
  intros Hwf Hrep. pose proof Hrep as (m & e & Hm & He & Hat & _).
  pose proof (attached_scope _ _ _ _ _ _ Hat) as Hsc.
  assert (Hne : eventSubject sc ≠ incomingEventSubject sc)
    by (apply (wf_apart s Hwf k k sc sc Hsc Hsc)).
  destruct (onMessage_evolves k sc m e s c event Hat (wf_bounded s Hwf) Hne Hm He)
    as (m' & e' & Hat' & Hev & Hb' & Hm' & He').
  pose proof (evolves_represents _ _ _ _ _ _ _ _ _ Hrep Hev Hat' Hm' He') as Hrep'.
  pose proof (evolves_confined _ _ _ _ _ _ Hev) as Hconf.
  pose proof (evolves_scopes _ _ _ _ _ _ Hev) as Hscopes.
  pose proof (evolves_message_listeners _ _ _ _ _ _ Hev) as Hml.
  pose proof (evolves_close_listeners _ _ _ _ _ _ Hev) as Hcl.
  pose proof (evolves_fresh _ _ _ _ _ _ Hev) as Hfresh.
  split;
    [|split; [exact Hrep'|split; [exact Hconf|split; [exact Hscopes|
       split; assumption]]]].
  constructor.
  - intros k' sc' Hsc'. rewrite Hscopes in Hsc'.
    destruct (decide (k' = k)) as [->|Hk'].
    + rewrite Hsc in Hsc'. injection Hsc' as <-. eexists. exact Hrep'.
    + destruct (wf_connections s Hwf k' sc' Hsc') as [c0 Hc0].
      destruct (apart_subjects s k k' sc sc' Hwf Hsc Hsc' Hk') as [H1 H2].
      exists c0. eapply confined_represents; eassumption.
  - rewrite Hscopes. exact (wf_apart s Hwf).
  - exact Hb'.
  - intros r Hr. rewrite Hscopes. apply (wf_scopes s Hwf). lia.
  - intros k' sc' Hsc'. rewrite Hscopes in Hsc'.
    destruct (wf_subjects s Hwf k' sc' Hsc'). lia.
  - rewrite Hml, Hscopes. exact (wf_message_listeners s Hwf).
  - rewrite Hcl, Hscopes. exact (wf_close_listeners s Hwf).
  - rewrite Hml. exact (wf_message_listeners_once s Hwf).
  - rewrite Hcl. exact (wf_close_listeners_once s Hwf).
  - intros k' x. destruct (confined_trace _ _ _ _ Hconf) as (t & ->).
    rewrite Hscopes. intros Hin. apply elem_of_app in Hin as [Hin|Hin].
    + exact (wf_trace s Hwf k' x Hin).
    + apply list_elem_of_fmap in Hin as (y & [= -> ->] & _).
      rewrite Hsc. eexists. reflexivity.
Qed.

(** The listeners of a client run one after the other: the connections
    they belong to each take the frame, the others are as they were. *)
Lemma onMessages_well_formed (event : WebSocketData) (l : list Ref) s :
  well_formed s → NoDup l →
  (∀ k, k ∈ l → is_Some (scopes s !! k)) →
  well_formed (foldl (λ s k, onMessage k event s) s l)
  ∧ scopes (foldl (λ s k, onMessage k event s) s l) = scopes s
  ∧ message_listeners (foldl (λ s k, onMessage k event s) s l)
    = message_listeners s
  ∧ close_listeners (foldl (λ s k, onMessage k event s) s l) = close_listeners s
  ∧ (∀ k sc c,
       represents s k sc c →
       represents (foldl (λ s k, onMessage k event s) s l) k sc
         (if bool_decide (k ∈ l) then connection_onMessage (client sc) event c
          else c))
  ∧ (∀ r o, inbound s !! r = Some o → scope o ∉ l →
            inbound (foldl (λ s k, onMessage k event s) s l) !! r = Some o)
  ∧ (∀ r o, outbound s !! r = Some o → scope o ∉ l →
            outbound (foldl (λ s k, onMessage k event s) s l) !! r = Some o)
  ∧ (∀ k, k ∉ l →
          middlewaresSub (foldl (λ s k, onMessage k event s) s l) !! k
          = middlewaresSub s !! k
          ∧ effectsSub (foldl (λ s k, onMessage k event s) s l) !! k
            = effectsSub s !! k).
Proof.
  revert s. induction l as [|k0 l IH]; intros s Hwf Hnd Hl.
  - cbn. split; [exact Hwf|]. do 3 (split; [reflexivity|]).
    split; [intros k sc c H; exact H|].
    split; [intros r o H _; exact H|].
    split; [intros r o H _; exact H|]. intros k _. split; reflexivity.
  - apply NoDup_cons in Hnd as [Hk0 Hnd]. cbn [foldl].
    destruct (Hl k0) as [sc0 Hsc0]; [apply elem_of_cons; left; reflexivity|].
    destruct (wf_connections s Hwf k0 sc0 Hsc0) as [c0 Hc0].
    destruct (onMessage_well_formed k0 sc0 c0 s event Hwf Hc0)
      as (Hwf1 & _ & Hconf1 & Hs1 & Hml1 & Hcl1).
    destruct (IH (onMessage k0 event s) Hwf1 Hnd) as
      (Hwf' & Hs' & Hml' & Hcl' & Hrep' & Hin' & Hout' & Hcells').
    { intros k Hk. rewrite Hs1. apply Hl. apply elem_of_cons. right. exact Hk. }
    split; [exact Hwf'|]. split; [congruence|]. split; [congruence|].
    split; [congruence|]. split; [|split; [|split]].
    + intros k sc c Hrep. destruct (decide (k = k0)) as [->|Hne].
      * destruct (onMessage_well_formed k0 sc c s event Hwf Hrep)
          as (_ & Hrep1 & _).
        specialize (Hrep' _ _ _ Hrep1).
        rewrite (bool_decide_eq_false_2 _ Hk0) in Hrep'.
        rewrite bool_decide_eq_true_2 by (apply elem_of_cons; left; reflexivity).
        exact Hrep'.
      * pose proof (represents_scope _ _ _ _ Hrep) as Hsc.
        destruct (apart_subjects s k0 k sc0 sc Hwf Hsc0 Hsc Hne) as [H1 H2].
        pose proof (confined_represents _ _ _ _ _ _ _ Hconf1 Hne H1 H2 Hrep)
          as Hrep1.
        specialize (Hrep' _ _ _ Hrep1).
        replace (bool_decide (k ∈ k0 :: l)) with (bool_decide (k ∈ l)).
        { exact Hrep'. }
        apply bool_decide_ext. rewrite elem_of_cons. tauto.
    + intros r o Hr Hnot. apply Hin'.
      * apply (confined_inbound _ _ _ _ Hconf1); [exact Hr|].
        intros Heq. apply Hnot. apply elem_of_cons. left. exact Heq.
      * intros Hin. apply Hnot. apply elem_of_cons. right. exact Hin.
    + intros r o Hr Hnot. apply Hout'.
      * apply (confined_outbound _ _ _ _ Hconf1); [exact Hr|].
        intros Heq. apply Hnot. apply elem_of_cons. left. exact Heq.
      * intros Hin. apply Hnot. apply elem_of_cons. right. exact Hin.
    + intros k Hnot.
      assert (Hne : k ≠ k0)
        by (intros ->; apply Hnot; apply elem_of_cons; left; reflexivity).
      destruct (Hcells' k) as [H1 H2].
      { intros Hin. apply Hnot. apply elem_of_cons. right. exact Hin. }
      rewrite H1, H2.
      rewrite (confined_middlewaresSub _ _ _ _ Hconf1) by exact Hne.
      rewrite (confined_effectsSub _ _ _ _ Hconf1) by exact Hne.
      split; reflexivity.
Qed.


(** *** The close event, for the activation it is addressed to *)

Lemma middlewaresSub_unsubscribe_follows k (r : Ref) e s0 c0 s c :
  middlewaresSub s0 !! k = Some r →
  follows k (Some r) e s0 c0 s c →
  follows k (Some r) e s0 c0 (middlewaresSub_unsubscribe k s)
    (WebSocket.set_middlewaresSub (close (WebSocket.middlewaresSub c)) c).
Proof.
  intros Hcell H. unfold middlewaresSub_unsubscribe.
  rewrite (follows_middlewaresSub _ _ _ _ _ _ _ H), Hcell.
  apply follows_set_inbound. exact H.
Qed.

Lemma effectsSub_unsubscribe_follows k m (r : Ref) s0 c0 s c :
  effectsSub s0 !! k = Some r →
  follows k m (Some r) s0 c0 s c →
  follows k m (Some r) s0 c0 (effectsSub_unsubscribe k s)
    (WebSocket.set_effectsSub (close (WebSocket.effectsSub c)) c).
Proof.
  intros Hcell H. unfold effectsSub_unsubscribe.
  rewrite (follows_effectsSub _ _ _ _ _ _ _ H), Hcell.
  apply follows_set_outbound. exact H.
Qed.

Lemma elem_of_unregistered (l : list Ref) k k' :
  k' ∈ filter (λ x, x ≠ k) l ↔ k' ≠ k ∧ k' ∈ l.
Proof. exact (list_elem_of_filter (λ x, x ≠ k) l k'). Qed.

Lemma unregistered (listeners : gmap ClientRef (list Ref)) a a' k k' :
  k' ≠ k →
  k' ∈ <[a := filter (λ x, x ≠ k) (listeners !!! a)]> listeners !!! a'
  ↔ k' ∈ listeners !!! a'.
Proof.
  intros Hne. destruct (decide (a = a')) as [<-|Ha].
  - rewrite lookup_total_insert_eq, elem_of_unregistered. tauto.
  - rewrite lookup_total_insert_ne by exact Ha. reflexivity.
Qed.

Lemma unregistered_subset (listeners : gmap ClientRef (list Ref)) a a' k k' :
  k' ∈ <[a := filter (λ x, x ≠ k) (listeners !!! a)]> listeners !!! a' →
  k' ∈ listeners !!! a'.
Proof.
  destruct (decide (a = a')) as [<-|Ha].
  - rewrite lookup_total_insert_eq, elem_of_unregistered. tauto.
  - rewrite lookup_total_insert_ne by exact Ha. tauto.
Qed.

Lemma unregistered_once (listeners : gmap ClientRef (list Ref)) a a' k :
  NoDup (listeners !!! a') →
  NoDup (<[a := filter (λ x, x ≠ k) (listeners !!! a)]> listeners !!! a').
Proof.
  intros Hnd. destruct (decide (a = a')) as [<-|Ha].
  - rewrite lookup_total_insert_eq. apply NoDup_filter. exact Hnd.
  - rewrite lookup_total_insert_ne by exact Ha. exact Hnd.
Qed.

Lemma unregistered_self (listeners : gmap ClientRef (list Ref)) a k :
  bool_decide
    (k ∈ <[a := filter (λ x, x ≠ k) (listeners !!! a)]> listeners !!! a) = false.
Proof.
  apply bool_decide_eq_false_2. rewrite lookup_total_insert_eq, elem_of_unregistered.
  intros [H _]. apply H. reflexivity.
Qed.

(** The handler of the close event of an activation, [once] having taken
    it off the client. *)
Lemma onClose_well_formed k sc c s :
  well_formed s → represents s k sc c →
  let s' :=
    onClose k
      (set_close_listeners
         (<[client sc := filter (λ k', k' ≠ k) (close_listeners s !!! client sc)]>
            (close_listeners s)) s) in
  well_formed s'
  ∧ represents s' k sc (WebSocket.onClose (WebSocket.set_close_listener false c))
  ∧ confined k [eventSubject sc; incomingEventSubject sc] s s'
  ∧ scopes s' = scopes s.
Proof.
  intros Hwf Hrep s'.
  pose proof Hrep as (m & e & Hm & He & Hat & Ht & Hml & Hcl).
  pose proof (attached_scope _ _ _ _ _ _ Hat) as Hsc.
  set (s0 := set_message_listeners
               (<[client sc := filter (λ k', k' ≠ k)
                                 (message_listeners s !!! client sc)]>
                  (message_listeners s))
               (set_close_listeners
                  (<[client sc := filter (λ k', k' ≠ k)
                                    (close_listeners s !!! client sc)]>
                     (close_listeners s)) s)).
  set (c0 := WebSocket.set_message_listener false
               (WebSocket.set_close_listener false c)).
  assert (Hat0 : attached k sc (Some m) (Some e) s0 c0).
  { destruct Hat. constructor; assumption. }
  assert (Hs' : s' = effectsSub_unsubscribe k
                       (WebSocketServer.log k (Unsubscribe Outbound)
                          (middlewaresSub_unsubscribe k
                             (WebSocketServer.log k (Unsubscribe Inbound)
                                (WebSocketServer.log k RemoveMessageListener s0))))).
  { subst s'. unfold WebSocketServer.onClose. cbn [scopes set_close_listeners].
    rewrite Hsc. reflexivity. }
  assert (Hf : follows k (Some m) (Some e) s0 c0 s'
                 (WebSocket.onClose (WebSocket.set_close_listener false c))).
  { rewrite Hs'.
    pose proof (follows_refl k sc _ _ _ _ Hat0) as H0.
    apply (follows_log _ _ _ _ _ _ _ RemoveMessageListener) in H0.
    apply (follows_log _ _ _ _ _ _ _ (Unsubscribe Inbound)) in H0.
    apply (middlewaresSub_unsubscribe_follows k m (Some e) s0 c0 _ _ Hm) in H0.
    apply (follows_log _ _ _ _ _ _ _ (Unsubscribe Outbound)) in H0.
    apply (effectsSub_unsubscribe_follows k (Some m) e s0 c0 _ _ He) in H0.
    exact H0. }
  clearbody s'. clear Hs'.
  set (c' := WebSocket.onClose (WebSocket.set_close_listener false c)) in *.
  pose proof (follows_attached _ _ _ _ _ _ _ _ Hat0 Hf) as Hat'.
  assert (Hb' : bounded s').
  { apply (follows_bounded _ _ _ _ _ _ _ _ Hat0 Hf). exact (wf_bounded s Hwf). }
  pose proof (follows_evolves _ _ _ _ _ _ _ _
                [eventSubject sc; incomingEventSubject sc] Hat0 Hf) as Hev.
  assert (Hconf : confined k [eventSubject sc; incomingEventSubject sc] s s').
  { eapply confined_trans; [|exact (evolves_confined _ _ _ _ _ _ Hev)].
    constructor; try reflexivity; try (intros; reflexivity);
      try (intros; assumption).
    - exists []. cbn. symmetry. apply app_nil_r.
    - intros a k' Hne. apply unregistered. exact Hne.
    - intros a k' Hne. apply unregistered. exact Hne. }
  assert (Hscopes : scopes s' = scopes s)
    by exact (follows_scopes _ _ _ _ _ _ _ Hf).
  assert (Hrep' : represents s' k sc c').
  { exists m, e.
    split; [rewrite (follows_middlewaresSub _ _ _ _ _ _ _ Hf); exact Hm|].
    split; [rewrite (follows_effectsSub _ _ _ _ _ _ _ Hf); exact He|].
    split; [exact Hat'|].
    destruct (follows_trace _ _ _ _ _ _ _ Hf) as (t & Hts & Htc).
    split; [|split].
    - rewrite Htc, Hts, trace_of_app, trace_of_own. cbn. rewrite Ht. reflexivity.
    - rewrite (follows_message_listener _ _ _ _ _ _ _ Hf),
        (follows_message_listeners _ _ _ _ _ _ _ Hf).
      cbn. symmetry. apply unregistered_self.
    - rewrite (follows_close_listener _ _ _ _ _ _ _ Hf),
        (follows_close_listeners _ _ _ _ _ _ _ Hf).
      cbn. symmetry. apply unregistered_self. }
  split; [|split; [exact Hrep'|split; [exact Hconf|exact Hscopes]]].
  constructor.
  - intros k' sc' Hsc'. rewrite Hscopes in Hsc'.
    destruct (decide (k' = k)) as [->|Hk'].
    + rewrite Hsc in Hsc'. injection Hsc' as <-. eexists. exact Hrep'.
    + destruct (wf_connections s Hwf k' sc' Hsc') as [c1 Hc1].
      destruct (apart_subjects s k k' sc sc' Hwf Hsc Hsc' Hk') as [H1 H2].
      exists c1. eapply confined_represents; eassumption.
  - rewrite Hscopes. exact (wf_apart s Hwf).
  - exact Hb'.
  - intros r Hr. rewrite Hscopes. apply (wf_scopes s Hwf).
    rewrite (follows_fresh _ _ _ _ _ _ _ Hf) in Hr. exact Hr.
  - intros k' sc' Hsc'. rewrite Hscopes in Hsc'.
    rewrite (follows_fresh _ _ _ _ _ _ _ Hf).
    exact (wf_subjects s Hwf k' sc' Hsc').
  - intros a k' Hin. rewrite (follows_message_listeners _ _ _ _ _ _ _ Hf) in Hin.
    rewrite Hscopes. apply (wf_message_listeners s Hwf).
    eapply unregistered_subset. exact Hin.
  - intros a k' Hin. rewrite (follows_close_listeners _ _ _ _ _ _ _ Hf) in Hin.
    rewrite Hscopes. apply (wf_close_listeners s Hwf).
    eapply unregistered_subset. exact Hin.
  - intros a. rewrite (follows_message_listeners _ _ _ _ _ _ _ Hf).
    apply unregistered_once. exact (wf_message_listeners_once s Hwf a).
  - intros a. rewrite (follows_close_listeners _ _ _ _ _ _ _ Hf).
    apply unregistered_once. exact (wf_close_listeners_once s Hwf a).
  - intros k' x. destruct (confined_trace _ _ _ _ Hconf) as (t & ->).
    rewrite Hscopes. intros Hin. apply elem_of_app in Hin as [Hin|Hin].
    + exact (wf_trace s Hwf k' x Hin).
    + apply list_elem_of_fmap in Hin as (y & [= -> ->] & _).
      rewrite Hsc. eexists. reflexivity.
Qed.


(** *** A connection is made *)

Lemma trace_of_none k (t : list (Ref * Action)) :
  (∀ x, (k, x) ∉ t) → trace_of k t = [].
Proof.
  intros Hnot. unfold trace_of. induction t as [|[k' x] t IH]; [reflexivity|].
  rewrite filter_cons_False.
  - apply IH. intros y Hy. apply (Hnot y). apply elem_of_cons. right. exact Hy.
  - cbn. intros ->. apply (Hnot x). apply elem_of_cons. left. reflexivity.
Qed.

Lemma registered (listeners : gmap ClientRef (list Ref)) a a' k k' :
  k' ≠ k →
  k' ∈ <[a := (listeners !!! a) ++ [k]]> listeners !!! a' ↔ k' ∈ listeners !!! a'.
Proof.
  intros Hne. destruct (decide (a = a')) as [<-|Ha].
  - rewrite lookup_total_insert_eq, elem_of_app, list_elem_of_singleton. tauto.
  - rewrite lookup_total_insert_ne by exact Ha. reflexivity.
Qed.

Lemma registered_self (listeners : gmap ClientRef (list Ref)) a k :
  bool_decide (k ∈ <[a := (listeners !!! a) ++ [k]]> listeners !!! a) = true.
Proof.
  apply bool_decide_eq_true_2. rewrite lookup_total_insert_eq, elem_of_app.
  right. apply list_elem_of_singleton. reflexivity.
Qed.

Lemma registered_elem (listeners : gmap ClientRef (list Ref)) a a' k k' :
  k' ∈ <[a := (listeners !!! a) ++ [k]]> listeners !!! a' →
  k' ∈ listeners !!! a' ∨ (k' = k ∧ a' = a).
Proof.
  destruct (decide (a = a')) as [<-|Ha].
  - rewrite lookup_total_insert_eq, elem_of_app, list_elem_of_singleton. tauto.
  - rewrite lookup_total_insert_ne by exact Ha. tauto.
Qed.

Lemma registered_once (listeners : gmap ClientRef (list Ref)) a a' k :
  NoDup (listeners !!! a') → k ∉ listeners !!! a →
  NoDup (<[a := (listeners !!! a) ++ [k]]> listeners !!! a').
Proof.
  intros Hnd Hnot. destruct (decide (a = a')) as [<-|Ha].
  - rewrite lookup_total_insert_eq. apply NoDup_app. split; [exact Hnd|].
    split; [|apply NoDup_singleton].
    intros x Hx Hx'. apply list_elem_of_singleton in Hx'. subst x. apply Hnot, Hx.
  - rewrite lookup_total_insert_ne by exact Ha. exact Hnd.
Qed.

(** [handleMessage] makes an activation with subjects and subscriptions of
    its own, arranged as the connection that [handleMessage] returns. *)
Lemma handleMessage_well_formed a s :
  well_formed s →
  let k := fresh s in
  let sc := {| client := a; eventSubject := Pos.succ k;
               incomingEventSubject := Pos.succ (Pos.succ k) |} in
  well_formed (handleMessage a s)
  ∧ represents (handleMessage a s) k sc (connection_handleMessage a)
  ∧ confined k [eventSubject sc; incomingEventSubject sc] s (handleMessage a s)
  ∧ scopes (handleMessage a s) = <[k := sc]> (scopes s).
Proof.
  intros Hwf k sc.
  set (ev := Pos.succ k). set (inc := Pos.succ ev).
  assert (Hne : eventSubject sc ≠ incomingEventSubject sc)
    by (cbn; fold ev; lia).
  set (s0 := set_observers (<[inc := []]> (<[ev := []]> (observers s)))
               (set_scopes (<[k := sc]> (scopes s))
                  (set_fresh (Pos.succ inc) s))).
  set (c0 := {| WebSocket.middlewaresSub :=
                  unsubscribed Src_middlewares (middlewares_ a);
                WebSocket.effectsSub :=
                  unsubscribed Src_effectsOutput (effectsOutput_ a);
                message_listener := false; close_listener := false;
                WebSocket.trace := [] |}).
  assert (Hat0 : attached k sc None None s0 c0).
  { constructor.
    - apply lookup_insert_eq.
    - exists []. cbn. rewrite lookup_total_insert_eq.
      split; [reflexivity|]. split; [constructor|discriminate].
    - exists []. cbn. fold ev inc.
      rewrite lookup_total_insert_ne by (subst inc; lia).
      rewrite lookup_total_insert_eq.
      split; [reflexivity|]. split; [constructor|discriminate].
    - reflexivity.
    - reflexivity. }
  assert (Hb0 : bounded s0).
  { intros r Hr. cbn in Hr. apply (wf_bounded s Hwf). subst inc ev k. lia. }
  (* the middlewares are subscribed *)
  destruct (subscribeMiddlewares_follows k sc None None s0 c0 s0 c0 inc
              Src_middlewares (middlewares_ a) Hat0 (follows_refl _ _ _ _ _ _ Hat0))
    as (s1 & c1 & sub1 & Hc1 & Hf1 & Hs1).
  pose proof (follows_attached _ _ _ _ _ _ _ _ Hat0 Hf1) as Hat1.
  pose proof (follows_bounded _ _ _ _ _ _ _ _ Hat0 Hf1 Hb0) as Hb1.
  pose proof (follows_evolves _ _ _ _ _ _ _ _
                [eventSubject sc; incomingEventSubject sc] Hat0 Hf1) as Hev1.
  destruct (subscribed_inbound k sc None None s1 c1 sub1 Hat1 Hb1 Hne)
    as (Hat1' & Hev1' & Hb1' & Hm1' & He1').
  { exact (attached_middlewaresSub _ _ _ _ _ _ Hat1). }
  cbn zeta in Hat1', Hev1', Hb1', Hm1', He1'.
  set (s1' := set_middlewaresSub _ _) in *.
  set (c1' := WebSocket.set_middlewaresSub sub1 c1) in *.
  (* the effects are subscribed *)
  destruct (subscribeEffects_follows k sc (Some (fresh s1)) None s1' c1' s1' c1' ev
              Src_effectsOutput (effectsOutput_ a) Hat1'
              (follows_refl _ _ _ _ _ _ Hat1'))
    as (s2 & c2 & sub2 & Hc2 & Hf2 & Hs2).
  pose proof (follows_attached _ _ _ _ _ _ _ _ Hat1' Hf2) as Hat2.
  pose proof (follows_bounded _ _ _ _ _ _ _ _ Hat1' Hf2 Hb1') as Hb2.
  pose proof (follows_evolves _ _ _ _ _ _ _ _
                [eventSubject sc; incomingEventSubject sc] Hat1' Hf2) as Hev2.
  destruct (subscribed_outbound k sc (Some (fresh s1)) None s2 c2 sub2 Hat2 Hb2 Hne)
    as (Hat2' & Hev2' & Hb2' & He2' & Hm2').
  { exact (attached_effectsSub _ _ _ _ _ _ Hat2). }
  cbn zeta in Hat2', Hev2', Hb2', He2', Hm2'.
  set (s2' := set_effectsSub _ _) in *.
  set (c2' := WebSocket.set_effectsSub sub2 c2) in *.
  (* the listeners are registered *)
  set (s' := set_close_listeners
               (<[a := (close_listeners s2' !!! a) ++ [k]]> (close_listeners s2'))
               (set_message_listeners
                  (<[a := (message_listeners s2' !!! a) ++ [k]]>
                     (message_listeners s2')) s2')).
  set (c' := WebSocket.set_close_listener true
               (WebSocket.set_message_listener true c2')).
  assert (Hs' : handleMessage a s = s').
  { unfold WebSocketServer.handleMessage. cbn zeta.
    match goal with
    | |- context [WebSocketServer.subscribeMiddlewares ask ?k0 ?i0 ?src0 ?in0 ?st0] =>
        replace (WebSocketServer.subscribeMiddlewares ask k0 i0 src0 in0 st0)
          with (observe inc (fresh s1)
                  (set_inbound
                     (<[fresh s1 := {| subscription := sub1; scope := k |}]>
                        (inbound s1))
                     (set_fresh (Pos.succ (fresh s1)) s1)), fresh s1)
          by (symmetry; exact Hs1)
    end.
    match goal with
    | |- context [WebSocketServer.subscribeEffects ask ?k0 ?i0 ?src0 ?in0 ?st0] =>
        replace (WebSocketServer.subscribeEffects ask k0 i0 src0 in0 st0)
          with (observe ev (fresh s2)
                  (set_outbound
                     (<[fresh s2 := {| subscription := sub2; scope := k |}]>
                        (outbound s2))
                     (set_fresh (Pos.succ (fresh s2)) s2)), fresh s2)
          by (symmetry; exact Hs2)
    end.
    reflexivity. }
  assert (Hc' : connection_handleMessage a = c').
  { unfold WebSocket.handleMessage. cbn zeta.
    match goal with
    | |- context [WebSocket.subscribeMiddlewares ask ?a0 ?src0 ?in0 ?st0] =>
        replace (WebSocket.subscribeMiddlewares ask a0 src0 in0 st0)
          with (c1, sub1) by (symmetry; exact Hc1)
    end.
    match goal with
    | |- context [WebSocket.subscribeEffects ask ?a0 ?src0 ?in0 ?st0] =>
        replace (WebSocket.subscribeEffects ask a0 src0 in0 st0)
          with (c2, sub2) by (symmetry; exact Hc2)
    end.
    reflexivity. }
  rewrite Hs', Hc'. clear Hs' Hc'.
  assert (Hev : evolves k [eventSubject sc; incomingEventSubject sc] s0 c0 s2' c2').
  { eapply evolves_trans; [exact Hev1|].
    eapply evolves_trans; [exact Hev1'|].
    eapply evolves_trans; [exact Hev2|exact Hev2']. }
  assert (Hfresh_k : scopes s !! k = None)
    by (apply (wf_scopes s Hwf); reflexivity).
  assert (Hold : ∀ k', is_Some (scopes s !! k') → k' ≠ k).
  { intros k' [x Hx] ->. congruence. }
  assert (Hscopes : scopes s' = <[k := sc]> (scopes s)).
  { change (scopes s') with (scopes s2').
    rewrite (evolves_scopes _ _ _ _ _ _ Hev). reflexivity. }
  assert (Hml : message_listeners s2' = message_listeners s)
    by (rewrite (evolves_message_listeners _ _ _ _ _ _ Hev); reflexivity).
  assert (Hcl : close_listeners s2' = close_listeners s)
    by (rewrite (evolves_close_listeners _ _ _ _ _ _ Hev); reflexivity).
  assert (Hconf : confined k [eventSubject sc; incomingEventSubject sc] s s').
  { apply (confined_trans _ _ s s0).
    { constructor; cbn; try (intros; reflexivity); try (intros; assumption).
      - subst inc ev k. lia.
      - intros k' Hk'. apply lookup_insert_ne. congruence.
      - exists []. cbn. symmetry. apply app_nil_r.
      - intros subject Hnot. fold ev inc.
        rewrite !lookup_total_insert_ne; [reflexivity| |].
        + intros Heq. apply Hnot. rewrite <- Heq. apply elem_of_cons. left.
          reflexivity.
        + intros Heq. apply Hnot. rewrite <- Heq. apply elem_of_cons. right.
          apply elem_of_cons. left. reflexivity. }
    apply (confined_trans _ _ s0 s2'); [exact (evolves_confined _ _ _ _ _ _ Hev)|].
    constructor; subst s'; cbn; try (intros; reflexivity); try (intros; assumption).
    - exists []. cbn. symmetry. apply app_nil_r.
    - intros a' k' Hk'. apply registered. exact Hk'.
    - intros a' k' Hk'. apply registered. exact Hk'. }
  assert (Hrep' : represents s' k sc c').
  { exists (fresh s1), (fresh s2).
    split.
    { change (middlewaresSub s') with (middlewaresSub s2'). rewrite Hm2'.
      rewrite (follows_middlewaresSub _ _ _ _ _ _ _ Hf2). exact Hm1'. }
    split; [exact He2'|].
    split; [destruct Hat2'; constructor; assumption|].
    destruct (evolves_trace _ _ _ _ _ _ Hev) as (t & Hts & Htc).
    split; [|split].
    - change (WebSocket.trace c') with (WebSocket.trace c2').
      change (trace s') with (trace s2').
      rewrite Htc, Hts, trace_of_app, trace_of_own.
      change (trace s0) with (trace s).
      rewrite trace_of_none; [reflexivity|].
      intros x Hx. apply (Hold k); [|reflexivity].
      exact (wf_trace s Hwf k x Hx).
    - subst s'. cbn. symmetry. apply registered_self.
    - subst s'. cbn. symmetry. apply registered_self. }
  split; [|split; [exact Hrep'|split; [exact Hconf|exact Hscopes]]].
  assert (Hfresh' : (Pos.succ inc ≤ Pos.succ (fresh s2))%positive)
    by exact (evolves_fresh _ _ _ _ _ _ Hev).
  assert (Hml' : message_listeners s'
                 = <[a := (message_listeners s !!! a) ++ [k]]> (message_listeners s)).
  { change (message_listeners s')
      with (<[a := (message_listeners s2' !!! a) ++ [k]]> (message_listeners s2')).
    rewrite Hml. reflexivity. }
  assert (Hcl' : close_listeners s'
                 = <[a := (close_listeners s !!! a) ++ [k]]> (close_listeners s)).
  { change (close_listeners s')
      with (<[a := (close_listeners s2' !!! a) ++ [k]]> (close_listeners s2')).
    rewrite Hcl. reflexivity. }
  constructor.
  - intros k' sc' Hsc'. rewrite Hscopes in Hsc'.
    destruct (decide (k' = k)) as [->|Hk'].
    + rewrite lookup_insert_eq in Hsc'. injection Hsc' as <-. eexists. exact Hrep'.
    + rewrite lookup_insert_ne in Hsc' by congruence.
      destruct (wf_connections s Hwf k' sc' Hsc') as [c1'' Hc1''].
      destruct (wf_subjects s Hwf k' sc' Hsc') as [H1 H2].
      exists c1''. eapply confined_represents; [exact Hconf|exact Hk'| | |exact Hc1''].
      * cbn. fold ev inc. intros Hin.
        apply elem_of_cons in Hin as [Hin|Hin];
          [|apply list_elem_of_singleton in Hin]; subst inc ev k; lia.
      * cbn. fold ev inc. intros Hin.
        apply elem_of_cons in Hin as [Hin|Hin];
          [|apply list_elem_of_singleton in Hin]; subst inc ev k; lia.
  - intros k1 k2 sc1 sc2 H1 H2. rewrite Hscopes in H1, H2.
    destruct (decide (k1 = k)) as [->|Hk1]; destruct (decide (k2 = k)) as [->|Hk2].
    + rewrite lookup_insert_eq in H1, H2. injection H1 as <-. injection H2 as <-.
      split; [exact Hne|]. intros Hc. exfalso. apply Hc. reflexivity.
    + rewrite lookup_insert_eq in H1. rewrite lookup_insert_ne in H2 by congruence.
      injection H1 as <-. destruct (wf_subjects s Hwf k2 sc2 H2).
      cbn. subst k. split; [lia|]. intros _. split; lia.
    + rewrite lookup_insert_eq in H2. rewrite lookup_insert_ne in H1 by congruence.
      injection H2 as <-. destruct (wf_subjects s Hwf k1 sc1 H1).
      cbn. subst k. split; [lia|]. intros _. split; lia.
    + rewrite lookup_insert_ne in H1, H2 by congruence.
      exact (wf_apart s Hwf k1 k2 sc1 sc2 H1 H2).
  - exact Hb2'.
  - intros r Hr. change (fresh s') with (Pos.succ (fresh s2)) in Hr.
    rewrite Hscopes. rewrite lookup_insert_ne by (subst inc ev; lia).
    apply (wf_scopes s Hwf). subst inc ev k. lia.
  - intros k' sc' Hsc'. rewrite Hscopes in Hsc'.
    change (fresh s') with (Pos.succ (fresh s2)).
    destruct (decide (k' = k)) as [->|Hk'].
    + rewrite lookup_insert_eq in Hsc'. injection Hsc' as <-. cbn.
      fold ev inc. subst inc ev. lia.
    + rewrite lookup_insert_ne in Hsc' by congruence.
      destruct (wf_subjects s Hwf k' sc' Hsc'). subst inc ev k. lia.
  - intros a' k' Hin. rewrite Hml' in Hin.
    rewrite Hscopes. apply registered_elem in Hin as [Hin|[-> ->]].
    + destruct (wf_message_listeners s Hwf a' k' Hin) as (sc' & Hsc' & Ha').
      exists sc'. split; [|exact Ha'].
      rewrite lookup_insert_ne; [exact Hsc'|].
      apply not_eq_sym, Hold. eexists. exact Hsc'.
    + exists sc. split; [apply lookup_insert_eq|reflexivity].
  - intros a' k' Hin. rewrite Hcl' in Hin.
    rewrite Hscopes. apply registered_elem in Hin as [Hin|[-> ->]].
    + destruct (wf_close_listeners s Hwf a' k' Hin) as (sc' & Hsc' & Ha').
      exists sc'. split; [|exact Ha'].
      rewrite lookup_insert_ne; [exact Hsc'|].
      apply not_eq_sym, Hold. eexists. exact Hsc'.
    + exists sc. split; [apply lookup_insert_eq|reflexivity].
  - intros a'. rewrite Hml'.
    apply registered_once; [exact (wf_message_listeners_once s Hwf a')|].
    intros Hin. destruct (wf_message_listeners s Hwf a k Hin) as (sc' & Hsc' & _).
    congruence.
  - intros a'. rewrite Hcl'.
    apply registered_once; [exact (wf_close_listeners_once s Hwf a')|].
    intros Hin. destruct (wf_close_listeners s Hwf a k Hin) as (sc' & Hsc' & _).
    congruence.
  - intros k' x. destruct (confined_trace _ _ _ _ Hconf) as (t & ->).
    rewrite Hscopes. intros Hin. apply elem_of_app in Hin as [Hin|Hin].
    + destruct (wf_trace s Hwf k' x Hin) as [y Hy].
      exists y. rewrite lookup_insert_ne; [exact Hy|].
      apply not_eq_sym, Hold. eexists. exact Hy.
    + apply list_elem_of_fmap in Hin as (y & [= -> ->] & _).
      rewrite lookup_insert_eq. eexists. reflexivity.
Qed.


(** *** The sockets of a server, one event after the other *)

Lemma onCloses_well_formed a (l : list Ref) s :
  well_formed s → NoDup l →
  (∀ k, k ∈ l → ∃ sc, scopes s !! k = Some sc ∧ client sc = a) →
  well_formed
    (foldl (λ s k,
              onClose k
                (set_close_listeners
                   (<[a := filter (λ k', k' ≠ k) (close_listeners s !!! a)]>
                      (close_listeners s)) s)) s l)
  ∧ scopes
      (foldl (λ s k,
                onClose k
                  (set_close_listeners
                     (<[a := filter (λ k', k' ≠ k) (close_listeners s !!! a)]>
                        (close_listeners s)) s)) s l)
    = scopes s
  ∧ (∀ k sc c,
       represents s k sc c →
       represents
         (foldl (λ s k,
                   onClose k
                     (set_close_listeners
                        (<[a := filter (λ k', k' ≠ k) (close_listeners s !!! a)]>
                           (close_listeners s)) s)) s l)
         k sc
         (if bool_decide (k ∈ l)
          then WebSocket.onClose (WebSocket.set_close_listener false c)
          else c)).
Proof.
  revert s. induction l as [|k0 l IH]; intros s Hwf Hnd Hl.
  - cbn. split; [exact Hwf|]. split; [reflexivity|]. intros k sc c H. exact H.
  - apply NoDup_cons in Hnd as [Hk0 Hnd]. cbn [foldl].
    destruct (Hl k0) as (sc0 & Hsc0 & Ha0); [apply elem_of_cons; left; reflexivity|].
    destruct (wf_connections s Hwf k0 sc0 Hsc0) as [c0 Hc0].
    destruct (onClose_well_formed k0 sc0 c0 s Hwf Hc0) as (Hwf1 & _ & Hconf1 & Hs1).
    rewrite Ha0 in Hwf1, Hconf1, Hs1.
    set (s1 := onClose k0 _) in *.
    destruct (IH s1 Hwf1 Hnd) as (Hwf' & Hs' & Hrep').
    { intros k Hk. rewrite Hs1. apply Hl. apply elem_of_cons. right. exact Hk. }
    split; [exact Hwf'|]. split; [congruence|].
    intros k sc c Hrep. destruct (decide (k = k0)) as [->|Hne].
    + pose proof (represents_scope _ _ _ _ Hrep) as Hsc.
      assert (sc = sc0) by congruence. subst sc0.
      destruct (onClose_well_formed k0 sc c s Hwf Hrep) as (_ & Hrep1 & _).
      rewrite Ha0 in Hrep1. fold s1 in Hrep1.
      specialize (Hrep' _ _ _ Hrep1).
      rewrite (bool_decide_eq_false_2 _ Hk0) in Hrep'.
      rewrite bool_decide_eq_true_2 by (apply elem_of_cons; left; reflexivity).
      exact Hrep'.
    + pose proof (represents_scope _ _ _ _ Hrep) as Hsc.
      destruct (apart_subjects s k0 k sc0 sc Hwf Hsc0 Hsc Hne) as [H1 H2].
      pose proof (confined_represents _ _ _ _ _ _ _ Hconf1 Hne H1 H2 Hrep) as Hrep1.
      specialize (Hrep' _ _ _ Hrep1).
      replace (bool_decide (k ∈ k0 :: l)) with (bool_decide (k ∈ l)).
      { exact Hrep'. }
      apply bool_decide_ext. rewrite elem_of_cons. tauto.
Qed.

Lemma initial_well_formed : well_formed initial.
Proof.
  constructor; cbn.
  - intros k sc H. rewrite lookup_empty in H. discriminate H.
  - intros k k' sc sc' H. rewrite lookup_empty in H. discriminate H.
  - intros r _. split; apply lookup_empty.
  - intros r _. apply lookup_empty.
  - intros k sc H. rewrite lookup_empty in H. discriminate H.
  - intros a k H. rewrite lookup_total_empty in H. apply elem_of_nil in H.
    contradiction.
  - intros a k H. rewrite lookup_total_empty in H. apply elem_of_nil in H.
    contradiction.
  - intros a. rewrite lookup_total_empty. constructor.
  - intros a. rewrite lookup_total_empty. constructor.
  - intros k x H. apply elem_of_nil in H. contradiction.
Qed.

(** One event of a socket: the heap stays well formed, and every
    activation there is goes on as its connection does on the signal, if
    the event is one of its client. *)
Lemma socket_step_represents s (ev : SocketEvent) :
  well_formed s →
  well_formed (socket_step s ev)
  ∧ ∀ k sc c,
      represents s k sc c →
      represents (socket_step s ev) k sc
        (foldl (λ c sig, connection_emit (client sc) sig c) c
           (signals (client sc) [ev])).
Proof.
  intros Hwf. destruct ev as [a|a event|a]; cbn [WebSocketServer.socket_step].
  - unfold handleConnection.
    destruct (handleMessage_well_formed a s Hwf) as (Hwf' & _ & Hconf & _).
    split; [exact Hwf'|]. intros k sc c Hrep. cbn.
    pose proof (represents_scope _ _ _ _ Hrep) as Hsc.
    destruct (wf_subjects s Hwf k sc Hsc) as [H1 H2].
    eapply confined_represents; [exact Hconf| | | |exact Hrep].
    + intros ->. rewrite (wf_scopes s Hwf (fresh s)) in Hsc by reflexivity.
      discriminate Hsc.
    + cbn. intros Hin. apply elem_of_cons in Hin as [Hin|Hin];
        [|apply list_elem_of_singleton in Hin]; lia.
    + cbn. intros Hin. apply elem_of_cons in Hin as [Hin|Hin];
        [|apply list_elem_of_singleton in Hin]; lia.
  - unfold WebSocketServer.emit_message.
    destruct (onMessages_well_formed event (message_listeners s !!! a) s Hwf)
      as (Hwf' & _ & _ & _ & Hrep' & _).
    { exact (wf_message_listeners_once s Hwf a). }
    { intros k Hk. destruct (wf_message_listeners s Hwf a k Hk) as (sc & -> & _).
      eexists. reflexivity. }
    split; [exact Hwf'|]. intros k sc c Hrep.
    specialize (Hrep' k sc c Hrep).
    pose proof Hrep as (_ & _ & _ & _ & _ & _ & Hml & _).
    unfold signals. cbn. destruct (decide (a = client sc)) as [->|Hne].
    + cbn. unfold WebSocket.emit_message. rewrite Hml. exact Hrep'.
    + cbn. rewrite bool_decide_eq_false_2 in Hrep'; [exact Hrep'|].
      intros Hin. destruct (wf_message_listeners s Hwf a k Hin) as (sc' & Hsc' & Ha).
      rewrite (represents_scope _ _ _ _ Hrep) in Hsc'. congruence.
  - unfold WebSocketServer.emit_close.
    destruct (onCloses_well_formed a (close_listeners s !!! a) s Hwf)
      as (Hwf' & _ & Hrep').
    { exact (wf_close_listeners_once s Hwf a). }
    { intros k Hk. exact (wf_close_listeners s Hwf a k Hk). }
    split; [exact Hwf'|]. intros k sc c Hrep.
    specialize (Hrep' k sc c Hrep).
    pose proof Hrep as (_ & _ & _ & _ & _ & _ & _ & Hcl).
    unfold signals. cbn. destruct (decide (a = client sc)) as [->|Hne].
    + cbn. unfold WebSocket.emit_close. rewrite Hcl.
      destruct (bool_decide _); exact Hrep'.
    + cbn. rewrite bool_decide_eq_false_2 in Hrep'; [exact Hrep'|].
      intros Hin. destruct (wf_close_listeners s Hwf a k Hin) as (sc' & Hsc' & Ha).
      rewrite (represents_scope _ _ _ _ Hrep) in Hsc'. congruence.
Qed.

Lemma signals_app a (es es' : list SocketEvent) :
  signals a (es ++ es') = signals a es ++ signals a es'.
Proof. unfold signals. apply bind_app. Qed.

Lemma socket_run_represents s (es : list SocketEvent) :
  well_formed s →
  well_formed (socket_run s es)
  ∧ ∀ k sc c,
      represents s k sc c →
      represents (socket_run s es) k sc
        (foldl (λ c sig, connection_emit (client sc) sig c) c
           (signals (client sc) es)).
Proof.
  revert s. induction es as [|ev es IH]; intros s Hwf.
  - split; [exact Hwf|]. intros k sc c H. exact H.
  - destruct (socket_step_represents s ev Hwf) as [Hwf1 Hrep1].
    destruct (IH (socket_step s ev) Hwf1) as [Hwf' Hrep'].
    split; [exact Hwf'|]. intros k sc c Hrep.
    change (ev :: es) with ([ev] ++ es). rewrite signals_app, foldl_app.
    apply Hrep', Hrep1, Hrep.
Qed.


Lemma reachable_well_formed (es : list SocketEvent) :
  well_formed (socket_run initial es).
Proof. apply socket_run_represents. exact initial_well_formed. Qed.

(** A frame of one client and the activations of the other clients:
    their variables and their subscriptions are what they were. *)
Lemma emit_message_others a (event : WebSocketData) s k sc :
  well_formed s → scopes s !! k = Some sc → client sc ≠ a →
  middlewaresSub (emit_message a event s) !! k = middlewaresSub s !! k
  ∧ effectsSub (emit_message a event s) !! k = effectsSub s !! k
  ∧ (∀ r o, inbound s !! r = Some o → scope o = k →
            inbound (emit_message a event s) !! r = Some o)
  ∧ (∀ r o, outbound s !! r = Some o → scope o = k →
            outbound (emit_message a event s) !! r = Some o).
Proof.
  intros Hwf Hsc Hne.
  assert (Hnot : k ∉ message_listeners s !!! a).
  { intros Hin. destruct (wf_message_listeners s Hwf a k Hin) as (sc' & Hsc' & Ha).
    congruence. }
  unfold WebSocketServer.emit_message.
  destruct (onMessages_well_formed event (message_listeners s !!! a) s Hwf)
    as (_ & _ & _ & _ & _ & Hin' & Hout' & Hcells').
  { exact (wf_message_listeners_once s Hwf a). }
  { intros k' Hk'. destruct (wf_message_listeners s Hwf a k' Hk') as (sc' & -> & _).
    eexists. reflexivity. }
  destruct (Hcells' k Hnot) as [H1 H2].
  split; [exact H1|]. split; [exact H2|]. split.
  - intros r o Hr <-. apply Hin'; assumption.
  - intros r o Hr <-. apply Hout'; assumption.
Qed.

(** The close listeners of one client and the activations that are not
    among them. *)
Lemma onCloses_others a (l : list Ref) s k :
  well_formed s → NoDup l →
  (∀ k, k ∈ l → ∃ sc, scopes s !! k = Some sc ∧ client sc = a) →
  k ∉ l →
  let s' :=
    foldl (λ s k,
             onClose k
               (set_close_listeners
                  (<[a := filter (λ k', k' ≠ k) (close_listeners s !!! a)]>
                     (close_listeners s)) s)) s l in
  middlewaresSub s' !! k = middlewaresSub s !! k
  ∧ effectsSub s' !! k = effectsSub s !! k
  ∧ (∀ r o, inbound s !! r = Some o → scope o = k → inbound s' !! r = Some o)
  ∧ (∀ r o, outbound s !! r = Some o → scope o = k → outbound s' !! r = Some o).
Proof.
  revert s. induction l as [|k0 l IH]; intros s Hwf Hnd Hl Hk.
  - cbn. repeat split; intros; assumption.
  - apply NoDup_cons in Hnd as [Hk0 Hnd]. cbn [foldl].
    apply not_elem_of_cons in Hk as [Hne Hk].
    destruct (Hl k0) as (sc0 & Hsc0 & Ha0); [apply elem_of_cons; left; reflexivity|].
    destruct (wf_connections s Hwf k0 sc0 Hsc0) as [c0 Hc0].
    destruct (onClose_well_formed k0 sc0 c0 s Hwf Hc0) as (Hwf1 & _ & Hconf1 & Hs1).
    rewrite Ha0 in Hwf1, Hconf1, Hs1.
    set (s1 := onClose k0 _) in *.
    destruct (IH s1 Hwf1 Hnd) as (Hm & He & Hin & Hout).
    { intros k' Hk'. rewrite Hs1. apply Hl. apply elem_of_cons. right. exact Hk'. }
    { exact Hk. }
    split; [|split; [|split]].
    + rewrite Hm. exact (confined_middlewaresSub _ _ _ _ Hconf1 k Hne).
    + rewrite He. exact (confined_effectsSub _ _ _ _ Hconf1 k Hne).
    + intros r o Hr Ho. apply Hin; [|exact Ho].
      apply (confined_inbound _ _ _ _ Hconf1); [exact Hr|congruence].
    + intros r o Hr Ho. apply Hout; [|exact Ho].
      apply (confined_outbound _ _ _ _ Hconf1); [exact Hr|congruence].
Qed.

(** An event of the socket of one client and the activations of the other
    clients: their variables and their subscriptions are what they were. *)
Lemma socket_step_others s (ev : SocketEvent) k sc :
  well_formed s → scopes s !! k = Some sc → event_client ev ≠ client sc →
  middlewaresSub (socket_step s ev) !! k = middlewaresSub s !! k
  ∧ effectsSub (socket_step s ev) !! k = effectsSub s !! k
  ∧ (∀ r o, inbound s !! r = Some o → scope o = k →
            inbound (socket_step s ev) !! r = Some o)
  ∧ (∀ r o, outbound s !! r = Some o → scope o = k →
            outbound (socket_step s ev) !! r = Some o).
Proof.
  intros Hwf Hsc Hne.
  destruct ev as [a|a event|a]; cbn [WebSocketServer.socket_step];
    cbn [event_client] in Hne.
  - unfold handleConnection.
    destruct (handleMessage_well_formed a s Hwf) as (_ & _ & Hconf & _).
    assert (Hk : k ≠ fresh s).
    { intros ->. rewrite (wf_scopes s Hwf (fresh s)) in Hsc by reflexivity.
      discriminate Hsc. }
    split; [|split; [|split]].
    + exact (confined_middlewaresSub _ _ _ _ Hconf k Hk).
    + exact (confined_effectsSub _ _ _ _ Hconf k Hk).
    + intros r o Hr Ho.
      apply (confined_inbound _ _ _ _ Hconf); [exact Hr|congruence].
    + intros r o Hr Ho.
      apply (confined_outbound _ _ _ _ Hconf); [exact Hr|congruence].
  - apply (emit_message_others a event s k sc Hwf Hsc). congruence.
  - unfold WebSocketServer.emit_close.
    apply (onCloses_others a (close_listeners s !!! a) s k Hwf).
    + exact (wf_close_listeners_once s Hwf a).
    + intros k' Hk'. exact (wf_close_listeners s Hwf a k' Hk').
    + intros Hin.
      destruct (wf_close_listeners s Hwf a k Hin) as (sc' & Hsc' & Ha).
      congruence.
Qed.

Lemma signals_other a (ev : SocketEvent) :
  event_client ev ≠ a → signals a [ev] = [].
Proof.
  intros Hne. unfold signals.
  destruct ev as [b|b event|b]; cbn in *;
    [reflexivity|rewrite decide_False by exact Hne; reflexivity..].
Qed.

(** C5: the subjects an activation of [handleMessage] makes are its own,
    no other activation has them; and an event of the socket of one client
    (a frame, whatever the pipelines of its connections make of it, an
    error included; a connection, whose pipelines may fail as they are
    subscribed; a close event) leaves the connection of every activation
    for another client as it is: the subscriptions its two variables refer
    to, every subscription it has made, its listeners and what it has
    done.  The connections of the client itself take a frame as
    [onMessage] has it, and whatever the sockets do afterwards, the other
    connection goes on as it would have without that event. *)
Theorem pipeline_error_stays_on_its_connection (es : list SocketEvent)
    (ev : SocketEvent) k sc :
  let s := socket_run initial es in
  let s' := socket_step s ev in
  scopes s !! k = Some sc →
  event_client ev ≠ client sc →
  (∀ k' sc', scopes s !! k' = Some sc' → k' ≠ k →
     eventSubject sc' ≠ eventSubject sc
     ∧ incomingEventSubject sc' ≠ incomingEventSubject sc
     ∧ eventSubject sc' ≠ incomingEventSubject sc
     ∧ incomingEventSubject sc' ≠ eventSubject sc)
  ∧ (∃ c, view s k = Some c ∧ view s' k = Some c)
  ∧ middlewaresSub s' !! k = middlewaresSub s !! k
  ∧ effectsSub s' !! k = effectsSub s !! k
  ∧ (∀ r o, inbound s !! r = Some o → scope o = k → inbound s' !! r = Some o)
  ∧ (∀ r o, outbound s !! r = Some o → scope o = k → outbound s' !! r = Some o)
  ∧ (∀ a (event : WebSocketData) k' sc',
       ev = OnMessage a event → scopes s !! k' = Some sc' → client sc' = a →
       ∃ c', view s k' = Some c'
             ∧ view s' k' = Some (connection_emit_message a event c'))
  ∧ (∀ es', view (socket_run s' es') k = view (socket_run s es') k).
Proof.
  intros s s' Hsc Hne.
  pose proof (reachable_well_formed es) as Hwf. fold s in Hwf.
  destruct (socket_step_represents s ev Hwf) as [Hwf' Hstep].
  fold s' in Hwf', Hstep.
  destruct (wf_connections s Hwf k sc Hsc) as [c Hrep].
  assert (Hrep' : represents s' k sc c).
  { specialize (Hstep k sc c Hrep).
    rewrite (signals_other _ _ Hne) in Hstep. exact Hstep. }
  destruct (socket_step_others s ev k sc Hwf Hsc Hne)
    as (Hm & He & Hin & Hout).
  split; [|split; [|split; [|split; [|split; [|split; [|split]]]]]].
  - intros k' sc' Hsc' Hk'.
    destruct (wf_apart s Hwf k k' sc sc' Hsc Hsc') as [H1 H2].
    destruct (wf_apart s Hwf k' k sc' sc Hsc' Hsc) as [H3 _].
    destruct (H2 (not_eq_sym Hk')) as [H4 H5].
    repeat split; congruence.
  - exists c. split; [exact (represents_view _ _ _ _ Hrep)|
                     exact (represents_view _ _ _ _ Hrep')].
  - exact Hm.
  - exact He.
  - exact Hin.
  - exact Hout.
  - intros a event k' sc' Hev Hsc' Ha.
    destruct (wf_connections s Hwf k' sc' Hsc') as [c' Hrep1].
    exists c'. split; [exact (represents_view _ _ _ _ Hrep1)|].
    apply (represents_view _ _ sc').
    specialize (Hstep k' sc' c' Hrep1). rewrite Hev in Hstep.
    unfold signals in Hstep. cbn in Hstep.
    rewrite decide_True in Hstep by congruence. rewrite Ha in Hstep.
    exact Hstep.
  - intros es'.
    destruct (socket_run_represents s es' Hwf) as [_ H1].
    destruct (socket_run_represents s' es' Hwf') as [_ H2].
    rewrite (represents_view _ _ _ _ (H1 k sc c Hrep)).
    rewrite (represents_view _ _ _ _ (H2 k sc c Hrep')). reflexivity.
Qed.

(** X17: what a connection is in the heap of a server is the connection
    [handleMessage] returns for its client, taken through the signals of
    that client alone, in their order: the connections, the frames and the
    close events of the other clients, and further connections of the same
    client, make no difference to it. *)
Theorem server_runs_each_connection_alone (es es' : list SocketEvent) a :
  let s := socket_run initial es in
  view (socket_run (socket_step s (OnConnection a)) es') (fresh s)
  = Some (foldl (λ c sig, connection_emit a sig c) (connection_handleMessage a)
            (signals a es')).
Proof.
  intros s.
  pose proof (reachable_well_formed es) as Hwf. fold s in Hwf.
  destruct (handleMessage_well_formed a s Hwf) as (Hwf1 & Hrep1 & _).
  destruct (socket_run_represents (handleMessage a s) es' Hwf1) as [_ Hrun].
  exact (represents_view _ _ _ _ (Hrun _ _ _ Hrep1)).
Qed.

End ServerConnections.

Lemma close_detaches_listener_and_unsubscribes_witness :
  let c := WebSocket.Sample.connect 1%positive in
  let c' := WebSocket.emit_close c in
  WebSocket.trace c'
  = WebSocket.trace c ++ [WebSocket.RemoveMessageListener;
                          WebSocket.Unsubscribe WebSocket.Inbound;
                          WebSocket.Unsubscribe WebSocket.Outbound]
  ∧ WebSocket.message_listener c' = false
  ∧ WebSocket.closed (WebSocket.middlewaresSub c') = true
  ∧ WebSocket.closed (WebSocket.effectsSub c') = true
  ∧ foldl (λ c event, WebSocket.Sample.message 1%positive event c) c'
      ["ping"%string; "boom"%string] = c'
  ∧ WebSocket.forwarded
      (WebSocket.trace
         (foldl (λ c event, WebSocket.Sample.message 1%positive event c) c'
            ["ping"%string; "boom"%string]))
    = WebSocket.forwarded (WebSocket.trace c).
Proof.
  exact (close_detaches_listener_and_unsubscribes unit
           (Some WebSocket.Sample.config) WebSocket.Sample.ask
           WebSocket.combine WebSocket.combine WebSocket.Sample.json
           1%positive (WebSocket.Sample.connect 1%positive)
           ["ping"%string; "boom"%string] eq_refl).
Defined.

Lemma pipeline_error_stays_on_its_connection_witness :
  let s := WebSocketServer.sample_server in
  let s' := WebSocketServer.sample_step s (WebSocketServer.OnMessage 1%positive "boom") in
  (∃ c, WebSocketServer.view s WebSocketServer.second = Some c
        ∧ WebSocketServer.view s' WebSocketServer.second = Some c)
  ∧ (∀ r o, WebSocketServer.outbound s !! r = Some o →
            WebSocketServer.scope o = WebSocketServer.second →
            WebSocketServer.outbound s' !! r = Some o)
  ∧ (∃ c', WebSocketServer.view s WebSocketServer.first = Some c'
           ∧ WebSocketServer.view s' WebSocketServer.first
             = Some (WebSocket.Sample.message 1%positive "boom" c'))
  ∧ (∀ es', WebSocketServer.view (WebSocketServer.sample_run s' es')
              WebSocketServer.second
            = WebSocketServer.view (WebSocketServer.sample_run s es')
                WebSocketServer.second).
Proof.
  destruct (pipeline_error_stays_on_its_connection unit
              (Some WebSocket.Sample.config) WebSocket.Sample.ask
              WebSocket.combine WebSocket.combine WebSocket.Sample.json
              [WebSocketServer.OnConnection 1%positive;
               WebSocketServer.OnConnection 2%positive]
              (WebSocketServer.OnMessage 1%positive "boom")
              WebSocketServer.second WebSocketServer.second_scope)
    as (_ & Hview & _ & _ & _ & Hout & Hown & Hlater).
  - vm_compute. reflexivity.
  - discriminate.
  - split; [exact Hview|]. split; [exact Hout|]. split; [|exact Hlater].
    apply (Hown 1%positive "boom"%string WebSocketServer.first
             WebSocketServer.first_scope).
    + reflexivity.
    + vm_compute. reflexivity.
    + reflexivity.
Defined.

Lemma pipeline_error_reported_once_connection_survives_witness :
  (WebSocket.trace
     (WebSocket.eventSubject_next WebSocket.Sample.ask 1%positive
        WebSocket.Sample.boom (WebSocket.Sample.connect 1%positive))
   = WebSocket.trace (WebSocket.Sample.connect 1%positive)
       ++ WebSocket.EventSubjectNext WebSocket.Sample.boom
       :: (WebSocket.SendResponse <$> [])
       ++ [WebSocket.HandleEffectsError WebSocket.Outbound
             (WebSocket.ctx WebSocket.Sample.ask 1%positive)
             (Js.OtherError "boom")]
   ∧ WebSocket.closed
       (WebSocket.effectsSub
          (WebSocket.eventSubject_next WebSocket.Sample.ask 1%positive
             WebSocket.Sample.boom (WebSocket.Sample.connect 1%positive)))
     = true)
  ∧ (let failed :=
       WebSocket.handleMessage unit (Some WebSocket.Sample.failing)
         WebSocket.Sample.ask WebSocket.combine WebSocket.combine
         WebSocket.Sample.json 1%positive in
     let effects_ :=
       WebSocket.effects_ unit (Some WebSocket.Sample.failing)
         WebSocket.Sample.ask WebSocket.combine 1%positive in
     let again :=
       WebSocket.onMessage unit (Some WebSocket.Sample.failing)
         WebSocket.Sample.ask WebSocket.combine WebSocket.combine
         WebSocket.Sample.json 1%positive "ping" failed in
     (WebSocket.trace
        (WebSocket.subscribeEffects WebSocket.Sample.ask 1%positive
           WebSocket.Src_effects effects_ failed).1
      = WebSocket.trace failed
          ++ WebSocket.Subscribe WebSocket.Outbound WebSocket.Src_effects
          :: (WebSocket.SendResponse <$> [])
          ++ [WebSocket.HandleEffectsError WebSocket.Outbound
                (WebSocket.ctx WebSocket.Sample.ask 1%positive)
                (Js.OtherError "down")]
      ∧ WebSocket.closed
          (WebSocket.subscribeEffects WebSocket.Sample.ask 1%positive
             WebSocket.Src_effects effects_ failed).2
        = true)
     ∧ (WebSocket.errors WebSocket.Inbound again
        = WebSocket.errors WebSocket.Inbound failed + 1
        ∧ WebSocket.closed (WebSocket.middlewaresSub again) = true)
     ∧ (WebSocket.errors WebSocket.Outbound again
        = WebSocket.errors WebSocket.Outbound failed + 1
        ∧ WebSocket.closed (WebSocket.effectsSub again) = true)).
Proof.
  split.
  - exact (proj1 (proj2 (proj2
             (pipeline_error_reported_once_connection_survives unit
                (Some WebSocket.Sample.config) WebSocket.Sample.ask
                WebSocket.combine WebSocket.combine
                WebSocket.Sample.json 1%positive "boom"
                (WebSocket.Sample.connect 1%positive))))
             WebSocket.Sample.boom [] (Js.OtherError "boom") [] eq_refl eq_refl).
  - pose proof (pipeline_error_reported_once_connection_survives unit
                  (Some WebSocket.Sample.failing) WebSocket.Sample.ask
                  WebSocket.combine WebSocket.combine
                  WebSocket.Sample.json 1%positive "ping"
                  (WebSocket.handleMessage unit (Some WebSocket.Sample.failing)
                     WebSocket.Sample.ask WebSocket.combine WebSocket.combine
                     WebSocket.Sample.json 1%positive))
      as (_ & _ & _ & _ & Heffects & Hinbound & Houtbound).
    split; [|split].
    + exact (Heffects WebSocket.Src_effects
               (WebSocket.effects_ unit (Some WebSocket.Sample.failing)
                  WebSocket.Sample.ask WebSocket.combine 1%positive)
               [] (Js.OtherError "down") [] eq_refl).
    + exact (Hinbound [] (Js.OtherError "barred") [] eq_refl eq_refl).
    + exact (Houtbound [] (Js.OtherError "down") [] eq_refl eq_refl).
Defined.

(** C2, where the code departs from it.  On the sample listener the
    subscription [handleMessage] makes for the outbound pipeline is one to
    [effectsOutput$], and a frame is answered with the stamp of the output
    effect.  Once the effect has failed on a frame the subscription is
    closed; the next frame makes one new subscription, before it is
    forwarded, but to [effects$]: the frame is answered without the stamp,
    the output effect is no longer part of the pipeline. *)
Theorem resubscribed_outbound_pipeline_skips_output_effect :
  let fresh := WebSocket.Sample.connect 1%positive in
  let failed := WebSocket.Sample.message 1%positive "boom" fresh in
  let again := WebSocket.Sample.message 1%positive "ping" failed in
  WebSocket.subscribed_to (WebSocket.effectsSub fresh) = WebSocket.Src_effectsOutput
  ∧ WebSocket.sent
      (WebSocket.trace (WebSocket.Sample.message 1%positive "ping" fresh))
    = [WebSocket.Sample.stamped_ping]
  ∧ WebSocket.closed (WebSocket.effectsSub failed) = true
  ∧ drop (length (WebSocket.trace failed)) (WebSocket.trace again)
    = [WebSocket.Subscribe WebSocket.Outbound WebSocket.Src_effects;
       WebSocket.IncomingEventSubjectNext "ping";
       WebSocket.EventSubjectNext WebSocket.Sample.ping;
       WebSocket.SendResponse WebSocket.Sample.ping]
  ∧ WebSocket.subscribed_to (WebSocket.effectsSub again) = WebSocket.Src_effects.
Proof. repeat split. Qed.

Lemma inbound_pipeline_reaction_witness :
  let c := WebSocket.Sample.connect 1%positive in
  let b := Rx.on_next (WebSocket.source (WebSocket.middlewaresSub c))
             (WebSocket.history (WebSocket.middlewaresSub c)) "ping" in
  let c' := WebSocket.onMessage unit (Some WebSocket.Sample.config)
              WebSocket.Sample.ask WebSocket.combine WebSocket.combine
              WebSocket.Sample.json 1%positive "ping" c in
  (∀ p, WebSocket.subscriptions p c' = WebSocket.subscriptions p c)
  ∧ WebSocket.forwarded (WebSocket.trace c')
    = WebSocket.forwarded (WebSocket.trace c) ++ ["ping"%string]
  ∧ WebSocket.pushed (WebSocket.trace c')
    = WebSocket.pushed (WebSocket.trace c) ++ Rx.values b
  ∧ WebSocket.errors WebSocket.Inbound c'
    = WebSocket.errors WebSocket.Inbound c
      + match Rx.failure b with Some _ => 1 | None => 0 end
  ∧ WebSocket.closed (WebSocket.middlewaresSub c') = Rx.terminates b
  ∧ WebSocket.history (WebSocket.middlewaresSub c')
    = WebSocket.history (WebSocket.middlewaresSub c) ++ ["ping"%string]
  ∧ WebSocket.source (WebSocket.middlewaresSub c')
    = WebSocket.source (WebSocket.middlewaresSub c).
Proof.
  exact (inbound_pipeline_reaction unit (Some WebSocket.Sample.config)
           WebSocket.Sample.ask WebSocket.combine WebSocket.combine
           WebSocket.Sample.json 1%positive "ping"
           (WebSocket.Sample.connect 1%positive) eq_refl eq_refl).
Defined.

Lemma decode_failure_is_an_inbound_error_witness :
  let c := WebSocket.Sample.connect 1%positive in
  let c' := WebSocket.onMessage unit (Some WebSocket.Sample.config)
              WebSocket.Sample.ask WebSocket.combine WebSocket.combine
              WebSocket.Sample.json 1%positive "" c in
  WebSocket.trace c'
  = WebSocket.trace c
      ++ [WebSocket.IncomingEventSubjectNext "";
          WebSocket.HandleEffectsError WebSocket.Inbound
            (WebSocket.ctx WebSocket.Sample.ask 1%positive)
            (Js.OtherError "empty frame")]
  ∧ WebSocket.closed (WebSocket.middlewaresSub c') = true
  ∧ WebSocket.effectsSub c' = WebSocket.effectsSub c.
Proof.
  exact (proj1 (decode_failure_is_an_inbound_error unit
                  (Some WebSocket.Sample.config) WebSocket.Sample.ask
                  WebSocket.combine WebSocket.combine WebSocket.Sample.json
                  1%positive "" (WebSocket.Sample.connect 1%positive)
                  eq_refl eq_refl eq_refl)
           (Js.OtherError "empty frame") eq_refl).
Defined.

Lemma without_output_effect_resubscription_is_faithful_witness :
  WebSocket.effectsOutput_ unit None WebSocket.Sample.ask WebSocket.combine
    1%positive
  = WebSocket.effects_ unit None WebSocket.Sample.ask WebSocket.combine 1%positive
  ∧ WebSocket.source
      (WebSocket.effectsSub
         (foldl (λ c event,
                   WebSocket.emit_message unit None WebSocket.Sample.ask
                     WebSocket.combine WebSocket.combine WebSocket.Sample.json
                     1%positive event c)
            (WebSocket.handleMessage unit None WebSocket.Sample.ask
               WebSocket.combine WebSocket.combine WebSocket.Sample.json
               1%positive)
            ["ping"%string; ""%string]))
    = WebSocket.effectsOutput_ unit None WebSocket.Sample.ask WebSocket.combine
        1%positive.
Proof.
  exact (without_output_effect_resubscription_is_faithful unit None
           WebSocket.Sample.ask WebSocket.combine WebSocket.combine
           WebSocket.Sample.json 1%positive ["ping"%string; ""%string] eq_refl).
Defined.
